(** * Optimal meeting point in a grid: the solver and its two engines

    A shallow embedding of [optimal_meeting_point.py], in two layers.

    The first layer passes lists by value:
    - Python [int] is [Z]; a grid is a list of rows of [Z] markers
      (0 empty land, 1 house, anything else is decided by the code).
    - A Python exception ([IndexError] on a list access out of range) is
      [None] in the option monad; a returned value is [Some].
    - [float('inf')] as the initial value of a running minimum is the
      constructor [Inf] of [ext].
    - The [while q:] loop of the traversal engine takes a fuel argument; the
      engine supplies [S (m * n)], and [bfs_while_fuel] shows that this
      is never exhausted on a rectangular grid.

    The second layer, the module [Imp], runs the same statements over a
    store of list objects, where an item assignment changes an object in
    place.  It is related to the first layer by a simulation
    ([min_total_distance_sim] and the lemmas before it); what concerns
    results is proved on the first layer, what concerns the store on the
    second. *)

From stdpp Require Import base list numbers option.

Open Scope Z_scope.

(** ** Python lists *)

(** [l[i]] on a list of length [len]: indices [0 .. len-1] address from the
    front, [-len .. -1] from the back, everything else raises. *)
Definition index (len : nat) (i : Z) : option nat :=
  if bool_decide (0 ≤ i < Z.of_nat len) then Some (Z.to_nat i)
  else if bool_decide (- Z.of_nat len ≤ i < 0) then Some (Z.to_nat (Z.of_nat len + i))
  else None.

Definition getitem {A} (l : list A) (i : Z) : option A :=
  k ← index (length l) i; l !! k.

Definition setitem {A} (l : list A) (i : Z) (v : A) : option (list A) :=
  k ← index (length l) i; Some (<[k:=v]> l).

(** [a[i][j]] and [a[i][j] = v] on a list of rows. *)
Definition getitem2 (a : list (list Z)) (i j : Z) : option Z :=
  row ← getitem a i; getitem row j.

Definition setitem2 (a : list (list Z)) (i j : Z) (v : Z) : option (list (list Z)) :=
  row ← getitem a i; row' ← setitem row j v; setitem a i row'.

(** [range(lo, hi)]. *)
Definition range (lo hi : nat) : list Z := Z.of_nat <$> seq lo (hi - lo).

(** [[0]*n] and [[[0]*n for _ in range(m)]]. *)
Definition zeros (n : nat) : list Z := replicate n 0.
Definition zeros2 (m n : nat) : list (list Z) := replicate m (zeros n).

(** A [for] loop whose body may raise: the state is threaded through the
    elements in order and the first exception ends the loop. *)
Fixpoint foldM {A S} (f : S → A → option S) (l : list A) (s : S) : option S :=
  match l with
  | [] => Some s
  | x :: l' => s' ← f s x; foldM f l' s'
  end.

(** [sum(...)] of a list of integers. *)
Definition Zsum (l : list Z) : Z := foldr Z.add 0 l.

(** The running minimum that starts at [float('inf')]. *)
Inductive ext := Inf | Fin (z : Z).

Definition ext_min (a : ext) (z : Z) : ext :=
  match a with
  | Inf => Fin z
  | Fin y => Fin (Z.min y z)
  end.

(** [min_cost if min_cost != float('inf') else -1] *)
Definition or_minus_one (a : ext) : Z :=
  match a with
  | Inf => -1
  | Fin z => z
  end.

(** ** The solver's preamble *)

(** [total_houses = sum(cell for row in grid for cell in row)] *)
Definition total_of (grid : list (list Z)) : Z := Zsum (concat grid).

(** [houses = [(i, j) for i in range(m) for j in range(n) if grid[i][j] == 1]] *)
Definition houses_of (grid : list (list Z)) (m n : nat) : option (list (Z * Z)) :=
  foldM (λ acc i,
    foldM (λ acc j,
      v ← getitem2 grid i j;
      Some (if bool_decide (v = 1) then acc ++ [(i, j)] else acc))
    (range 0 n) acc)
  (range 0 m) [].

(** The classification scan, lines 43-50: both loops walk the rows
    themselves and stop at the first marker outside (0, 1). *)
Definition has_only_01 (grid : list (list Z)) : bool :=
  forallb (λ row, forallb (λ v, bool_decide (v = 0) || bool_decide (v = 1)) row) grid.

(** ** The separable engine *)

(** [for i, j in houses: row_count[i] += 1; col_count[j] += 1] *)
Definition count_houses (houses : list (Z * Z)) (m n : nat) : option (list Z * list Z) :=
  foldM (λ '(row_count, col_count) '(i, j),
    ri ← getitem row_count i;
    row_count ← setitem row_count i (ri + 1);
    cj ← getitem col_count j;
    col_count ← setitem col_count j (cj + 1);
    Some (row_count, col_count))
  houses (zeros m, zeros n).

(** [sum(count[i]*i for i in range(m))] *)
Definition weighted_sum (count : list Z) (m : nat) : option Z :=
  foldM (λ acc i, c ← getitem count i; Some (acc + c * i)) (range 0 m) 0.

(** Lines 61-69 (rows) and 72-77 (columns), which are the same code:
<<
    cost = [0]*m
    cost[0] = sum(count[i]*i for i in range(m))
    prefix = 0
    for r in range(1, m):
        prefix += count[r-1]
        cost[r] = cost[r-1] + (2*prefix - total)
>> *)
Definition axis_cost (count : list Z) (m : nat) (total : Z) : option (list Z) :=
  s ← weighted_sum count m;
  cost ← setitem (zeros m) 0 s;
  '(_, cost) ← foldM (λ '(prefix, cost) r,
      c ← getitem count (r - 1);
      let prefix := prefix + c in
      prev ← getitem cost (r - 1);
      cost ← setitem cost r (prev + (2 * prefix - total));
      Some (prefix, cost))
    (range 1 m) (0, cost);
  Some cost.

(** The final scan over the empty cells. *)
Definition min_over_empty (grid : list (list Z)) (cost_row cost_col : list Z)
    (m n : nat) : option ext :=
  foldM (λ min_cost i,
    foldM (λ min_cost j,
      v ← getitem2 grid i j;
      if bool_decide (v = 0) then
        cr ← getitem cost_row i;
        cc ← getitem cost_col j;
        Some (ext_min min_cost (cr + cc))
      else Some min_cost)
    (range 0 n) min_cost)
  (range 0 m) Inf.

(** The cost arrays of the fast path, before the final scan. *)
Definition cost_arrays (houses : list (Z * Z)) (m n : nat) (total_houses : Z)
    : option (list Z * list Z) :=
  '(row_count, col_count) ← count_houses houses m n;
  cost_row ← axis_cost row_count m total_houses;
  cost_col ← axis_cost col_count n total_houses;
  Some (cost_row, cost_col).

Definition _fast_total_distance (grid : list (list Z)) (houses : list (Z * Z))
    (m n : nat) (total_houses : Z) : option Z :=
  '(cost_row, cost_col) ← cost_arrays houses m n total_houses;
  min_cost ← min_over_empty grid cost_row cost_col m n;
  Some (or_minus_one min_cost).

(** ** The traversal engine *)

Record bfs_state := BfsState {
  dist : list (list Z);
  reach : list (list Z);
  visited_mark : list (list Z);
  queue : list (Z * Z * Z)
}.

Definition directions : list (Z * Z) := [(-1, 0); (1, 0); (0, -1); (0, 1)].

(** One iteration of [for dx, dy in directions:] for the popped entry
    [(x, y, d)].  The conjunction of line 138 is evaluated left to right and
    stops at the first false operand. *)
Definition visit_neighbor (grid : list (list Z)) (m n : nat) (visit_id : Z)
    (x y d : Z) (st : bfs_state) (dir : Z * Z) : option bfs_state :=
  let '(dx, dy) := dir in
  let nx := x + dx in
  let ny := y + dy in
  if bool_decide (0 ≤ nx < Z.of_nat m) && bool_decide (0 ≤ ny < Z.of_nat n) then
    vm ← getitem2 (visited_mark st) nx ny;
    if bool_decide (vm ≠ visit_id) then
      g ← getitem2 grid nx ny;
      if bool_decide (g ≠ 2) then
        visited_mark' ← setitem2 (visited_mark st) nx ny visit_id;
        '(dist', reach') ←
          (if bool_decide (g = 0) then
             dv ← getitem2 (dist st) nx ny;
             dist' ← setitem2 (dist st) nx ny (dv + (d + 1));
             rv ← getitem2 (reach st) nx ny;
             reach' ← setitem2 (reach st) nx ny (rv + 1);
             Some (dist', reach')
           else Some (dist st, reach st));
        Some (BfsState dist' reach' visited_mark' (queue st ++ [(nx, ny, d + 1)]))
      else Some st
    else Some st
  else Some st.

(** [while q: x, y, d = q.popleft(); for dx, dy in directions: ...] *)
Fixpoint bfs_while (fuel : nat) (grid : list (list Z)) (m n : nat) (visit_id : Z)
    (st : bfs_state) : option bfs_state :=
  match queue st with
  | [] => Some st
  | (x, y, d) :: q =>
      match fuel with
      | O => None
      | S fuel =>
          st' ← foldM (visit_neighbor grid m n visit_id x y d) directions
                  (BfsState (dist st) (reach st) (visited_mark st) q);
          bfs_while fuel grid m n visit_id st'
      end
  end.

(** The body of [for i, j in houses:]; the loop state is the three arrays and
    [visit_id]. *)
Definition bfs_from_house (grid : list (list Z)) (m n : nat)
    (acc : list (list Z) * list (list Z) * list (list Z) * Z) (h : Z * Z)
    : option (list (list Z) * list (list Z) * list (list Z) * Z) :=
  let '(dist0, reach0, visited0, visit_id) := acc in
  let '(i, j) := h in
  visited1 ← setitem2 visited0 i j visit_id;
  st ← bfs_while (S (m * n)) grid m n visit_id
         (BfsState dist0 reach0 visited1 [(i, j, 0)]);
  Some (dist st, reach st, visited_mark st, visit_id + 1).

(** The arrays after all traversals. *)
Definition bfs_all (grid : list (list Z)) (houses : list (Z * Z)) (m n : nat)
    : option (list (list Z) * list (list Z) * list (list Z) * Z) :=
  foldM (bfs_from_house grid m n) houses (zeros2 m n, zeros2 m n, zeros2 m n, 1).

(** Lines 146-151. *)
Definition min_over_reached (grid dist1 reach1 : list (list Z)) (m n : nat)
    (total_houses : Z) : option ext :=
  foldM (λ min_dist i,
    foldM (λ min_dist j,
      v ← getitem2 grid i j;
      if bool_decide (v = 0) then
        r ← getitem2 reach1 i j;
        if bool_decide (r = total_houses) then
          dv ← getitem2 dist1 i j;
          Some (ext_min min_dist dv)
        else Some min_dist
      else Some min_dist)
    (range 0 n) min_dist)
  (range 0 m) Inf.

Definition _bfs_total_distance (grid : list (list Z)) (houses : list (Z * Z))
    (m n : nat) (total_houses : Z) : option Z :=
  '(dist1, reach1, _, _) ← bfs_all grid houses m n;
  min_dist ← min_over_reached grid dist1 reach1 m n total_houses;
  Some (or_minus_one min_dist).

(** ** The solver *)

Definition min_total_distance (grid : list (list Z)) : option Z :=
  match grid with
  | [] => Some (-1)
  | [] :: _ => Some (-1)
  | row0 :: _ =>
      let m := length grid in
      let n := length row0 in
      let total_houses := total_of grid in
      if bool_decide (total_houses = 0) then Some (-1)
      else
        houses ← houses_of grid m n;
        if has_only_01 grid then
          (* lines 54-85 repeat the body of _fast_total_distance *)
          _fast_total_distance grid houses m n total_houses
        else _bfs_total_distance grid houses m n total_houses
  end.

(** ** Vocabulary of the specification *)

(** A coordinate inside an [m] by [n] grid. *)
Definition inb (m n : nat) (c : Z * Z) : Prop :=
  0 ≤ c.1 < Z.of_nat m ∧ 0 ≤ c.2 < Z.of_nat n.

(** A rectangular array: [m] rows, each of length [n]. *)
Definition shaped (m n : nat) (a : list (list Z)) : Prop :=
  length a = m ∧ Forall (λ row, length row = n) a.

(** The marker (or array entry) at a coordinate, 0 where the access raises. *)
Definition cell (a : list (list Z)) (c : Z * Z) : Z :=
  default 0 (getitem2 a c.1 c.2).

(** All coordinates in the order of the nested [range] loops. *)
Definition cells (m n : nat) : list (Z * Z) :=
  i ← range 0 m; j ← range 0 n; [(i, j)].

Definition manhattan (h c : Z * Z) : Z :=
  Z.abs (h.1 - c.1) + Z.abs (h.2 - c.2).

(** Total Manhattan cost from a cell to all houses. *)
Definition total_manhattan (houses : list (Z * Z)) (c : Z * Z) : Z :=
  Zsum ((λ h, manhattan h c) <$> houses).

(** The running minimum of a list of candidates. *)
Definition min_of (l : list Z) : ext := foldl ext_min Inf l.

(** One axis of the separable cost: the houses' positions on that axis are
    [ps]; [occ k ps] of them sit at [k], [cnt_below k ps] before [k], and
    [axis_dist ps k] is their total distance to [k]. *)
Definition occ (k : Z) (ps : list Z) : Z :=
  Zsum ((λ p, if bool_decide (p = k) then 1 else 0) <$> ps).

Definition cnt_below (k : Z) (ps : list Z) : Z :=
  Zsum ((λ p, if bool_decide (p < k) then 1 else 0) <$> ps).

Definition sum_below (k : Z) (ps : list Z) : Z :=
  Zsum ((λ p, if bool_decide (p < k) then p else 0) <$> ps).

Definition axis_dist (ps : list Z) (k : Z) : Z :=
  Zsum ((λ p, Z.abs (p - k)) <$> ps).

(** The houses of a grid, as the comprehension of line 39 lists them. *)
Definition house_cells (grid : list (list Z)) (m n : nat) : list (Z * Z) :=
  filter (λ c, cell grid c = 1) (cells m n).

(** ** Vocabulary of the traversal *)

(** A coordinate moved by one direction. *)
Definition move (c dir : Z * Z) : Z * Z := (c.1 + dir.1, c.2 + dir.2).

(** The arrays of a state are [m] by [n] and the queue holds coordinates of
    the grid. *)
Definition wf_state (m n : nat) (st : bfs_state) : Prop :=
  shaped m n (dist st) ∧ shaped m n (reach st) ∧ shaped m n (visited_mark st)
  ∧ Forall (λ e, inb m n e.1) (queue st).

(** Visited in the traversal numbered [visit_id]. *)
Definition marked (visit_id : Z) (st : bfs_state) (c : Z * Z) : Prop :=
  cell (visited_mark st) c = visit_id.

(** What lines 139-144 do to the state when the neighbour [c] of an entry
    at depth [d] is entered. *)
Definition entered (grid : list (list Z)) (m n : nat) (visit_id : Z)
    (c : Z * Z) (d : Z) (st st' : bfs_state) : Prop :=
  wf_state m n st'
  ∧ queue st' = queue st ++ [(c, d + 1)]
  ∧ cell (visited_mark st') c = visit_id
  ∧ (∀ c', inb m n c' → c' ≠ c →
       cell (visited_mark st') c' = cell (visited_mark st) c')
  ∧ (∀ c', inb m n c' →
       cell (dist st') c' = cell (dist st) c'
         + (if bool_decide (c' = c ∧ cell grid c = 0) then d + 1 else 0))
  ∧ (∀ c', inb m n c' →
       cell (reach st') c' = cell (reach st) c'
         + (if bool_decide (c' = c ∧ cell grid c = 0) then 1 else 0)).

(** The guard of line 138. *)
Definition enterable (grid : list (list Z)) (m n : nat) (visit_id : Z)
    (st : bfs_state) (c : Z * Z) : Prop :=
  inb m n c ∧ cell (visited_mark st) c ≠ visit_id ∧ cell grid c ≠ 2.

(** Cells not yet visited in the current traversal. *)
Definition unmarked (m n : nat) (visit_id : Z) (vm : list (list Z)) : nat :=
  length (filter (λ c, cell vm c ≠ visit_id) (cells m n)).

(** All neighbours inside the grid have been visited. *)
Definition processed (m n : nat) (visit_id : Z) (st : bfs_state) (c : Z * Z) : Prop :=
  ∀ dir, dir ∈ directions → inb m n (move c dir) → marked visit_id st (move c dir).

(** The state of a traversal from [src] over a grid without marker 2, seen
    between two iterations of the [while] loop ([cur = None]) or inside the
    [for] loop over the directions of the popped cell ([cur = Some c]).
    The queue is [qa ++ qb]: entries at depth [d], then entries at depth
    [d + 1]; [dist0] and [reach0] are the arrays before the traversal. *)
Definition level (grid : list (list Z)) (m n : nat) (visit_id : Z)
    (src : Z * Z) (dist0 reach0 : list (list Z))
    (cur : option (Z * Z)) (d : Z) (qa qb : list (Z * Z * Z))
    (st : bfs_state) : Prop :=
  wf_state m n st
  ∧ queue st = qa ++ qb
  ∧ Forall (λ e, e.2 = d) qa
  ∧ Forall (λ e, e.2 = d + 1) qb
  ∧ Forall (λ e, marked visit_id st e.1 ∧ manhattan src e.1 = e.2) (queue st)
  ∧ marked visit_id st src
  ∧ (∀ c, inb m n c → marked visit_id st c →
       cur = Some c ∨ c ∈ (fst <$> queue st) ∨ processed m n visit_id st c)
  ∧ (∀ c, inb m n c → manhattan src c ≤ d → marked visit_id st c)
  ∧ (∀ c, inb m n c →
       cell (dist st) c = cell dist0 c
         + (if bool_decide (cell (visited_mark st) c = visit_id ∧ cell grid c = 0)
            then manhattan src c else 0))
  ∧ (∀ c, inb m n c →
       cell (reach st) c = cell reach0 c
         + (if bool_decide (cell (visited_mark st) c = visit_id ∧ cell grid c = 0)
            then 1 else 0)).

(** [visited_mark] starts at 0 and receives the traversal numbers 1, 2, ...:
    a cell has been entered by some traversal when its mark is not 0.
    No entered cell has marker 2, the start cells apart. *)
Definition marks_avoid_2 (grid : list (list Z)) (m n : nat) (starts : list (Z * Z))
    (vm : list (list Z)) : Prop :=
  ∀ c, inb m n c → cell vm c ≠ 0 → c ∈ starts ∨ cell grid c ≠ 2.

(** The reading under which every marker outside 0 and 1 is an obstacle:
    the traversal engine only ever enters cells with marker 0 or 1. *)
Definition enters_only_01 (grid : list (list Z)) (houses : list (Z * Z))
    (m n : nat) : Prop :=
  ∀ dist1 reach1 vm1 visit_id,
    bfs_all grid houses m n = Some (dist1, reach1, vm1, visit_id) →
    ∀ c, inb m n c → cell vm1 c ≠ 0 → cell grid c = 0 ∨ cell grid c = 1.

(** * The same code over a store of list objects

    The definitions above pass lists by value.  Python passes references:
    [grid] is a list object whose items refer to row objects, and an item
    assignment changes the object it is applied to, for every holder of a
    reference.  The module [Imp] runs the same statements over a store in
    which an object is a row of integers, a list of references to rows, or
    a list of pairs of integers; a reference is the object's position in
    the store and a new object goes to the end of it.  A computation takes a store and returns a value, or
    [None] when an exception is raised, and the store it leaves behind. *)

Module Imp.

Inductive obj :=
  | ORow (r : list Z)
  | OList (ls : list nat)
  | OPairs (ps : list (Z * Z)).

Abbreviation heap := (list obj).

Definition M (A : Type) : Type := heap → option A * heap.

Definition ret {A} (a : A) : M A := λ h, (Some a, h).

Definition bind {A B} (m : M A) (k : A → M B) : M B :=
  λ h, match m h with
       | (Some a, h') => k a h'
       | (None, h') => (None, h')
       end.

Declare Scope imp_scope.
Delimit Scope imp_scope with imp.
Notation "x ← y ; z" := (bind y (λ x : _, z))
  (at level 20, y at level 100, z at level 200, only parsing) : imp_scope.
Notation "' x ← y ; z" := (bind y (λ x : _, z))
  (at level 20, x pattern, y at level 100, z at level 200, only parsing) : imp_scope.
Notation "y ;; z" := (bind y (λ _, z))
  (at level 100, z at level 200, only parsing, right associativity) : imp_scope.
Local Open Scope imp_scope.

(** A value computed without the store; [None] raises. *)
Definition lift {A} (o : option A) : M A := λ h, (o, h).

(** A new object. *)
Definition alloc (o : obj) : M nat := λ h, (Some (length h), h ++ [o]).

Definition get_row (l : nat) : M (list Z) :=
  λ h, (match h !! l with Some (ORow r) => Some r | _ => None end, h).

Definition get_list (l : nat) : M (list nat) :=
  λ h, (match h !! l with Some (OList ls) => Some ls | _ => None end, h).

(** The items of a list of pairs, as a [for] loop over it takes them. *)
Definition get_pairs (l : nat) : M (list (Z * Z)) :=
  λ h, (match h !! l with Some (OPairs ps) => Some ps | _ => None end, h).

Definition put_row (l : nat) (r : list Z) : M unit :=
  λ h, (Some (), <[l := ORow r]> h).

(** [a[i]] and [a[i] = v] on a row object. *)
Definition load (l : nat) (i : Z) : M Z :=
  r ← get_row l; lift (getitem r i).

Definition store (l : nat) (i v : Z) : M unit :=
  r ← get_row l; r' ← lift (setitem r i v); put_row l r'.

(** [a[i][j]] and [a[i][j] = v] on a list of rows: the row object that
    [a[i]] refers to is read, or changed in place. *)
Definition load2 (a : nat) (i j : Z) : M Z :=
  ls ← get_list a; l ← lift (getitem ls i); load l j.

Definition store2 (a : nat) (i j v : Z) : M unit :=
  ls ← get_list a; l ← lift (getitem ls i); store l j v.

Fixpoint foldM {A S} (f : S → A → M S) (l : list A) (s : S) : M S :=
  match l with
  | [] => ret s
  | x :: l' => s' ← f s x; foldM f l' s'
  end.

(** [[0]*n]: one new row. *)
Definition new_row (n : nat) : M nat := alloc (ORow (zeros n)).

(** [[[0]*n for _ in range(m)]]: [m] new rows and a new list of them. *)
Definition new_rows (m n : nat) : M nat :=
  ls ← foldM (λ ls _, l ← new_row n; ret (ls ++ [l])) (range 0 m) [];
  alloc (OList ls).

Definition total_of (grid : nat) : M Z :=
  rows ← get_list grid;
  foldM (λ acc l, r ← get_row l; ret (acc + Zsum r)) rows 0.

Definition houses_of (grid : nat) (m n : nat) : M (list (Z * Z)) :=
  foldM (λ acc i,
    foldM (λ acc j,
      v ← load2 grid i j;
      ret (if bool_decide (v = 1) then acc ++ [(i, j)] else acc))
    (range 0 n) acc)
  (range 0 m) [].

(** Lines 43-50; after the flag is cleared the remaining rows are skipped. *)
Definition has_only_01 (grid : nat) : M bool :=
  rows ← get_list grid;
  foldM (λ (ok : bool) l,
    if ok then
      r ← get_row l;
      ret (forallb (λ v, bool_decide (v = 0) || bool_decide (v = 1)) r)
    else ret false)
  rows true.

Definition count_houses (houses : list (Z * Z)) (m n : nat) : M (nat * nat) :=
  row_count ← new_row m;
  col_count ← new_row n;
  foldM (λ _ '(i, j),
    ri ← load row_count i;
    store row_count i (ri + 1);;
    cj ← load col_count j;
    store col_count j (cj + 1))
  houses ();;
  ret (row_count, col_count).

Definition weighted_sum (count : nat) (m : nat) : M Z :=
  foldM (λ acc i, c ← load count i; ret (acc + c * i)) (range 0 m) 0.

Definition axis_cost (count : nat) (m : nat) (total : Z) : M nat :=
  cost ← new_row m;
  s ← weighted_sum count m;
  store cost 0 s;;
  foldM (λ prefix r,
      c ← load count (r - 1);
      let prefix := prefix + c in
      prev ← load cost (r - 1);
      store cost r (prev + (2 * prefix - total));;
      ret prefix)
    (range 1 m) 0;;
  ret cost.

Definition min_over_empty (grid cost_row cost_col : nat) (m n : nat) : M ext :=
  foldM (λ min_cost i,
    foldM (λ min_cost j,
      v ← load2 grid i j;
      if bool_decide (v = 0) then
        cr ← load cost_row i;
        cc ← load cost_col j;
        ret (ext_min min_cost (cr + cc))
      else ret min_cost)
    (range 0 n) min_cost)
  (range 0 m) Inf.

Definition _fast_total_distance (grid : nat) (houses : list (Z * Z))
    (m n : nat) (total_houses : Z) : M Z :=
  '(row_count, col_count) ← count_houses houses m n;
  cost_row ← axis_cost row_count m total_houses;
  cost_col ← axis_cost col_count n total_houses;
  min_cost ← min_over_empty grid cost_row cost_col m n;
  ret (or_minus_one min_cost).

(** The arrays of the traversal engine are three list objects, and
    [directions] is a fourth one, a list of four pairs, which the [for] loop
    of line 135 reads and nothing writes. *)
Definition visit_neighbor (grid : nat) (m n : nat) (visit_id : Z)
    (dist reach visited_mark : nat) (x y d : Z)
    (q : list (Z * Z * Z)) (dir : Z * Z) : M (list (Z * Z * Z)) :=
  let '(dx, dy) := dir in
  let nx := x + dx in
  let ny := y + dy in
  if bool_decide (0 ≤ nx < Z.of_nat m) && bool_decide (0 ≤ ny < Z.of_nat n) then
    vm ← load2 visited_mark nx ny;
    if bool_decide (vm ≠ visit_id) then
      g ← load2 grid nx ny;
      if bool_decide (g ≠ 2) then
        store2 visited_mark nx ny visit_id;;
        (if bool_decide (g = 0) then
           dv ← load2 dist nx ny;
           store2 dist nx ny (dv + (d + 1));;
           rv ← load2 reach nx ny;
           store2 reach nx ny (rv + 1)
         else ret ());;
        ret (q ++ [(nx, ny, d + 1)])
      else ret q
    else ret q
  else ret q.

Fixpoint bfs_while (fuel : nat) (grid : nat) (m n : nat) (visit_id : Z)
    (dist reach visited_mark dirs : nat) (q : list (Z * Z * Z)) : M unit :=
  match q with
  | [] => ret ()
  | (x, y, d) :: q =>
      match fuel with
      | O => lift None
      | S fuel =>
          ds ← get_pairs dirs;
          q' ← foldM (visit_neighbor grid m n visit_id dist reach visited_mark x y d)
                 ds q;
          bfs_while fuel grid m n visit_id dist reach visited_mark dirs q'
      end
  end.

Definition bfs_from_house (grid : nat) (m n : nat)
    (dist reach visited_mark dirs : nat) (visit_id : Z) (h : Z * Z) : M Z :=
  let '(i, j) := h in
  store2 visited_mark i j visit_id;;
  bfs_while (S (m * n)) grid m n visit_id dist reach visited_mark dirs [(i, j, 0)];;
  ret (visit_id + 1).

Definition min_over_reached (grid dist reach : nat) (m n : nat)
    (total_houses : Z) : M ext :=
  foldM (λ min_dist i,
    foldM (λ min_dist j,
      v ← load2 grid i j;
      if bool_decide (v = 0) then
        r ← load2 reach i j;
        if bool_decide (r = total_houses) then
          dv ← load2 dist i j;
          ret (ext_min min_dist dv)
        else ret min_dist
      else ret min_dist)
    (range 0 n) min_dist)
  (range 0 m) Inf.

Definition _bfs_total_distance (grid : nat) (houses : list (Z * Z))
    (m n : nat) (total_houses : Z) : M Z :=
  dist ← new_rows m n;
  reach ← new_rows m n;
  dirs ← alloc (OPairs directions);
  visited_mark ← new_rows m n;
  foldM (bfs_from_house grid m n dist reach visited_mark dirs) houses 1;;
  min_dist ← min_over_reached grid dist reach m n total_houses;
  ret (or_minus_one min_dist).

Definition min_total_distance (grid : nat) : M Z :=
  rows ← get_list grid;
  match rows with
  | [] => ret (-1)
  | l0 :: _ =>
      row0 ← get_row l0;
      match row0 with
      | [] => ret (-1)
      | _ :: _ =>
          let m := length rows in
          let n := length row0 in
          total_houses ← total_of grid;
          if bool_decide (total_houses = 0) then ret (-1)
          else
            houses ← houses_of grid m n;
            only_01 ← has_only_01 grid;
            if only_01 then _fast_total_distance grid houses m n total_houses
            else _bfs_total_distance grid houses m n total_houses
      end
  end.

(** The store holds the row [r] at [l]. *)
Definition is_row (h : heap) (l : nat) (r : list Z) : Prop :=
  h !! l = Some (ORow r).

(** The store holds at [a] a list of the references [ls], whose rows are
    [rs]: the list of rows [rs] is the value of the object at [a]. *)
Definition is_rows (h : heap) (a : nat) (ls : list nat) (rs : list (list Z)) : Prop :=
  h !! a = Some (OList ls) ∧ Forall2 (is_row h) ls rs.

(** Every object below [base] is in [h'] what it is in [h]. *)
Definition hext (base : nat) (h h' : heap) : Prop :=
  (length h ≤ length h')%nat ∧ ∀ l, (l < base)%nat → h' !! l = h !! l.

(** Only the objects at [ws] may differ between [h] and [h']. *)
Definition hupd (ws : list nat) (h h' : heap) : Prop :=
  length h' = length h ∧ ∀ l, l ∉ ws → h' !! l = h !! l.

(** The references held by the three arrays of the traversal engine. *)
Record arrays := Arrays {
  a_dist : nat; a_reach : nat; a_vm : nat;
  r_dist : list nat; r_reach : list nat; r_vm : list nat
}.

(** The three arrays are in the store, their rows are distinct objects, and
    none of them is below [base]. *)
Definition bfs_rel (base : nat) (h : heap) (A : arrays)
    (d r v : list (list Z)) : Prop :=
  is_rows h (a_dist A) (r_dist A) d
  ∧ is_rows h (a_reach A) (r_reach A) r
  ∧ is_rows h (a_vm A) (r_vm A) v
  ∧ NoDup (r_dist A ++ r_reach A ++ r_vm A)
  ∧ Forall (λ l, (base ≤ l)%nat) (r_dist A ++ r_reach A ++ r_vm A).

(** The grid is in the store, below [base]. *)
Definition grid_at (base : nat) (h : heap) (grid : nat) (g : list (list Z)) : Prop :=
  ∃ gls, is_rows h grid gls g ∧ (grid < base)%nat ∧ Forall (λ l, (l < base)%nat) gls.

End Imp.

(** The computation [c] over the store does what the value-passing
    computation [p] does: it raises when [p] raises, it returns a value
    related by [R] to the value of [p], and it leaves every object below
    [base] as it was. *)
Definition sim {S T} (base : nat) (R : Imp.heap → S → T → Prop)
    (p : option S) (c : Imp.M T) (h : Imp.heap) : Prop :=
  ∃ res h', c h = (res, h') ∧ Imp.hext base h h'
    ∧ match p with
      | Some s => ∃ t, res = Some t ∧ R h' s t
      | None => res = None
      end.

(** The object at [dirs] is the list [directions]. *)
Definition dirs_at (h : Imp.heap) (dirs : nat) : Prop :=
  h !! dirs = Some (Imp.OPairs directions).

(** A state of the traversal and its image in the store: the queue is
    passed by value, the three arrays are objects above [base], the grid is
    below [base], and the list of directions is at [dirs]. *)
Definition state_rel (base : nat) (grid : nat) (g : list (list Z)) (A : Imp.arrays)
    (dirs : nat) (h : Imp.heap) (st : bfs_state) (q : list (Z * Z * Z)) : Prop :=
  q = queue st
  ∧ Imp.bfs_rel base h A (dist st) (reach st) (visited_mark st)
  ∧ Imp.grid_at base h grid g
  ∧ dirs_at h dirs.

(** * Vocabulary of the traversal on a grid with obstacles *)

(** A walk of [k] steps from [src]: every step goes in one of the four
    directions to a cell inside the grid whose marker is not 2.  The marker
    of [src] itself is not looked at, as in the engine. *)
Inductive walk (grid : list (list Z)) (m n : nat) (src : Z * Z) : nat → Z * Z → Prop :=
  | walk_start : walk grid m n src 0 src
  | walk_step k c dir :
      walk grid m n src k c → dir ∈ directions →
      inb m n (move c dir) → cell grid (move c dir) ≠ 2 →
      walk grid m n src (S k) (move c dir).

Definition reachable (grid : list (list Z)) (m n : nat) (src c : Z * Z) : Prop :=
  ∃ k, walk grid m n src k c.

(** [k] is the length of a shortest walk from [src] to [c]. *)
Definition sdist (grid : list (list Z)) (m n : nat) (src c : Z * Z) (k : nat) : Prop :=
  walk grid m n src k c ∧ ∀ j, walk grid m n src j c → (k ≤ j)%nat.

(** Every neighbour of [c] that a walk may step on has been visited. *)
Definition closed (grid : list (list Z)) (m n : nat) (visit_id : Z)
    (st : bfs_state) (c : Z * Z) : Prop :=
  ∀ dir, dir ∈ directions → inb m n (move c dir) → cell grid (move c dir) ≠ 2 →
    marked visit_id st (move c dir).

(** The state of a traversal from [src] over any rectangular grid, seen
    between two iterations of the [while] loop ([cur = None]) or inside the
    [for] loop over the directions of the popped cell ([cur = Some c]).
    The queue is [qa ++ qb]: entries whose shortest walk has [d] steps, then
    entries whose shortest walk has [d + 1] steps; every cell within [d]
    steps is visited, every visited cell can be walked to, and each visited
    empty cell has received the length of its shortest walk and one more
    reach.  [dist0] and [reach0] are the arrays before the traversal. *)
Definition frontier (grid : list (list Z)) (m n : nat) (visit_id : Z)
    (src : Z * Z) (dist0 reach0 : list (list Z))
    (cur : option (Z * Z)) (d : nat) (qa qb : list (Z * Z * Z))
    (st : bfs_state) : Prop :=
  wf_state m n st
  ∧ queue st = qa ++ qb
  ∧ Forall (λ e, e.2 = Z.of_nat d ∧ sdist grid m n src e.1 d) qa
  ∧ Forall (λ e, e.2 = Z.of_nat (S d) ∧ sdist grid m n src e.1 (S d)) qb
  ∧ marked visit_id st src
  ∧ (∀ c, inb m n c → marked visit_id st c →
       cur = Some c ∨ c ∈ (fst <$> queue st) ∨ closed grid m n visit_id st c)
  ∧ (∀ c, inb m n c → marked visit_id st c → reachable grid m n src c)
  ∧ (∀ c k, walk grid m n src k c → (k ≤ d)%nat → marked visit_id st c)
  ∧ (∀ c, inb m n c →
       (marked visit_id st c ∧ cell grid c = 0
        ∧ ∃ k, sdist grid m n src c k
               ∧ cell (dist st) c = cell dist0 c + Z.of_nat k
               ∧ cell (reach st) c = cell reach0 c + 1)
       ∨ (¬ (marked visit_id st c ∧ cell grid c = 0)
          ∧ cell (dist st) c = cell dist0 c
          ∧ cell (reach st) c = cell reach0 c)).

(** What the traversals from the houses [hs], in order, add to the reach
    counter ([r]) and to the distance sum ([d]) of the cell [c]: a house
    from which [c] can be walked to adds one and the length of its shortest
    walk, any other house adds nothing. *)
Inductive tally (grid : list (list Z)) (m n : nat) (c : Z * Z)
    : list (Z * Z) → Z → Z → Prop :=
  | tally_nil : tally grid m n c [] 0 0
  | tally_hit h hs k r d :
      sdist grid m n h c k → tally grid m n c hs r d →
      tally grid m n c (h :: hs) (r + 1) (d + Z.of_nat k)
  | tally_miss h hs r d :
      ¬ reachable grid m n h c → tally grid m n c hs r d →
      tally grid m n c (h :: hs) r d.

(** * The benchmark driver

    [run_once] of [benchmarks/benchmarks_run.py], from line 12 on: the grid
    drawn at line 11 is the argument [grid], and the returned triple holds
    the entries ['houses'], ['fast_res'] and ['bfs_res'] of the dictionary.
    The clock readings around the two calls do not enter the results and
    are left out.  [run_pair] of [benchmarks_plot.py] and the loop body of
    [benchmarks_full.py] make the same two calls on a grid drawn the same
    way. *)
Definition run_once (grid : list (list Z)) (N : nat) : option (Z * Z * Z) :=
  houses ← houses_of grid N N;
  let total_houses := Z.of_nat (length houses) in
  fast_res ← _fast_total_distance grid houses N N total_houses;
  bfs_res ← _bfs_total_distance grid houses N N total_houses;
  Some (total_houses, fast_res, bfs_res).

(** * Space

    The size of a list object is its number of items, the size of a store
    the sum of the sizes of its objects.  A computation [creates k s] when
    every run of it that returns leaves [k] more objects, and [s] more
    items in all, than it found. *)
Definition obj_size (o : Imp.obj) : nat :=
  match o with
  | Imp.ORow r => length r
  | Imp.OList ls => length ls
  | Imp.OPairs ps => length ps
  end.

Definition store_size (h : Imp.heap) : nat := sum_list_with obj_size h.

Definition creates {A} (k s : nat) (c : Imp.M A) : Prop :=
  ∀ h a h', c h = (Some a, h') →
    length h' = (length h + k)%nat ∧ store_size h' = (store_size h + s)%nat.

(** * Properties *)

(** ** Python lists *)

Lemma index_inrange (len : nat) (i : Z) :
  0 ≤ i < Z.of_nat len → index len i = Some (Z.to_nat i).
Proof. intros H. unfold index. rewrite bool_decide_eq_true_2; done. Qed.

Lemma index_lt (len : nat) (i : Z) (k : nat) :
  index len i = Some k → (k < len)%nat.
Proof.
  unfold index. repeat case_bool_decide; intros; simplify_eq; lia.
Qed.

Lemma getitem_inrange {A} (l : list A) (i : Z) :
  0 ≤ i < Z.of_nat (length l) → getitem l i = l !! Z.to_nat i.
Proof. intros H. unfold getitem. rewrite index_inrange; done. Qed.

Lemma getitem_nat {A} (l : list A) (k : nat) :
  (k < length l)%nat → getitem l (Z.of_nat k) = l !! k.
Proof. intros H. rewrite getitem_inrange by lia. by rewrite Nat2Z.id. Qed.

Lemma setitem_inrange {A} (l : list A) (i : Z) (v : A) :
  0 ≤ i < Z.of_nat (length l) → setitem l i v = Some (<[Z.to_nat i := v]> l).
Proof. intros H. unfold setitem. rewrite index_inrange; done. Qed.

Lemma setitem_length {A} (l l' : list A) (i : Z) (v : A) :
  setitem l i v = Some l' → length l' = length l.
Proof.
  unfold setitem. intros H. apply bind_Some in H as (k & _ & H).
  simplify_eq. apply length_insert.
Qed.

Lemma length_range (lo hi : nat) : length (range lo hi) = (hi - lo)%nat.
Proof. unfold range. by rewrite length_fmap, length_seq. Qed.

Lemma elem_of_range (lo hi : nat) (i : Z) :
  i ∈ range lo hi ↔ Z.of_nat lo ≤ i < Z.of_nat hi.
Proof.
  unfold range. rewrite list_elem_of_fmap. split.
  - intros (k & -> & Hk). apply elem_of_seq in Hk. lia.
  - intros H. exists (Z.to_nat i). split; [lia|]. apply elem_of_seq. lia.
Qed.

Lemma range_S (lo hi : nat) :
  (lo ≤ hi)%nat → range lo (S hi) = range lo hi ++ [Z.of_nat hi].
Proof.
  intros H. unfold range. replace (S hi - lo)%nat with (S (hi - lo)) by lia.
  rewrite seq_S, fmap_app. simpl. do 3 f_equal. lia.
Qed.

Lemma NoDup_range (lo hi : nat) : NoDup (range lo hi).
Proof.
  unfold range. apply NoDup_fmap_2; [|apply NoDup_seq].
  intros a b. lia.
Qed.

(** ** Loops *)

Lemma foldM_app {A S} (f : S → A → option S) (l1 l2 : list A) (s : S) :
  foldM f (l1 ++ l2) s = s' ← foldM f l1 s; foldM f l2 s'.
Proof.
  revert s. induction l1 as [|x l1 IH]; intros s; simpl; [done|].
  destruct (f s x) as [s1|]; simpl; [apply IH|done].
Qed.

(** A loop whose body never raises on the elements it meets is a left fold. *)
Lemma foldM_pure {A S} (f : S → A → option S) (g : S → A → S) (l : list A) (s : S) :
  (∀ s x, x ∈ l → f s x = Some (g s x)) →
  foldM f l s = Some (foldl g s l).
Proof.
  revert s. induction l as [|x l IH]; intros s H; simpl; [done|].
  rewrite H by left. simpl. apply IH. intros. apply H. by right.
Qed.

(** An invariant carried through a loop whose body keeps it. *)
Lemma foldM_inv {A S} (P : S → Prop) (f : S → A → option S) (l : list A) (s : S) :
  (∀ s x, x ∈ l → P s → ∃ s', f s x = Some s' ∧ P s') →
  P s → ∃ s', foldM f l s = Some s' ∧ P s'.
Proof.
  revert s. induction l as [|x l IH]; intros s H Hs; simpl; [eauto|].
  destruct (H s x) as (s1 & -> & Hs1); [by left|done|]. simpl.
  apply IH; [|done]. intros. apply H; [by right|done].
Qed.

(** The same for partial correctness. *)
Lemma foldM_inv_Some {A S} (P : S → Prop) (f : S → A → option S) (l : list A) (s s' : S) :
  (∀ s s' x, x ∈ l → P s → f s x = Some s' → P s') →
  P s → foldM f l s = Some s' → P s'.
Proof.
  revert s. induction l as [|x l IH]; intros s H Hs; simpl.
  - by intros [= <-].
  - intros Hf. apply bind_Some in Hf as (s1 & Hx & Hf).
    eapply IH; [|eapply H|done]; [|by left|done|done].
    intros. eapply H; [by right|done..].
Qed.

(** Two nested [range] loops whose body never raises fold over [cells]. *)
Lemma foldM_nested {S} (body : S → Z → Z → option S) (g : S → Z * Z → S)
    (m n : nat) (s : S) :
  (∀ s c, inb m n c → body s c.1 c.2 = Some (g s c)) →
  foldM (λ s i, foldM (λ s j, body s i j) (range 0 n) s) (range 0 m) s
  = Some (foldl g s (cells m n)).
Proof.
  intros H. unfold cells.
  assert (Hm : ∀ i, i ∈ range 0 m → 0 ≤ i < Z.of_nat m).
  { intros i Hi. apply elem_of_range in Hi. lia. }
  revert s Hm. generalize (range 0 m) as rows.
  induction rows as [|i rows IH]; intros s Hm; simpl; [done|].
  rewrite (foldM_pure _ (λ s j, g s (i, j))).
  - simpl. rewrite foldl_app. rewrite IH.
    + f_equal. f_equal. clear. generalize (range 0 n) as js. intros js. revert s.
      induction js as [|j js IHj]; intros s; simpl; [done|]. apply IHj.
    + intros. apply Hm. by right.
  - intros s' j Hj. apply elem_of_range in Hj.
    apply (H s' (i, j)). split; simpl; [apply Hm; by left|lia].
Qed.

(** ** Rectangular arrays *)

Lemma elem_of_cells (m n : nat) (c : Z * Z) : c ∈ cells m n ↔ inb m n c.
Proof.
  unfold cells, inb. rewrite list_elem_of_bind. split.
  - intros (i & Hc & Hi). apply list_elem_of_bind in Hc as (j & Hc & Hj).
    apply list_elem_of_singleton in Hc as ->. simpl.
    apply elem_of_range in Hi, Hj. lia.
  - intros [H1 H2]. exists c.1. split; [|apply elem_of_range; lia].
    apply list_elem_of_bind. exists c.2. split; [|apply elem_of_range; lia].
    destruct c. apply list_elem_of_singleton. done.
Qed.

Lemma shaped_lookup (m n : nat) (a : list (list Z)) (c : Z * Z) :
  shaped m n a → inb m n c →
  ∃ row, a !! Z.to_nat c.1 = Some row ∧ length row = n
         ∧ row !! Z.to_nat c.2 = Some (cell a c).
Proof.
  intros [Hm Hn] [H1 H2].
  destruct (lookup_lt_is_Some_2 a (Z.to_nat c.1)) as [row Hrow]; [lia|].
  assert (Hlen : length row = n).
  { rewrite Forall_forall in Hn. apply Hn. eapply list_elem_of_In, list_elem_of_lookup_2, Hrow. }
  destruct (lookup_lt_is_Some_2 row (Z.to_nat c.2)) as [v Hv]; [lia|].
  exists row. split_and!; [done..|].
  unfold cell, getitem2. rewrite getitem_inrange by lia. rewrite Hrow. simpl.
  rewrite getitem_inrange by lia. by rewrite Hv.
Qed.

Lemma getitem2_shaped (m n : nat) (a : list (list Z)) (c : Z * Z) :
  shaped m n a → inb m n c → getitem2 a c.1 c.2 = Some (cell a c).
Proof.
  intros Ha Hc. destruct (shaped_lookup m n a c Ha Hc) as (row & Hrow & Hlen & Hv).
  destruct Ha as [Hm _], Hc as [H1 H2].
  unfold getitem2. rewrite getitem_inrange by lia. rewrite Hrow. simpl.
  rewrite getitem_inrange by lia. done.
Qed.

Lemma setitem2_shaped (m n : nat) (a : list (list Z)) (c : Z * Z) (v : Z) :
  shaped m n a → inb m n c →
  ∃ a', setitem2 a c.1 c.2 v = Some a' ∧ shaped m n a'
        ∧ cell a' c = v
        ∧ ∀ c', inb m n c' → c' ≠ c → cell a' c' = cell a c'.
Proof.
  intros Ha Hc. destruct (shaped_lookup m n a c Ha Hc) as (row & Hrow & Hlen & Hv).
  pose proof Ha as [Hm Hn]. pose proof Hc as [H1 H2].
  set (row' := <[Z.to_nat c.2 := v]> row).
  set (a' := <[Z.to_nat c.1 := row']> a).
  assert (Ha' : shaped m n a').
  { split; [unfold a'; by rewrite length_insert|].
    unfold a'. apply Forall_insert; [done|]. unfold row'. by rewrite length_insert. }
  exists a'. split_and!; [|done|..].
  - unfold setitem2. rewrite getitem_inrange by lia. rewrite Hrow. simpl.
    rewrite setitem_inrange by lia. simpl. rewrite setitem_inrange by lia. done.
  - unfold cell. unfold getitem2. rewrite getitem_inrange by (destruct Ha'; lia).
    unfold a'. rewrite list_lookup_insert_eq by lia. simpl.
    rewrite getitem_inrange by (unfold row'; rewrite length_insert; lia).
    unfold row'. rewrite list_lookup_insert_eq by lia. done.
  - intros c' Hc' Hne.
    destruct (shaped_lookup m n a c' Ha Hc') as (r1 & Hr1 & Hl1 & Hv1).
    destruct (shaped_lookup m n a' c' Ha' Hc') as (r2 & Hr2 & Hl2 & Hv2).
    destruct (decide (c'.1 = c.1)) as [He|He].
    + assert (c'.2 ≠ c.2) by (destruct c, c'; simpl in *; congruence).
      unfold a' in Hr2. rewrite He in Hr2, Hr1.
      rewrite list_lookup_insert_eq in Hr2 by lia.
      injection Hr2 as <-. rewrite Hrow in Hr1. injection Hr1 as <-.
      unfold row' in Hv2. destruct Hc'.
      rewrite list_lookup_insert_ne in Hv2 by lia. congruence.
    + unfold a' in Hr2. destruct Hc'.
      rewrite list_lookup_insert_ne in Hr2 by lia. congruence.
Qed.

Lemma zeros2_shaped (m n : nat) : shaped m n (zeros2 m n).
Proof.
  split; [apply length_replicate|].
  apply Forall_replicate. apply length_replicate.
Qed.

Lemma cell_zeros2 (m n : nat) (c : Z * Z) : cell (zeros2 m n) c = 0.
Proof.
  unfold cell, getitem2, getitem, zeros2, zeros.
  destruct (index _ c.1) as [k|] eqn:Hk; simpl; [|done].
  apply index_lt in Hk. rewrite length_replicate in Hk.
  rewrite lookup_replicate_2 by done. simpl.
  destruct (index _ c.2) as [k'|] eqn:Hk'; simpl; [|done].
  apply index_lt in Hk'. rewrite length_replicate in Hk'.
  by rewrite lookup_replicate_2.
Qed.

Lemma lookup_range (lo hi j : nat) :
  (j < hi - lo)%nat → range lo hi !! j = Some (Z.of_nat (lo + j)).
Proof.
  intros H. unfold range. rewrite list_lookup_fmap.
  rewrite (lookup_seq_lt _ _ _ H). done.
Qed.

Lemma bind_singleton_fmap {A B} (f : A → B) (l : list A) :
  (l ≫= λ x, [f x]) = f <$> l.
Proof. induction l as [|x l IH]; [done|]. simpl. f_equal. Qed.

(** The concatenated rows of a rectangular grid are its cells in loop order. *)
Lemma concat_shaped (m n : nat) (a : list (list Z)) :
  shaped m n a → concat a = cell a <$> cells m n.
Proof.
  intros Ha. unfold cells.
  assert (H : ∀ k, (k ≤ m)%nat →
    concat (take k a) = cell a <$> (i ← range 0 k; j ← range 0 n; [(i, j)])).
  { induction k as [|k IH]; intros Hk; [done|].
    pose proof Ha as [Hm Hn].
    destruct (lookup_lt_is_Some_2 a k) as [row Hrow]; [lia|].
    rewrite (take_S_r _ _ _ Hrow), concat_app, IH by lia.
    rewrite range_S by lia. rewrite bind_app, fmap_app. f_equal.
    simpl. rewrite !app_nil_r.
    rewrite (bind_singleton_fmap (λ j, (Z.of_nat k, j))).
    assert (Hlen : length row = n).
    { rewrite Forall_forall in Hn. apply Hn.
      eapply list_elem_of_In, list_elem_of_lookup_2, Hrow. }
    apply list_eq. intros j. rewrite !list_lookup_fmap.
    destruct (decide (j < n)%nat) as [Hj|Hj].
    - rewrite lookup_range by lia. simpl.
      destruct (shaped_lookup m n a (Z.of_nat k, Z.of_nat j) Ha) as (r & Hr & _ & Hv).
      { split; simpl; lia. }
      simpl in Hr, Hv. rewrite Nat2Z.id in Hr, Hv. congruence.
    - rewrite (lookup_ge_None_2 row) by lia.
      rewrite (lookup_ge_None_2 (range 0 n)); [done|]. rewrite length_range. lia. }
  rewrite <- (H m) by lia. destruct Ha as [Hm _]. by rewrite <- Hm, firstn_all.
Qed.

(** ** The preamble: houses and their number *)

Lemma houses_of_spec (m n : nat) (grid : list (list Z)) :
  shaped m n grid → houses_of grid m n = Some (house_cells grid m n).
Proof.
  intros Hg. unfold houses_of, house_cells.
  rewrite (foldM_nested
    (λ acc i j, v ← getitem2 grid i j;
                Some (if bool_decide (v = 1) then acc ++ [(i, j)] else acc))
    (λ acc c, if bool_decide (cell grid c = 1) then acc ++ [c] else acc)).
  - f_equal.
    assert (H : ∀ l acc,
      foldl (λ acc c, if bool_decide (cell grid c = 1) then acc ++ [c] else acc) acc l
      = acc ++ filter (λ c, cell grid c = 1) l).
    { induction l as [|c l IH]; intros acc; simpl; [by rewrite app_nil_r|].
      rewrite IH. rewrite filter_cons. case_bool_decide.
      + rewrite decide_True by done. by rewrite <- app_assoc.
      + rewrite decide_False by done. done. }
    apply H.
  - intros acc c Hc. rewrite (getitem2_shaped m n) by done. simpl.
    by destruct c.
Qed.

Lemma house_cells_inb (m n : nat) (grid : list (list Z)) :
  Forall (inb m n) (house_cells grid m n).
Proof.
  apply Forall_forall. intros c Hc. apply list_elem_of_In in Hc.
  apply list_elem_of_filter in Hc as [_ Hc]. by apply elem_of_cells.
Qed.

Lemma elem_of_house_cells (m n : nat) (grid : list (list Z)) (c : Z * Z) :
  c ∈ house_cells grid m n ↔ inb m n c ∧ cell grid c = 1.
Proof.
  unfold house_cells. rewrite list_elem_of_filter, elem_of_cells. tauto.
Qed.

Lemma has_only_01_spec (m n : nat) (grid : list (list Z)) :
  shaped m n grid →
  has_only_01 grid = true ↔ ∀ c, inb m n c → cell grid c = 0 ∨ cell grid c = 1.
Proof.
  intros Hg.
  assert (H : has_only_01 grid = true ↔ Forall (λ v, v = 0 ∨ v = 1) (concat grid)).
  { unfold has_only_01. rewrite forallb_forall, Forall_concat, Forall_forall.
    apply forall_proper. intros row. apply forall_proper. intros _.
    rewrite forallb_forall, Forall_forall.
    apply forall_proper. intros v. apply forall_proper. intros _.
    rewrite orb_true_iff, !bool_decide_eq_true. done. }
  rewrite H, (concat_shaped m n) by done. rewrite Forall_fmap, Forall_forall.
  apply forall_proper. intros c. rewrite <- list_elem_of_In, elem_of_cells. done.
Qed.

Lemma Zsum_cons (x : Z) (l : list Z) : Zsum (x :: l) = x + Zsum l.
Proof. done. Qed.

Lemma Zsum_app (l1 l2 : list Z) : Zsum (l1 ++ l2) = Zsum l1 + Zsum l2.
Proof.
  induction l1 as [|x l1 IH]; [done|].
  rewrite <- app_comm_cons, !Zsum_cons, IH. lia.
Qed.

Lemma Zsum_indicator {A} (f : A → Z) (l : list A) :
  (∀ x, x ∈ l → f x = 0 ∨ f x = 1) →
  Zsum (f <$> l) = Z.of_nat (length (filter (λ x, f x = 1) l)).
Proof.
  induction l as [|x l IH]; intros H; [done|].
  rewrite filter_cons, fmap_cons, Zsum_cons. rewrite IH by (intros; apply H; by right).
  destruct (H x) as [Hx|Hx]; [by left|..]; rewrite Hx.
  - rewrite decide_False by done. done.
  - rewrite decide_True by done. simpl length. lia.
Qed.

(** On a grid of 0s and 1s the sum of the markers is the number of houses. *)
Lemma total_of_01 (m n : nat) (grid : list (list Z)) :
  shaped m n grid → has_only_01 grid = true →
  total_of grid = Z.of_nat (length (house_cells grid m n)).
Proof.
  intros Hg H01. unfold total_of, house_cells.
  rewrite (concat_shaped m n) by done. apply Zsum_indicator.
  intros c Hc. apply elem_of_cells in Hc.
  by apply (has_only_01_spec m n).
Qed.

(** ** The separable engine: one axis *)

Lemma Zsum_pointwise {A} (f g h : A → Z) (a b : Z) (l : list A) :
  (∀ x, x ∈ l → f x = g x + a * h x + b) →
  Zsum (f <$> l) = Zsum (g <$> l) + a * Zsum (h <$> l) + b * Z.of_nat (length l).
Proof.
  induction l as [|x l IH]; intros H; [simpl; lia|].
  rewrite !fmap_cons, !Zsum_cons, IH by (intros; apply H; by right).
  rewrite (H x) by left. simpl length. lia.
Qed.

Lemma occ_snoc (k p : Z) (ps : list Z) :
  occ k (ps ++ [p]) = occ k ps + (if bool_decide (p = k) then 1 else 0).
Proof. unfold occ. rewrite fmap_app, Zsum_app. simpl. lia. Qed.

Lemma cnt_below_succ (k : Z) (ps : list Z) :
  cnt_below (k + 1) ps = cnt_below k ps + occ k ps.
Proof.
  unfold cnt_below, occ.
  rewrite (Zsum_pointwise _ (λ p, if bool_decide (p < k) then 1 else 0)
             (λ p, if bool_decide (p = k) then 1 else 0) 1 0); [lia|].
  intros p _. repeat case_bool_decide; lia.
Qed.

Lemma sum_below_succ (k : Z) (ps : list Z) :
  sum_below (k + 1) ps = sum_below k ps + occ k ps * k.
Proof.
  unfold sum_below, occ.
  rewrite (Zsum_pointwise _ (λ p, if bool_decide (p < k) then p else 0)
             (λ p, if bool_decide (p = k) then 1 else 0) k 0); [lia|].
  intros p _. repeat case_bool_decide; lia.
Qed.

Lemma cnt_below_0 (ps : list Z) : Forall (λ p, 0 ≤ p) ps → cnt_below 0 ps = 0.
Proof.
  intros H. unfold cnt_below. induction H as [|p ps Hp _ IH]; [done|].
  rewrite fmap_cons, Zsum_cons, IH. case_bool_decide; lia.
Qed.

Lemma sum_below_0 (ps : list Z) : Forall (λ p, 0 ≤ p) ps → sum_below 0 ps = 0.
Proof.
  intros H. unfold sum_below. induction H as [|p ps Hp _ IH]; [done|].
  rewrite fmap_cons, Zsum_cons, IH. case_bool_decide; lia.
Qed.

(** With every house inside [0, m), the weighted sum of line 63 is the cost
    at index 0. *)
Lemma sum_below_all (m : Z) (ps : list Z) :
  Forall (λ p, 0 ≤ p < m) ps → sum_below m ps = axis_dist ps 0.
Proof.
  intros H. unfold sum_below, axis_dist. induction H as [|p ps Hp _ IH]; [done|].
  rewrite !fmap_cons, !Zsum_cons, IH. case_bool_decide; lia.
Qed.

(** Moving the target by one unit changes the cost by the houses on one side
    minus the houses on the other. *)
Lemma axis_dist_succ (k : Z) (ps : list Z) :
  axis_dist ps (k + 1)
  = axis_dist ps k + (2 * cnt_below (k + 1) ps - Z.of_nat (length ps)).
Proof.
  unfold axis_dist, cnt_below.
  rewrite (Zsum_pointwise _ (λ p, Z.abs (p - k))
             (λ p, if bool_decide (p < k + 1) then 1 else 0) 2 (-1)); [lia|].
  intros p _. case_bool_decide; lia.
Qed.

Lemma weighted_sum_spec (ps count : list Z) (m k : nat) :
  (k ≤ m)%nat → length count = m →
  (∀ i, (i < m)%nat → count !! i = Some (occ (Z.of_nat i) ps)) →
  Forall (λ p, 0 ≤ p) ps →
  weighted_sum count k = Some (sum_below (Z.of_nat k) ps).
Proof.
  intros Hk Hlen Hc Hps. unfold weighted_sum.
  induction k as [|k IH].
  - simpl. by rewrite sum_below_0.
  - rewrite range_S by lia. rewrite foldM_app, IH by lia. simpl.
    rewrite getitem_nat by lia. rewrite Hc by lia. simpl.
    f_equal. rewrite Nat2Z.inj_succ, <- Z.add_1_r. by rewrite sum_below_succ.
Qed.

Lemma axis_cost_spec (ps count : list Z) (m : nat) :
  (0 < m)%nat → length count = m →
  (∀ i, (i < m)%nat → count !! i = Some (occ (Z.of_nat i) ps)) →
  Forall (λ p, 0 ≤ p < Z.of_nat m) ps →
  ∃ cost, axis_cost count m (Z.of_nat (length ps)) = Some cost ∧ length cost = m
          ∧ ∀ i, (i < m)%nat → cost !! i = Some (axis_dist ps (Z.of_nat i)).
Proof.
  intros Hm Hlen Hc Hps. unfold axis_cost.
  assert (Hps0 : Forall (λ p, 0 ≤ p) ps).
  { eapply Forall_impl; [|exact Hps]. intros p Hp. simpl in Hp. lia. }
  rewrite (weighted_sum_spec ps count m m) by done. simpl.
  rewrite setitem_inrange by (unfold zeros; rewrite length_replicate; lia). simpl.
  rewrite sum_below_all by done.
  set (cost0 := <[Z.to_nat 0 := axis_dist ps 0]> (zeros m)).
  (* the loop, cut after [range(1, k+1)] *)
  assert (Hloop : ∀ k, (k < m)%nat →
    ∃ cost, foldM (λ '(prefix, cost) r,
        c ← getitem count (r - 1);
        let prefix := prefix + c in
        prev ← getitem cost (r - 1);
        cost ← setitem cost r (prev + (2 * prefix - Z.of_nat (length ps)));
        Some (prefix, cost)) (range 1 (S k)) (0, cost0)
      = Some (cnt_below (Z.of_nat k) ps, cost) ∧ length cost = m
      ∧ ∀ i, (i ≤ k)%nat → cost !! i = Some (axis_dist ps (Z.of_nat i))).
  { induction k as [|k IH]; intros Hk.
    - exists cost0. simpl. rewrite cnt_below_0 by done. split_and!; [done|..].
      + unfold cost0, zeros. by rewrite length_insert, length_replicate.
      + intros i Hi. replace i with 0%nat by lia. unfold cost0.
        rewrite list_lookup_insert_eq; [done|]. unfold zeros.
        rewrite length_replicate. simpl. lia.
    - destruct IH as (cost & Hrun & Hlc & Hcost); [lia|].
      rewrite range_S by lia. rewrite foldM_app, Hrun. simpl.
      replace (Z.of_nat (S k) - 1) with (Z.of_nat k) by lia.
      rewrite (getitem_nat count) by lia. rewrite Hc by lia. simpl.
      rewrite (getitem_nat cost) by lia. rewrite Hcost by lia. simpl.
      rewrite setitem_inrange by lia. simpl.
      eexists. split_and!.
      + f_equal. f_equal. rewrite Nat2Z.inj_succ, <- Z.add_1_r.
        by rewrite cnt_below_succ.
      + by rewrite length_insert.
      + intros i Hi. rewrite Nat2Z.id.
        destruct (decide (i = S k)) as [->|Hne].
        * rewrite list_lookup_insert_eq by lia. f_equal.
          rewrite Nat2Z.inj_succ, <- Z.add_1_r, axis_dist_succ, cnt_below_succ.
          lia.
        * rewrite list_lookup_insert_ne by lia. apply Hcost. lia. }
  destruct (Hloop (m - 1)%nat) as (cost & Hrun & Hlc & Hcost); [lia|].
  replace (S (m - 1)) with m in Hrun by lia. cbv zeta in Hrun.
  rewrite Hrun. simpl. exists cost. split_and!; [done..|].
  intros i Hi. apply Hcost. lia.
Qed.

Lemma count_houses_spec (hs : list (Z * Z)) (m n : nat) :
  Forall (inb m n) hs →
  ∃ rc cc, count_houses hs m n = Some (rc, cc) ∧ length rc = m ∧ length cc = n
    ∧ (∀ k, (k < m)%nat → rc !! k = Some (occ (Z.of_nat k) (fst <$> hs)))
    ∧ (∀ k, (k < n)%nat → cc !! k = Some (occ (Z.of_nat k) (snd <$> hs))).
Proof.
  unfold count_houses. induction hs as [|[i j] hs IH] using rev_ind; intros Hin.
  - exists (zeros m), (zeros n). unfold zeros. rewrite !length_replicate.
    split_and!; [done..| |]; intros k Hk; by rewrite lookup_replicate_2.
  - apply Forall_app in Hin as [Hin Hh]. apply Forall_singleton in Hh as [Hi Hj].
    simpl in Hi, Hj.
    destruct (IH Hin) as (rc & cc & Hrun & Hlr & Hlc & Hrc & Hcc).
    rewrite foldM_app, Hrun. simpl.
    rewrite (getitem_inrange rc) by lia. rewrite Hrc by lia. simpl.
    rewrite (setitem_inrange rc) by lia. simpl.
    rewrite (getitem_inrange cc) by lia. rewrite Hcc by lia. simpl.
    rewrite (setitem_inrange cc) by lia. simpl.
    rewrite !Z2Nat.id by lia.
    eexists _, _. split_and!; [done|by rewrite length_insert..| |].
    + intros k Hk. rewrite fmap_app. change (fst <$> [(i, j)]) with [i].
      rewrite occ_snoc.
      destruct (decide (k = Z.to_nat i)) as [->|Hne].
      * rewrite list_lookup_insert_eq by lia. rewrite !Z2Nat.id by lia.
        by rewrite bool_decide_eq_true_2.
      * rewrite list_lookup_insert_ne by lia. rewrite bool_decide_eq_false_2 by lia.
        rewrite Hrc by lia. f_equal. lia.
    + intros k Hk. rewrite fmap_app. change (snd <$> [(i, j)]) with [j].
      rewrite occ_snoc.
      destruct (decide (k = Z.to_nat j)) as [->|Hne].
      * rewrite list_lookup_insert_eq by lia. rewrite !Z2Nat.id by lia.
        by rewrite bool_decide_eq_true_2.
      * rewrite list_lookup_insert_ne by lia. rewrite bool_decide_eq_false_2 by lia.
        rewrite Hcc by lia. f_equal. lia.
Qed.

(** ** The separable engine: both axes *)

Lemma total_manhattan_split (hs : list (Z * Z)) (c : Z * Z) :
  total_manhattan hs c = axis_dist (fst <$> hs) c.1 + axis_dist (snd <$> hs) c.2.
Proof.
  unfold total_manhattan, axis_dist, manhattan.
  induction hs as [|h hs IH]; [done|].
  rewrite !fmap_cons, !Zsum_cons, IH. lia.
Qed.

Lemma Forall_inb_fst (m n : nat) (hs : list (Z * Z)) :
  Forall (inb m n) hs → Forall (λ p, 0 ≤ p < Z.of_nat m) (fst <$> hs).
Proof.
  intros H. apply Forall_fmap. eapply Forall_impl; [|exact H].
  intros h [H1 _]. exact H1.
Qed.

Lemma Forall_inb_snd (m n : nat) (hs : list (Z * Z)) :
  Forall (inb m n) hs → Forall (λ p, 0 ≤ p < Z.of_nat n) (snd <$> hs).
Proof.
  intros H. apply Forall_fmap. eapply Forall_impl; [|exact H].
  intros h [_ H2]. exact H2.
Qed.

Lemma cost_arrays_spec (hs : list (Z * Z)) (m n : nat) :
  (0 < m)%nat → (0 < n)%nat → Forall (inb m n) hs →
  ∃ cost_row cost_col,
    cost_arrays hs m n (Z.of_nat (length hs)) = Some (cost_row, cost_col)
    ∧ ∀ c, inb m n c →
        ∃ a b, getitem cost_row c.1 = Some a ∧ getitem cost_col c.2 = Some b
               ∧ a + b = total_manhattan hs c.
Proof.
  intros Hm Hn Hin. unfold cost_arrays.
  destruct (count_houses_spec hs m n Hin) as (rc & cc & -> & Hlr & Hlc & Hrc & Hcc).
  simpl.
  destruct (axis_cost_spec (fst <$> hs) rc m Hm Hlr Hrc (Forall_inb_fst m n hs Hin))
    as (cr & Hcr & Hlcr & Hcrv).
  destruct (axis_cost_spec (snd <$> hs) cc n Hn Hlc Hcc (Forall_inb_snd m n hs Hin))
    as (cl & Hcl & Hlcl & Hclv).
  rewrite length_fmap in Hcr, Hcl. rewrite Hcr. simpl. rewrite Hcl. simpl.
  exists cr, cl. split; [done|]. intros c [H1 H2].
  exists (axis_dist (fst <$> hs) c.1), (axis_dist (snd <$> hs) c.2).
  rewrite !getitem_inrange by lia. rewrite Hcrv, Hclv by lia.
  rewrite !Z2Nat.id by lia. split_and!; [done..|].
  by rewrite total_manhattan_split.
Qed.

(** ** Running minima *)

Lemma min_of_snoc (l : list Z) (x : Z) : min_of (l ++ [x]) = ext_min (min_of l) x.
Proof. unfold min_of. by rewrite foldl_app. Qed.

Lemma min_of_nil_iff (l : list Z) : min_of l = Inf ↔ l = [].
Proof.
  split; [|by intros ->].
  induction l as [|x l _] using rev_ind; [done|].
  rewrite min_of_snoc. by destruct (min_of l).
Qed.

(** A finite running minimum is attained and is a lower bound. *)
Lemma min_of_Fin (l : list Z) (v : Z) :
  min_of l = Fin v ↔ v ∈ l ∧ ∀ x, x ∈ l → v ≤ x.
Proof.
  revert v. induction l as [|x l IH] using rev_ind; intros v.
  - split; [done|]. intros [H _]. by apply elem_of_nil in H.
  - rewrite min_of_snoc. destruct (min_of l) as [|w] eqn:Hw.
    + apply min_of_nil_iff in Hw as ->. simpl. split.
      * intros [= ->]. split; [by left|]. intros y Hy.
        apply list_elem_of_singleton in Hy. lia.
      * intros [Hv _]. apply list_elem_of_singleton in Hv. by subst.
    + pose proof (proj1 (IH w) eq_refl) as [Hwl Hwmin]. simpl. split.
      * intros [= <-]. split.
        -- apply elem_of_app. destruct (Z.min_spec w x) as [[_ ->]|[_ ->]];
             [by left|right; by left].
        -- intros y Hy. apply elem_of_app in Hy as [Hy|Hy].
           ++ specialize (Hwmin y Hy). lia.
           ++ apply list_elem_of_singleton in Hy. lia.
      * intros [Hv Hmin]. f_equal.
        assert (v ≤ w) by (apply Hmin, elem_of_app; by left).
        assert (v ≤ x) by (apply Hmin, elem_of_app; right; by left).
        apply elem_of_app in Hv as [Hv|Hv].
        -- specialize (Hwmin v Hv). lia.
        -- apply list_elem_of_singleton in Hv. lia.
Qed.

(** A guarded running minimum over a list is the minimum of the candidates
    that pass the guard. *)
Lemma foldl_guarded_min {A} (P : A → Prop) `{!∀ x, Decision (P x)}
    (f : A → Z) (l : list A) :
  foldl (λ acc x, if bool_decide (P x) then ext_min acc (f x) else acc) Inf l
  = min_of (f <$> filter P l).
Proof.
  induction l as [|x l IH] using rev_ind; [done|].
  rewrite foldl_app, list.filter_app, fmap_app. simpl. rewrite IH.
  rewrite filter_cons, filter_nil. case_bool_decide.
  - rewrite decide_True by done. simpl. by rewrite min_of_snoc.
  - rewrite decide_False by done. simpl. by rewrite app_nil_r.
Qed.

Lemma min_over_empty_spec (grid : list (list Z)) (cost_row cost_col : list Z)
    (m n : nat) (cost : Z * Z → Z) :
  shaped m n grid →
  (∀ c, inb m n c →
     ∃ a b, getitem cost_row c.1 = Some a ∧ getitem cost_col c.2 = Some b
            ∧ a + b = cost c) →
  min_over_empty grid cost_row cost_col m n
  = Some (min_of (cost <$> filter (λ c, cell grid c = 0) (cells m n))).
Proof.
  intros Hg Hcost. unfold min_over_empty.
  rewrite (foldM_nested
    (λ min_cost i j, v ← getitem2 grid i j;
       if bool_decide (v = 0) then
         cr ← getitem cost_row i; cc ← getitem cost_col j;
         Some (ext_min min_cost (cr + cc))
       else Some min_cost)
    (λ acc c, if bool_decide (cell grid c = 0) then ext_min acc (cost c) else acc)).
  - by rewrite foldl_guarded_min.
  - intros acc c Hc. rewrite (getitem2_shaped m n) by done. simpl.
    case_bool_decide; [|done].
    destruct (Hcost c Hc) as (a & b & -> & -> & <-). done.
Qed.

Lemma min_over_reached_spec (grid dist1 reach1 : list (list Z)) (m n : nat)
    (total_houses : Z) :
  shaped m n grid → shaped m n dist1 → shaped m n reach1 →
  min_over_reached grid dist1 reach1 m n total_houses
  = Some (min_of (cell dist1 <$>
      filter (λ c, cell grid c = 0 ∧ cell reach1 c = total_houses) (cells m n))).
Proof.
  intros Hg Hd Hr. unfold min_over_reached.
  rewrite (foldM_nested
    (λ min_dist i j, v ← getitem2 grid i j;
       if bool_decide (v = 0) then
         r ← getitem2 reach1 i j;
         if bool_decide (r = total_houses) then
           dv ← getitem2 dist1 i j; Some (ext_min min_dist dv)
         else Some min_dist
       else Some min_dist)
    (λ acc c, if bool_decide (cell grid c = 0 ∧ cell reach1 c = total_houses)
              then ext_min acc (cell dist1 c) else acc)).
  - by rewrite foldl_guarded_min.
  - intros acc c Hc. rewrite (getitem2_shaped m n grid) by done. simpl.
    case_bool_decide as H0.
    + rewrite (getitem2_shaped m n reach1) by done. simpl.
      case_bool_decide as H1.
      * rewrite (getitem2_shaped m n dist1) by done. simpl.
        by rewrite bool_decide_eq_true_2.
      * rewrite bool_decide_eq_false_2; [done|]. tauto.
    + rewrite bool_decide_eq_false_2; [done|]. tauto.
Qed.

(** ** The traversal engine: one step *)

Lemma getitem2_at (m n : nat) (a : list (list Z)) (x y : Z) :
  shaped m n a → inb m n (x, y) → getitem2 a x y = Some (cell a (x, y)).
Proof. intros Ha Hc. apply (getitem2_shaped m n a (x, y) Ha Hc). Qed.

Lemma setitem2_at (m n : nat) (a : list (list Z)) (x y v : Z) :
  shaped m n a → inb m n (x, y) →
  ∃ a', setitem2 a x y v = Some a' ∧ shaped m n a'
        ∧ cell a' (x, y) = v
        ∧ ∀ c', inb m n c' → c' ≠ (x, y) → cell a' c' = cell a c'.
Proof. intros Ha Hc. apply (setitem2_shaped m n a (x, y) v Ha Hc). Qed.

Section Step.
Variables (grid : list (list Z)) (m n : nat) (visit_id : Z).
Hypothesis Hgrid : shaped m n grid.

(** Line 138 and the block it guards: the neighbour is entered exactly
    when it is inside the grid, not yet visited in this traversal and its
    marker is not 2; otherwise the state is left as it is. *)
Lemma visit_neighbor_cases (x y d : Z) (st : bfs_state) (dir : Z * Z) :
  wf_state m n st →
  (enterable grid m n visit_id st (move (x, y) dir)
   ∧ ∃ st', visit_neighbor grid m n visit_id x y d st dir = Some st'
            ∧ entered grid m n visit_id (move (x, y) dir) d st st')
  ∨ (¬ enterable grid m n visit_id st (move (x, y) dir)
     ∧ visit_neighbor grid m n visit_id x y d st dir = Some st).
Proof.
  intros (Hd & Hr & Hv & Hq). destruct dir as [dx dy].
  unfold visit_neighbor, enterable, move. simpl.
  set (nx := x + dx). set (ny := y + dy).
  destruct (decide (inb m n (nx, ny))) as [Hc|Hc].
  2:{ right. split; [tauto|].
      rewrite (proj2 (andb_false_iff _ _)); [done|].
      unfold inb in Hc. simpl in Hc.
      destruct (decide (0 ≤ nx < Z.of_nat m)).
      - right. apply bool_decide_eq_false_2. tauto.
      - left. by apply bool_decide_eq_false_2. }
  pose proof Hc as [Hc1 Hc2]. simpl in Hc1, Hc2.
  rewrite !bool_decide_eq_true_2 by done. simpl.
  rewrite (getitem2_at m n (visited_mark st)) by done. simpl.
  case_bool_decide as Hvm; [|right; split; [tauto|done]].
  rewrite (getitem2_at m n grid) by done. simpl.
  case_bool_decide as Hg2; [|right; split; [tauto|done]].
  left. split; [done|].
  destruct (setitem2_at m n (visited_mark st) nx ny visit_id Hv Hc)
    as (vm' & -> & Hv' & Hvc & Hvo). simpl.
  assert (Hq' : Forall (λ e, inb m n e.1) (queue st ++ [(nx, ny, d + 1)])).
  { apply Forall_app. split; [done|]. by apply Forall_singleton. }
  case_bool_decide as Hg0.
  - rewrite (getitem2_at m n (dist st)) by done. simpl.
    destruct (setitem2_at m n (dist st) nx ny
                (cell (dist st) (nx, ny) + (d + 1)) Hd Hc)
      as (dist' & -> & Hd' & Hdc & Hdo). simpl.
    rewrite (getitem2_at m n (reach st)) by done. simpl.
    destruct (setitem2_at m n (reach st) nx ny
                (cell (reach st) (nx, ny) + 1) Hr Hc)
      as (reach' & -> & Hr' & Hrc & Hro). simpl.
    eexists. split; [done|]. unfold entered, wf_state. simpl.
    split_and!; [done..| |].
    + intros c' Hc'. case_bool_decide as He.
      * destruct He as [-> _]. done.
      * rewrite Hdo; [lia|done|]. intros ->. tauto.
    + intros c' Hc'. case_bool_decide as He.
      * destruct He as [-> _]. done.
      * rewrite Hro; [lia|done|]. intros ->. tauto.
  - simpl. eexists. split; [done|]. unfold entered, wf_state. simpl.
    split_and!; [done..| |].
    + intros c' Hc'. rewrite bool_decide_eq_false_2; [lia|tauto].
    + intros c' Hc'. rewrite bool_decide_eq_false_2; [lia|tauto].
Qed.

End Step.

(** ** The traversal engine: the [while] loop ends *)

Lemma NoDup_cells (m n : nat) : NoDup (cells m n).
Proof.
  unfold cells. apply NoDup_bind; [| |apply NoDup_range].
  - intros i1 i2 c _ _ H1 H2.
    apply list_elem_of_bind in H1 as (j1 & H1 & _).
    apply list_elem_of_bind in H2 as (j2 & H2 & _).
    apply list_elem_of_singleton in H1, H2. congruence.
  - intros i _. rewrite (bind_singleton_fmap (λ j, (i, j))).
    apply NoDup_fmap_2; [|apply NoDup_range]. intros j1 j2. congruence.
Qed.

Lemma length_cells (m n : nat) : length (cells m n) = (m * n)%nat.
Proof.
  unfold cells.
  assert (H : ∀ l : list Z,
    length (l ≫= λ i, range 0 n ≫= λ j, [(i, j)]) = (length l * n)%nat).
  { induction l as [|i l IH]; [done|]. rewrite bind_cons, length_app, IH.
    rewrite (bind_singleton_fmap (λ j, (i, j))), length_fmap, length_range.
    simpl. lia. }
  by rewrite H, length_range, Nat.sub_0_r.
Qed.

Lemma filter_ext_elem {A} (P Q : A → Prop)
    `{!∀ x, Decision (P x)} `{!∀ x, Decision (Q x)} (l : list A) :
  (∀ x, x ∈ l → (P x ↔ Q x)) → filter P l = filter Q l.
Proof.
  induction l as [|x l IH]; intros Hext; [done|].
  rewrite !filter_cons, IH by (intros; apply Hext; by right).
  destruct (decide (P x)) as [Hp|Hp].
  - rewrite decide_True; [done|]. apply Hext; [by left|done].
  - rewrite decide_False; [done|]. intros Hq. apply Hp, Hext; [by left|done].
Qed.

(** Changing a decidable predicate at one element of a duplicate-free list,
    from true to false, removes one element from the filtered list. *)
Lemma length_filter_drop_one {A} (P Q : A → Prop)
    `{!∀ x, Decision (P x)} `{!∀ x, Decision (Q x)} (l : list A) (c : A) :
  NoDup l → c ∈ l → P c → ¬ Q c →
  (∀ x, x ∈ l → x ≠ c → (P x ↔ Q x)) →
  length (filter P l) = S (length (filter Q l)).
Proof.
  induction 1 as [|x l Hx Hnd IH]; intros Hc HP HQ Hext.
  - by apply elem_of_nil in Hc.
  - rewrite !filter_cons. apply elem_of_cons in Hc as [<-|Hc].
    + rewrite decide_True, decide_False by done. simpl. f_equal. f_equal.
      apply filter_ext_elem. intros y Hy.
      apply Hext; [by right|]. intros ->. done.
    + assert (x ≠ c) by (intros ->; done).
      assert (HIH : length (filter P l) = S (length (filter Q l))).
      { apply IH; [done..|]. intros. apply Hext; [by right|done]. }
      destruct (decide (P x)) as [Hp|Hp].
      * rewrite decide_True by (apply Hext; [by left|done..]).
        simpl. by rewrite HIH.
      * rewrite decide_False; [done|]. intros Hq. apply Hp.
        apply Hext; [by left|done..].
Qed.

Lemma bfs_while_nil (fuel : nat) (grid : list (list Z)) (m n : nat) (visit_id : Z)
    (st : bfs_state) :
  queue st = [] → bfs_while fuel grid m n visit_id st = Some st.
Proof. intros H. destruct fuel; simpl; by rewrite H. Qed.

Lemma bfs_while_cons (fuel : nat) (grid : list (list Z)) (m n : nat) (visit_id : Z)
    (st : bfs_state) (x y d : Z) (q : list (Z * Z * Z)) :
  queue st = (x, y, d) :: q →
  bfs_while (S fuel) grid m n visit_id st
  = st' ← foldM (visit_neighbor grid m n visit_id x y d) directions
            (BfsState (dist st) (reach st) (visited_mark st) q);
    bfs_while fuel grid m n visit_id st'.
Proof. intros H. cbn [bfs_while]. by rewrite H. Qed.

Lemma wf_state_pop (m n : nat) (st : bfs_state) (e : Z * Z * Z) (q : list (Z * Z * Z)) :
  wf_state m n st → queue st = e :: q →
  wf_state m n (BfsState (dist st) (reach st) (visited_mark st) q).
Proof.
  intros (? & ? & ? & Hq) He. split_and!; [done..|].
  rewrite He in Hq. simpl. by inversion Hq.
Qed.

Section Termination.
Variables (grid : list (list Z)) (m n : nat) (visit_id : Z).
Hypothesis Hgrid : shaped m n grid.

Lemma unmarked_entered (c : Z * Z) (d : Z) (st st' : bfs_state) :
  enterable grid m n visit_id st c →
  entered grid m n visit_id c d st st' →
  unmarked m n visit_id (visited_mark st)
  = S (unmarked m n visit_id (visited_mark st')).
Proof.
  intros (Hc & Hvm & _) (_ & _ & Hvc & Hvo & _). unfold unmarked.
  apply (length_filter_drop_one _ _ _ c).
  - apply NoDup_cells.
  - by apply elem_of_cells.
  - done.
  - intros H. by apply H.
  - intros c' Hc' Hne. apply elem_of_cells in Hc'. by rewrite Hvo.
Qed.

Lemma unmarked_le (vm : list (list Z)) : (unmarked m n visit_id vm ≤ m * n)%nat.
Proof. unfold unmarked. rewrite <- length_cells. apply length_filter. Qed.

(** One direction: the step returns, and the queue grows by what the
    unvisited cells lose. *)
Lemma visit_neighbor_measure (x y d : Z) (st : bfs_state) (dir : Z * Z) :
  wf_state m n st →
  ∃ st', visit_neighbor grid m n visit_id x y d st dir = Some st'
    ∧ wf_state m n st'
    ∧ (length (queue st') + unmarked m n visit_id (visited_mark st')
       = length (queue st) + unmarked m n visit_id (visited_mark st))%nat.
Proof.
  intros Hwf.
  destruct (visit_neighbor_cases grid m n visit_id Hgrid x y d st dir Hwf)
    as [(Hen & st' & Hst' & Hent)|(_ & Hst)].
  - exists st'. split; [done|]. split; [apply Hent|].
    rewrite (unmarked_entered _ _ _ _ Hen Hent).
    destruct Hent as (_ & -> & _). rewrite length_app. simpl. lia.
  - exists st. done.
Qed.

Lemma visit_all_measure (x y d : Z) (dirs : list (Z * Z)) (st : bfs_state) :
  wf_state m n st →
  ∃ st', foldM (visit_neighbor grid m n visit_id x y d) dirs st = Some st'
    ∧ wf_state m n st'
    ∧ (length (queue st') + unmarked m n visit_id (visited_mark st')
       = length (queue st) + unmarked m n visit_id (visited_mark st))%nat.
Proof.
  revert st. induction dirs as [|dir dirs IH]; intros st Hwf; simpl.
  - exists st. done.
  - destruct (visit_neighbor_measure x y d st dir Hwf) as (st1 & -> & Hwf1 & Hm1).
    simpl. destruct (IH st1 Hwf1) as (st' & -> & Hwf' & Hm').
    exists st'. split_and!; [done..|lia].
Qed.

(** The [while] loop returns once the fuel covers the queue and the cells
    not yet visited. *)
Lemma bfs_while_fuel (fuel : nat) (st : bfs_state) :
  wf_state m n st →
  (length (queue st) + unmarked m n visit_id (visited_mark st) ≤ fuel)%nat →
  ∃ st', bfs_while fuel grid m n visit_id st = Some st'
         ∧ wf_state m n st' ∧ queue st' = [].
Proof.
  revert st. induction fuel as [|fuel IH]; intros st Hwf Hfuel.
  - destruct (queue st) as [|e q] eqn:Hq; [|simpl in Hfuel; lia].
    exists st. by rewrite bfs_while_nil.
  - destruct (queue st) as [|[[x y] d] q] eqn:Hq.
    { exists st. by rewrite bfs_while_nil. }
    rewrite (bfs_while_cons _ _ _ _ _ _ _ _ _ _ Hq).
    pose proof (wf_state_pop m n st _ q Hwf Hq) as Hwf0.
    destruct (visit_all_measure x y d directions _ Hwf0) as (st1 & -> & Hwf1 & Hm1).
    simpl. apply IH; [done|]. simpl in Hm1, Hfuel. lia.
Qed.

(** What each iteration of the [while] loop keeps, the loop keeps. *)
Lemma bfs_while_inv (I : bfs_state → Prop) (fuel : nat) (st st' : bfs_state) :
  (∀ st x y d q st1, I st → wf_state m n st → queue st = (x, y, d) :: q →
     foldM (visit_neighbor grid m n visit_id x y d) directions
       (BfsState (dist st) (reach st) (visited_mark st) q) = Some st1 →
     I st1) →
  I st → wf_state m n st →
  bfs_while fuel grid m n visit_id st = Some st' →
  I st' ∧ queue st' = [].
Proof.
  intros Hstep. revert st. induction fuel as [|fuel IH]; intros st HI Hwf Hrun.
  - destruct (queue st) as [|[[x y] d] q] eqn:Hq.
    + rewrite bfs_while_nil in Hrun by done. by simplify_eq.
    + simpl in Hrun. by rewrite Hq in Hrun.
  - destruct (queue st) as [|[[x y] d] q] eqn:Hq.
    { rewrite bfs_while_nil in Hrun by done. by simplify_eq. }
    rewrite (bfs_while_cons _ _ _ _ _ _ _ _ _ _ Hq) in Hrun.
    apply bind_Some in Hrun as (st1 & Hst1 & Hrun).
    pose proof (wf_state_pop m n st _ q Hwf Hq) as Hwf0.
    destruct (visit_all_measure x y d directions _ Hwf0) as (st2 & Hst2 & Hwf1 & _).
    assert (st2 = st1) by congruence. subst st2.
    apply (IH st1); [|done..].
    by apply (Hstep st x y d q).
Qed.

End Termination.

(** ** The traversal engine on a grid without marker 2 *)

Lemma elem_of_directions (dir : Z * Z) :
  dir ∈ directions ↔ dir = (-1, 0) ∨ dir = (1, 0) ∨ dir = (0, -1) ∨ dir = (0, 1).
Proof.
  unfold directions. rewrite !elem_of_cons, elem_of_nil. tauto.
Qed.

(** A step in one direction changes the Manhattan distance by one. *)
Lemma manhattan_move (src c dir : Z * Z) :
  dir ∈ directions →
  manhattan src (move c dir) = manhattan src c + 1
  ∨ manhattan src (move c dir) = manhattan src c - 1.
Proof.
  intros H. apply elem_of_directions in H.
  unfold manhattan, move. destruct src, c.
  destruct H as [-> | [-> | [-> | ->]]]; simpl; lia.
Qed.

Lemma manhattan_0 (src c : Z * Z) : manhattan src c = 0 → c = src.
Proof. unfold manhattan. destruct src, c. simpl. intros H. f_equal; lia. Qed.

Lemma manhattan_nonneg (src c : Z * Z) : 0 ≤ manhattan src c.
Proof. unfold manhattan. lia. Qed.

(** Every cell other than the source has a neighbour inside the grid that is
    one step closer to the source. *)
Lemma closer_neighbor (m n : nat) (src c : Z * Z) :
  inb m n src → inb m n c → 0 < manhattan src c →
  ∃ c' dir, dir ∈ directions ∧ inb m n c' ∧ move c' dir = c
            ∧ manhattan src c' = manhattan src c - 1.
Proof.
  unfold inb, manhattan, move. destruct src as [sx sy], c as [x y]. simpl.
  intros Hs Hc Hpos.
  destruct (Z.lt_trichotomy x sx) as [Hx|[Hx|Hx]].
  - exists (x + 1, y), (-1, 0). simpl. rewrite elem_of_directions.
    split_and!; [tauto|lia..|f_equal; lia|lia].
  - destruct (Z.lt_trichotomy y sy) as [Hy|[Hy|Hy]]; [|lia|].
    + exists (x, y + 1), (0, -1). simpl. rewrite elem_of_directions.
      split_and!; [tauto|lia..|f_equal; lia|lia].
    + exists (x, y - 1), (0, 1). simpl. rewrite elem_of_directions.
      split_and!; [tauto|lia..|f_equal; lia|lia].
  - exists (x - 1, y), (1, 0). simpl. rewrite elem_of_directions.
    split_and!; [tauto|lia..|f_equal; lia|lia].
Qed.

Section ObstacleFree.
Variables (grid : list (list Z)) (m n : nat) (visit_id : Z) (src : Z * Z).
Variables (dist0 reach0 : list (list Z)).
Hypothesis Hgrid : shaped m n grid.
Hypothesis Hno2 : ∀ c, inb m n c → cell grid c ≠ 2.
Hypothesis Hsrc : inb m n src.

(** Once every visited cell up to depth [k] has all its neighbours
    visited, every cell up to depth [k + 1] is visited. *)
Lemma visited_up_to (st : bfs_state) (k : Z) :
  marked visit_id st src →
  (∀ c, inb m n c → marked visit_id st c → manhattan src c ≤ k →
     processed m n visit_id st c) →
  ∀ c, inb m n c → manhattan src c ≤ k + 1 → marked visit_id st c.
Proof.
  intros Hms Hproc.
  assert (H : ∀ j : nat, ∀ c, inb m n c → manhattan src c = Z.of_nat j →
            manhattan src c ≤ k + 1 → marked visit_id st c).
  { induction j as [|j IH]; intros c Hc Hj Hk.
    - apply manhattan_0 in Hj as ->. done.
    - destruct (closer_neighbor m n src c Hsrc Hc) as (c' & dir & Hdir & Hc' & <- & Hd);
        [lia|].
      apply (Hproc c'); [done| |lia|done..].
      apply IH; [done|lia|lia]. }
  intros c Hc Hk. apply (H (Z.to_nat (manhattan src c))); [done| |done].
  pose proof (manhattan_nonneg src c). lia.
Qed.

(** Popping the head of the queue. *)
Lemma level_pop (d : Z) (e : Z * Z * Z) (qa qb : list (Z * Z * Z)) (st : bfs_state) :
  level grid m n visit_id src dist0 reach0 None d (e :: qa) qb st →
  level grid m n visit_id src dist0 reach0 (Some e.1) d qa qb
    (BfsState (dist st) (reach st) (visited_mark st) (qa ++ qb))
  ∧ manhattan src e.1 = d ∧ e.2 = d.
Proof.
  intros (Hwf & Hq & Hqa & Hqb & Hqm & Hms & HP & HL & HAd & HAr).
  rewrite Hq in Hqm. simpl in Hqm.
  apply list.Forall_cons in Hqm as [[Hem Hed] Hqm].
  apply list.Forall_cons in Hqa as [He Hqa].
  split; [|split; congruence].
  split_and!; try done.
  - eapply wf_state_pop; [done|]. rewrite Hq. done.
  - intros c Hc Hm. destruct (HP c Hc Hm) as [?|[Hin|?]]; [done| |by right; right].
    rewrite Hq in Hin. simpl in Hin. apply elem_of_cons in Hin as [->|Hin].
    + by left.
    + right. left. done.
Qed.

(** One direction of the popped cell. *)
Lemma level_visit (x y d : Z) (qa qb : list (Z * Z * Z)) (st st' : bfs_state)
    (dir : Z * Z) :
  level grid m n visit_id src dist0 reach0 (Some (x, y)) d qa qb st → manhattan src (x, y) = d →
  dir ∈ directions →
  visit_neighbor grid m n visit_id x y d st dir = Some st' →
  ∃ qb', level grid m n visit_id src dist0 reach0 (Some (x, y)) d qa qb' st'
    ∧ (∀ c, inb m n c → marked visit_id st c → marked visit_id st' c)
    ∧ (inb m n (move (x, y) dir) → marked visit_id st' (move (x, y) dir)).
Proof.
  intros (Hwf & Hq & Hqa & Hqb & Hqm & Hms & HP & HL & HAd & HAr) Hd Hdir Hrun.
  destruct (visit_neighbor_cases grid m n visit_id Hgrid x y d st dir Hwf)
    as [(Hen & st1 & Hst1 & Hent)|(Hnen & Hst)].
  - assert (st1 = st') by congruence. subst st1.
    set (c' := move (x, y) dir) in *.
    destruct Hen as (Hc' & Hvm & _).
    destruct Hent as (Hwf' & Hq' & Hvc & Hvo & Hdd & Hrr).
    assert (Hmono : ∀ c, inb m n c → marked visit_id st c → marked visit_id st' c).
    { intros c Hc Hm. unfold marked in *. destruct (decide (c = c')) as [->|Hne]; [done|].
      by rewrite Hvo. }
    assert (Hdep : manhattan src c' = d + 1).
    { destruct (manhattan_move src (x, y) dir Hdir) as [H|H]; fold c' in H; [lia|].
      exfalso. apply Hvm. apply HL; [done|lia]. }
    exists (qb ++ [(c', d + 1)]). split_and!; [|done|done].
    split_and!; try done.
    + rewrite Hq', Hq. by rewrite app_assoc.
    + apply Forall_app. split; [done|]. by apply Forall_singleton.
    + rewrite Hq'. apply Forall_app. split.
      * destruct Hwf as (_ & _ & _ & Hqi).
        rewrite Forall_forall in Hqm, Hqi. apply Forall_forall. intros e He.
        destruct (Hqm e He) as [Hem Hed].
        split; [apply Hmono; [by apply Hqi|done]|done].
      * apply Forall_singleton. done.
    + by apply Hmono.
    + intros c Hc Hm. destruct (decide (c = c')) as [->|Hne].
      * right. left. rewrite Hq', fmap_app. apply elem_of_app. right.
        simpl. by left.
      * assert (Hmc : marked visit_id st c).
        { unfold marked in *. by rewrite <- Hvo. }
        destruct (HP c Hc Hmc) as [?|[Hin|Hpr]]; [by left| |].
        -- right. left. rewrite Hq', fmap_app. apply elem_of_app. by left.
        -- right. right. intros dir' Hdir' Hin'. apply Hmono; [done|].
           by apply Hpr.
    + intros c Hc Hk. apply Hmono; [done|]. by apply HL.
    + intros c Hc. rewrite Hdd, HAd by done.
      destruct (decide (c = c')) as [->|Hne].
      * rewrite (bool_decide_eq_false_2 (cell (visited_mark st) c' = visit_id ∧ _))
          by tauto.
        destruct (decide (cell grid c' = 0)) as [H0|H0].
        -- rewrite !bool_decide_eq_true_2 by done. lia.
        -- rewrite !bool_decide_eq_false_2 by tauto. lia.
      * rewrite (bool_decide_eq_false_2 (c = c' ∧ _)) by tauto.
        rewrite Hvo by done. lia.
    + intros c Hc. rewrite Hrr, HAr by done.
      destruct (decide (c = c')) as [->|Hne].
      * rewrite (bool_decide_eq_false_2 (cell (visited_mark st) c' = visit_id ∧ _))
          by tauto.
        destruct (decide (cell grid c' = 0)) as [H0|H0].
        -- rewrite !bool_decide_eq_true_2 by done. lia.
        -- rewrite !bool_decide_eq_false_2 by tauto. lia.
      * rewrite (bool_decide_eq_false_2 (c = c' ∧ _)) by tauto.
        rewrite Hvo by done. lia.
  - assert (st = st') by congruence. subst st'.
    exists qb. split_and!; [done|done|].
    intros Hc'. unfold marked.
    destruct (decide (cell (visited_mark st) (move (x, y) dir) = visit_id)); [done|].
    exfalso. apply Hnen. split_and!; [done..|]. by apply Hno2.
Qed.

(** The [for] loop over the directions of the popped cell. *)
Lemma level_visit_all (x y d : Z) (qa : list (Z * Z * Z)) (dirs : list (Z * Z)) :
  ∀ qb st st',
  level grid m n visit_id src dist0 reach0 (Some (x, y)) d qa qb st → manhattan src (x, y) = d →
  (∀ dir, dir ∈ dirs → dir ∈ directions) →
  foldM (visit_neighbor grid m n visit_id x y d) dirs st = Some st' →
  ∃ qb', level grid m n visit_id src dist0 reach0 (Some (x, y)) d qa qb' st'
    ∧ (∀ c, inb m n c → marked visit_id st c → marked visit_id st' c)
    ∧ (∀ dir, dir ∈ dirs → inb m n (move (x, y) dir) →
         marked visit_id st' (move (x, y) dir)).
Proof.
  induction dirs as [|dir dirs IH]; intros qb st st' Hlvl Hd Hdirs Hrun.
  - simpl in Hrun. injection Hrun as <-. exists qb. split_and!; [done..|].
    intros dir Hdir. by apply elem_of_nil in Hdir.
  - simpl in Hrun. apply bind_Some in Hrun as (st1 & Hst1 & Hrun).
    destruct (level_visit x y d qa qb st st1 dir Hlvl Hd) as (qb1 & Hlvl1 & Hmono1 & Hdir1);
      [apply Hdirs; by left|done|].
    destruct (IH qb1 st1 st' Hlvl1 Hd) as (qb' & Hlvl' & Hmono' & Hdirs');
      [intros; apply Hdirs; by right|done|].
    exists qb'. split_and!; [done| |].
    + intros c Hc Hm. by apply Hmono', Hmono1.
    + intros dir' Hdir' Hin. apply elem_of_cons in Hdir' as [->|Hdir'].
      * apply Hmono'; [done|]. by apply Hdir1.
      * by apply Hdirs'.
Qed.

(** After the [for] loop the popped cell has all its neighbours visited. *)
Lemma level_done (c : Z * Z) (d : Z) (qa qb : list (Z * Z * Z)) (st : bfs_state) :
  level grid m n visit_id src dist0 reach0 (Some c) d qa qb st → processed m n visit_id st c →
  level grid m n visit_id src dist0 reach0 None d qa qb st.
Proof.
  intros (Hwf & Hq & Hqa & Hqb & Hqm & Hms & HP & HL & HAd & HAr) Hproc.
  split_and!; try done.
  intros c' Hc' Hm. destruct (HP c' Hc' Hm) as [[= <-]|[?|?]]; auto.
Qed.

(** When the entries at depth [d] are used up, the entries at depth [d + 1]
    take their place. *)
Lemma level_shift (d : Z) (qb : list (Z * Z * Z)) (st : bfs_state) :
  level grid m n visit_id src dist0 reach0 None d [] qb st → level grid m n visit_id src dist0 reach0 None (d + 1) qb [] st.
Proof.
  intros (Hwf & Hq & Hqa & Hqb & Hqm & Hms & HP & HL & HAd & HAr).
  simpl in Hq.
  split_and!; try done.
  - by rewrite app_nil_r.
  - apply (visited_up_to st d Hms).
    intros c Hc Hm Hk. destruct (HP c Hc Hm) as [?|[Hin|?]]; [done| |done].
    exfalso. apply list_elem_of_fmap in Hin as (e & -> & He).
    rewrite Hq in Hqm, He. rewrite Forall_forall in Hqm, Hqb.
    apply list_elem_of_In in He.
    destruct (Hqm e He) as [_ He2]. specialize (Hqb e He). lia.
Qed.

(** One iteration of the [while] loop. *)
Lemma level_step (st : bfs_state) (x y d : Z) (q : list (Z * Z * Z)) (st1 : bfs_state) :
  (∃ d0 qa qb, level grid m n visit_id src dist0 reach0 None d0 qa qb st) →
  queue st = (x, y, d) :: q →
  foldM (visit_neighbor grid m n visit_id x y d) directions
    (BfsState (dist st) (reach st) (visited_mark st) q) = Some st1 →
  ∃ d0 qa qb, level grid m n visit_id src dist0 reach0 None d0 qa qb st1.
Proof.
  intros (d0 & qa & qb & Hlvl) Hq Hrun.
  assert (∃ d1 qa1 qb1, level grid m n visit_id src dist0 reach0 None d1 ((x, y, d) :: qa1) qb1 st ∧ q = qa1 ++ qb1)
    as (d1 & qa1 & qb1 & Hlvl1 & ->).
  { destruct qa as [|e qa].
    - apply level_shift in Hlvl. pose proof Hlvl as (_ & Hq' & _).
      rewrite Hq, app_nil_r in Hq'. subst qb.
      exists (d0 + 1), q, []. by rewrite app_nil_r.
    - pose proof Hlvl as (_ & Hq' & _). rewrite Hq in Hq'. simpl in Hq'.
      injection Hq' as <- ->. by exists d0, qa, qb. }
  apply level_pop in Hlvl1 as (Hlvl1 & Hd1 & Hd). simpl in Hd1, Hd, Hlvl1.
  rewrite <- Hd in Hd1, Hlvl1. clear Hd.
  destruct (level_visit_all x y d qa1 directions qb1 _ st1 Hlvl1 Hd1)
    as (qb' & Hlvl' & _ & Hdirs); [done..|].
  exists d, qa1, qb'. by apply (level_done (x, y)).
Qed.

(** When the queue is empty every cell has been visited. *)
Lemma level_final (d : Z) (st : bfs_state) (c : Z * Z) :
  level grid m n visit_id src dist0 reach0 None d [] [] st → inb m n c → marked visit_id st c.
Proof.
  intros (Hwf & Hq & Hqa & Hqb & Hqm & Hms & HP & HL & HAd & HAr) Hc.
  apply (visited_up_to st (manhattan src c) Hms); [|done|lia].
  intros c' Hc' Hm _. destruct (HP c' Hc' Hm) as [?|[Hin|?]]; [done| |done].
  rewrite Hq in Hin. by apply elem_of_nil in Hin.
Qed.

End ObstacleFree.

(** One traversal: every empty cell receives its Manhattan distance to the
    house and one more reach, and every cell carries the traversal's mark. *)
Lemma traversal_no_obstacle (grid : list (list Z)) (m n : nat) (visit_id i j : Z)
    (dist0 reach0 vm0 : list (list Z)) :
  shaped m n grid → (∀ c, inb m n c → cell grid c ≠ 2) → inb m n (i, j) →
  shaped m n dist0 → shaped m n reach0 → shaped m n vm0 →
  (∀ c, inb m n c → cell vm0 c ≠ visit_id) →
  cell grid (i, j) ≠ 0 →
  ∃ dist1 reach1 vm1,
    bfs_from_house grid m n (dist0, reach0, vm0, visit_id) (i, j)
    = Some (dist1, reach1, vm1, visit_id + 1)
    ∧ shaped m n dist1 ∧ shaped m n reach1 ∧ shaped m n vm1
    ∧ ∀ c, inb m n c →
        cell dist1 c
        = cell dist0 c
          + (if bool_decide (cell grid c = 0) then manhattan (i, j) c else 0)
        ∧ cell reach1 c
          = cell reach0 c + (if bool_decide (cell grid c = 0) then 1 else 0)
        ∧ cell vm1 c = visit_id.
Proof.
  intros Hgrid Hno2 Hsrc Hd0 Hr0 Hv0 Hfresh Hsrc0. unfold bfs_from_house.
  destruct (setitem2_at m n vm0 i j visit_id Hv0 Hsrc) as (vm1 & -> & Hv1 & Hvc & Hvo).
  cbn -[bfs_while].
  set (st0 := BfsState dist0 reach0 vm1 [(i, j, 0)]).
  assert (Hwf0 : wf_state m n st0).
  { split_and!; [done..|]. simpl. by apply Forall_singleton. }
  destruct (bfs_while_fuel grid m n visit_id Hgrid (S (m * n)) st0 Hwf0)
    as (st' & Hrun & Hwf' & Hq').
  { simpl. pose proof (unmarked_le m n visit_id vm1). lia. }
  rewrite Hrun. simpl.
  assert (Hlvl0 : ∃ d qa qb, level grid m n visit_id (i, j) dist0 reach0 None d qa qb st0).
  { exists 0, [(i, j, 0)], []. unfold level, marked. simpl.
    assert (Hm0 : manhattan (i, j) (i, j) = 0) by (unfold manhattan; simpl; lia).
    split_and!; try done.
    - by apply Forall_singleton.
    - by apply Forall_singleton.
    - intros c Hc Hm. right. left.
      destruct (decide (c = (i, j))) as [->|Hne]; [by left|].
      exfalso. rewrite Hvo in Hm by done. by apply (Hfresh c).
    - intros c Hc Hk. pose proof (manhattan_nonneg (i, j) c).
      assert (c = (i, j)) as -> by (apply manhattan_0; lia). done.
    - intros c Hc. rewrite bool_decide_eq_false_2; [lia|].
      intros [Hm H0]. destruct (decide (c = (i, j))) as [->|Hne]; [done|].
      rewrite Hvo in Hm by done. by apply (Hfresh c).
    - intros c Hc. rewrite bool_decide_eq_false_2; [lia|].
      intros [Hm H0]. destruct (decide (c = (i, j))) as [->|Hne]; [done|].
      rewrite Hvo in Hm by done. by apply (Hfresh c). }
  destruct (bfs_while_inv grid m n visit_id Hgrid
              (λ st, ∃ d qa qb, level grid m n visit_id (i, j) dist0 reach0 None d qa qb st)
              (S (m * n)) st0 st')
    as [(d & qa & qb & Hlvl) _]; [|done..|].
  { intros st x y d q st1 HI _ Hq Hst1.
    by apply (level_step grid m n visit_id (i, j) dist0 reach0 Hgrid Hno2 Hsrc
                st x y d q st1). }
  pose proof Hlvl as (_ & Hq & _). rewrite Hq' in Hq.
  symmetry in Hq. apply app_eq_nil in Hq as [-> ->].
  exists (dist st'), (reach st'), (visited_mark st').
  destruct Hwf' as (? & ? & ? & _). split_and!; [done..|].
  intros c Hc.
  pose proof (level_final grid m n visit_id (i, j) dist0 reach0 Hsrc d st' c Hlvl Hc)
    as Hm.
  destruct Hlvl as (_ & _ & _ & _ & _ & _ & _ & _ & HAd & HAr).
  rewrite HAd, HAr by done. unfold marked in Hm.
  split_and!; [| |done].
  - destruct (decide (cell grid c = 0)).
    + by rewrite !bool_decide_eq_true_2.
    + rewrite !bool_decide_eq_false_2; [done..|tauto].
  - destruct (decide (cell grid c = 0)).
    + by rewrite !bool_decide_eq_true_2.
    + rewrite !bool_decide_eq_false_2; [done..|tauto].
Qed.

(** All traversals, one per house, on a grid without marker 2. *)
Lemma bfs_fold_no_obstacle (grid : list (list Z)) (m n : nat) (hs : list (Z * Z)) :
  shaped m n grid → (∀ c, inb m n c → cell grid c ≠ 2) →
  Forall (λ h, inb m n h ∧ cell grid h ≠ 0) hs →
  ∀ dist0 reach0 vm0 visit_id,
  shaped m n dist0 → shaped m n reach0 → shaped m n vm0 →
  (∀ c, inb m n c → cell vm0 c < visit_id) →
  ∃ dist1 reach1 vm1,
    foldM (bfs_from_house grid m n) hs (dist0, reach0, vm0, visit_id)
    = Some (dist1, reach1, vm1, visit_id + Z.of_nat (length hs))
    ∧ shaped m n dist1 ∧ shaped m n reach1
    ∧ ∀ c, inb m n c →
        cell dist1 c
        = cell dist0 c
          + (if bool_decide (cell grid c = 0) then total_manhattan hs c else 0)
        ∧ cell reach1 c
          = cell reach0 c
            + (if bool_decide (cell grid c = 0) then Z.of_nat (length hs) else 0).
Proof.
  intros Hgrid Hno2 Hhs. induction Hhs as [|[i j] hs [Hin H0] _ IH];
    intros dist0 reach0 vm0 visit_id Hd0 Hr0 Hv0 Hfresh.
  - exists dist0, reach0, vm0. simpl. rewrite Z.add_0_r. split_and!; [done..|].
    intros c Hc. case_bool_decide; unfold total_manhattan; simpl; lia.
  - destruct (traversal_no_obstacle grid m n visit_id i j dist0 reach0 vm0)
      as (dist1 & reach1 & vm1 & Hrun & Hd1 & Hr1 & Hv1 & Hres); try done.
    { intros c Hc. specialize (Hfresh c Hc). lia. }
    destruct (IH dist1 reach1 vm1 (visit_id + 1)) as (dist2 & reach2 & vm2 & Hrun2 & Hd2 & Hr2 & Hres2);
      try done.
    { intros c Hc. destruct (Hres c Hc) as (_ & _ & ->). lia. }
    exists dist2, reach2, vm2. split_and!; [|done..|].
    + cbn [foldM]. rewrite Hrun. cbn [mbind option_bind]. rewrite Hrun2.
      do 2 f_equal. simpl length. lia.
    + intros c Hc. destruct (Hres c Hc) as (Hdc & Hrc & _).
      destruct (Hres2 c Hc) as (-> & ->). rewrite Hdc, Hrc.
      unfold total_manhattan. rewrite fmap_cons, Zsum_cons.
      case_bool_decide; simpl length; lia.
Qed.

Lemma bfs_all_no_obstacle (grid : list (list Z)) (m n : nat) (hs : list (Z * Z)) :
  shaped m n grid → (∀ c, inb m n c → cell grid c ≠ 2) →
  Forall (λ h, inb m n h ∧ cell grid h ≠ 0) hs →
  ∃ dist1 reach1 vm1 visit_id,
    bfs_all grid hs m n = Some (dist1, reach1, vm1, visit_id)
    ∧ shaped m n dist1 ∧ shaped m n reach1
    ∧ ∀ c, inb m n c → cell grid c = 0 →
        cell dist1 c = total_manhattan hs c
        ∧ cell reach1 c = Z.of_nat (length hs).
Proof.
  intros Hgrid Hno2 Hhs. unfold bfs_all.
  destruct (bfs_fold_no_obstacle grid m n hs Hgrid Hno2 Hhs
              (zeros2 m n) (zeros2 m n) (zeros2 m n) 1)
    as (dist1 & reach1 & vm1 & -> & Hd1 & Hr1 & Hres);
    [apply zeros2_shaped..| |].
  { intros c _. rewrite cell_zeros2. lia. }
  eexists _, _, _, _. split_and!; [done..|].
  intros c Hc H0. destruct (Hres c Hc) as [-> ->].
  rewrite !cell_zeros2, !bool_decide_eq_true_2 by done. lia.
Qed.

(** ** The two engines on a grid of 0s and 1s *)

Lemma fast_total_distance_spec (grid : list (list Z)) (m n : nat) (hs : list (Z * Z)) :
  shaped m n grid → (0 < m)%nat → (0 < n)%nat → Forall (inb m n) hs →
  _fast_total_distance grid hs m n (Z.of_nat (length hs))
  = Some (or_minus_one
      (min_of (total_manhattan hs <$> filter (λ c, cell grid c = 0) (cells m n)))).
Proof.
  intros Hgrid Hm Hn Hhs. unfold _fast_total_distance.
  destruct (cost_arrays_spec hs m n Hm Hn Hhs) as (cr & cc & -> & Hcost). simpl.
  by rewrite (min_over_empty_spec grid cr cc m n (total_manhattan hs)).
Qed.

Lemma bfs_total_distance_no_obstacle (grid : list (list Z)) (m n : nat)
    (hs : list (Z * Z)) :
  shaped m n grid → (∀ c, inb m n c → cell grid c ≠ 2) →
  Forall (λ h, inb m n h ∧ cell grid h ≠ 0) hs →
  _bfs_total_distance grid hs m n (Z.of_nat (length hs))
  = Some (or_minus_one
      (min_of (total_manhattan hs <$> filter (λ c, cell grid c = 0) (cells m n)))).
Proof.
  intros Hgrid Hno2 Hhs. unfold _bfs_total_distance.
  destruct (bfs_all_no_obstacle grid m n hs Hgrid Hno2 Hhs)
    as (dist1 & reach1 & vm1 & vid & -> & Hd1 & Hr1 & Hres). simpl.
  rewrite (min_over_reached_spec grid dist1 reach1 m n) by done. simpl.
  do 3 f_equal.
  rewrite (filter_ext_elem _ (λ c, cell grid c = 0)).
  - apply Forall_fmap_ext_1, Forall_forall. intros c Hc.
    apply list_elem_of_In, list_elem_of_filter in Hc as [H0 Hc].
    apply elem_of_cells in Hc. by apply Hres.
  - intros c Hc. apply elem_of_cells in Hc. split; [tauto|].
    intros H0. split; [done|]. by apply Hres.
Qed.

Lemma inb_pos (m n : nat) (c : Z * Z) : inb m n c → (0 < m)%nat ∧ (0 < n)%nat.
Proof. intros [H1 H2]. lia. Qed.

Lemma house_cells_01 (grid : list (list Z)) (m n : nat) :
  Forall (λ h, inb m n h ∧ cell grid h ≠ 0) (house_cells grid m n).
Proof.
  apply Forall_forall. intros h Hh.
  apply list_elem_of_In, elem_of_house_cells in Hh as [Hin H1].
  split; [done|]. rewrite H1. done.
Qed.

Lemma only_01_no_2 (grid : list (list Z)) (m n : nat) :
  shaped m n grid → has_only_01 grid = true → ∀ c, inb m n c → cell grid c ≠ 2.
Proof.
  intros Hgrid H01 c Hc.
  destruct (proj1 (has_only_01_spec m n grid Hgrid) H01 c Hc) as [-> | ->]; done.
Qed.

(** C3. On every rectangular grid whose markers are all 0 or 1, with at
    least one house and at least one empty cell, the separable engine and
    the traversal engine, each called with the extracted house list, the
    grid dimensions and the number of houses, return the same result. *)
Theorem engines_agree (grid : list (list Z)) (m n : nat) :
  shaped m n grid → has_only_01 grid = true →
  (∃ c, inb m n c ∧ cell grid c = 1) →
  (∃ c, inb m n c ∧ cell grid c = 0) →
  ∃ houses r,
    houses_of grid m n = Some houses
    ∧ _fast_total_distance grid houses m n (Z.of_nat (length houses)) = Some r
    ∧ _bfs_total_distance grid houses m n (Z.of_nat (length houses)) = Some r.
Proof.
  intros Hgrid H01 (h & Hh & _) _.
  destruct (inb_pos m n h Hh) as [Hm Hn].
  exists (house_cells grid m n). eexists. split_and!.
  - by apply houses_of_spec.
  - apply fast_total_distance_spec; [done..|]. apply house_cells_inb.
  - apply bfs_total_distance_no_obstacle; [done| |apply house_cells_01].
    by apply only_01_no_2.
Qed.

(** C4. On every rectangular grid of 0s and 1s with at least one house, the
    arrays the fast path computes by the prefix-sum recurrence, from the
    extracted houses and the solver's [total_houses], satisfy for every
    cell [(i, j)]: [cost_row[i] + cost_col[j]] is the sum over all houses
    [h] of [|h.row - i| + |h.col - j|]. *)
Theorem fast_path_cost_is_manhattan (grid : list (list Z)) (m n : nat) :
  shaped m n grid → has_only_01 grid = true →
  (∃ c, inb m n c ∧ cell grid c = 1) →
  ∃ houses cost_row cost_col,
    houses_of grid m n = Some houses
    ∧ (∀ h, h ∈ houses ↔ inb m n h ∧ cell grid h = 1)
    ∧ cost_arrays houses m n (total_of grid) = Some (cost_row, cost_col)
    ∧ ∀ i j, inb m n (i, j) →
        ∃ a b, getitem cost_row i = Some a ∧ getitem cost_col j = Some b
               ∧ a + b = Zsum ((λ h, Z.abs (h.1 - i) + Z.abs (h.2 - j)) <$> houses).
Proof.
  intros Hgrid H01 (h & Hh & _).
  destruct (inb_pos m n h Hh) as [Hm Hn].
  destruct (cost_arrays_spec (house_cells grid m n) m n Hm Hn (house_cells_inb m n grid))
    as (cr & cc & Hrun & Hcost).
  exists (house_cells grid m n), cr, cc. split_and!.
  - by apply houses_of_spec.
  - intros c. apply elem_of_house_cells.
  - by rewrite (total_of_01 m n).
  - intros i j Hc. destruct (Hcost (i, j) Hc) as (a & b & Ha & Hb & Hab).
    exists a, b. done.
Qed.

(** ** The solver *)

(** On a non-degenerate rectangular grid the solver is its zero-house guard
    followed by the dispatch. *)
Lemma min_total_distance_shaped (grid : list (list Z)) (m n : nat) :
  shaped m n grid → (0 < m)%nat → (0 < n)%nat →
  min_total_distance grid
  = if bool_decide (total_of grid = 0) then Some (-1)
    else houses ← houses_of grid m n;
         if has_only_01 grid then _fast_total_distance grid houses m n (total_of grid)
         else _bfs_total_distance grid houses m n (total_of grid).
Proof.
  intros [Hlen Hrows] Hm Hn. destruct grid as [|row0 rest]; [simpl in Hlen; lia|].
  apply list.Forall_cons in Hrows as [Hrow0 _].
  destruct row0 as [|v row0]; [simpl in Hrow0; lia|].
  unfold min_total_distance. rewrite Hlen, Hrow0. done.
Qed.

(** C7. The solver returns -1 on the empty grid and on every grid whose
    first row is empty, whatever the other rows are, and it does so at once.
    Over the store: called on a grid object that has no items, or whose
    first item refers to an empty row, the solver returns -1 and leaves the
    store exactly as it found it, whatever the other items of the grid
    object refer to (rows, other objects, or nothing at all) and whatever
    else the store holds.  So only the grid object and its first row are
    read, no other row is looked at, nothing is summed, listed or scanned,
    no object is created and none is changed. *)
Theorem degenerate_grid_returns_minus_one :
  (min_total_distance [] = Some (-1)
   ∧ ∀ rest : list (list Z), min_total_distance ([] :: rest) = Some (-1))
  ∧ (∀ (h : Imp.heap) (grid : nat),
       h !! grid = Some (Imp.OList []) →
       Imp.min_total_distance grid h = (Some (-1), h))
  ∧ (∀ (h : Imp.heap) (grid l0 : nat) (ls : list nat),
       h !! grid = Some (Imp.OList (l0 :: ls)) →
       h !! l0 = Some (Imp.ORow []) →
       Imp.min_total_distance grid h = (Some (-1), h)).
Proof.
  split_and!.
  - done.
  - intros rest. done.
  - intros h grid Hg.
    unfold Imp.min_total_distance, Imp.bind, Imp.get_list. by rewrite Hg.
  - intros h grid l0 ls Hg Hr.
    unfold Imp.min_total_distance, Imp.bind, Imp.get_list, Imp.get_row.
    by rewrite Hg, Hr.
Qed.

(** The theorem at a store in which the grid object has an empty first
    row, a second item that refers to no row, and a third that refers to
    nothing. *)
Lemma degenerate_grid_returns_minus_one_witness :
  Imp.min_total_distance 0 [Imp.OList [1; 2; 7]%nat; Imp.ORow []; Imp.OList []]
  = (Some (-1), [Imp.OList [1; 2; 7]%nat; Imp.ORow []; Imp.OList []]).
Proof.
  apply (proj2 (proj2 degenerate_grid_returns_minus_one)
           [Imp.OList [1; 2; 7]%nat; Imp.ORow []; Imp.OList []] 0%nat 1%nat
           [2; 7]%nat); reflexivity.
Defined.

(** Past the two guards the rows are read: on a grid object whose first row
    is not empty, an item that refers to no row makes the solver raise, at
    the sum of line 35.  The guards come before every such read. *)
Lemma sum_rows_raises (h : Imp.heap) (rows : list nat) (l : nat) (acc : Z) :
  l ∈ rows → (∀ r, h !! l ≠ Some (Imp.ORow r)) →
  Imp.foldM (λ acc l, Imp.bind (Imp.get_row l) (λ r, Imp.ret (acc + Zsum r)))
    rows acc h
  = (None, h).
Proof.
  intros Hl Hno. revert acc. induction rows as [|a rows IH]; intros acc.
  - by apply elem_of_nil in Hl.
  - cbn [Imp.foldM]. unfold Imp.bind at 1. unfold Imp.bind at 1.
    unfold Imp.get_row at 1.
    destruct (h !! a) as [[r|ls|ps]|] eqn:Ha; try done.
    unfold Imp.ret at 1. apply elem_of_cons in Hl as [->|Hl].
    + by destruct (Hno r).
    + by apply IH.
Qed.

Lemma nondegenerate_grid_reads_rows (h : Imp.heap) (grid l0 l : nat) (ls : list nat)
    (v : Z) (row0 : list Z) :
  h !! grid = Some (Imp.OList (l0 :: ls)) →
  h !! l0 = Some (Imp.ORow (v :: row0)) →
  l ∈ ls → (∀ r, h !! l ≠ Some (Imp.ORow r)) →
  Imp.min_total_distance grid h = (None, h).
Proof.
  intros Hg Hr Hl Hno.
  unfold Imp.min_total_distance, Imp.bind at 1, Imp.get_list at 1. rewrite Hg.
  unfold Imp.bind at 1, Imp.get_row at 1. rewrite Hr.
  unfold Imp.bind at 1, Imp.total_of, Imp.bind at 1, Imp.get_list at 1. rewrite Hg.
  rewrite (sum_rows_raises h (l0 :: ls) l 0); [done|by right|done].
Qed.

(** ** A single house *)

Lemma filter_none {A} (P : A → Prop) `{!∀ x, Decision (P x)} (l : list A) :
  (∀ y, y ∈ l → ¬ P y) → filter P l = [].
Proof.
  induction l as [|x l IH]; intros Hno; [done|].
  rewrite filter_cons, decide_False by (apply Hno; by left).
  apply IH. intros. apply Hno. by right.
Qed.

Lemma filter_unique {A} (P : A → Prop) `{!∀ x, Decision (P x)} (l : list A) (x : A) :
  NoDup l → x ∈ l → P x → (∀ y, y ∈ l → P y → y = x) → filter P l = [x].
Proof.
  induction 1 as [|x0 l Hx0 Hnd IH]; intros Hx HP Huniq.
  - by apply elem_of_nil in Hx.
  - rewrite filter_cons. apply elem_of_cons in Hx as [<-|Hx].
    + rewrite decide_True by done. f_equal. apply filter_none.
      intros y Hy HPy. assert (y = x) as -> by (apply Huniq; [by right|done]).
      done.
    + rewrite decide_False.
      * apply IH; [done..|]. intros. apply Huniq; [by right|done].
      * intros HP0. assert (x0 = x) as -> by (apply Huniq; [by left|done]). done.
Qed.

Lemma manhattan_adjacent (c dir : Z * Z) :
  dir ∈ directions → manhattan c (move c dir) = 1.
Proof.
  intros H. apply elem_of_directions in H. unfold manhattan, move. destruct c.
  destruct H as [-> | [-> | [-> | ->]]]; simpl; lia.
Qed.

Lemma adjacent_exists (m n : nat) (c : Z * Z) :
  inb m n c → (2 ≤ m * n)%nat →
  ∃ dir, dir ∈ directions ∧ inb m n (move c dir).
Proof.
  unfold inb, move. destruct c as [x y]. simpl. intros [Hx Hy] Hmn.
  destruct (decide (2 ≤ m)%nat) as [Hm|Hm].
  - destruct (decide (x + 1 < Z.of_nat m)).
    + exists (1, 0). rewrite elem_of_directions. simpl. split; [tauto|lia].
    + exists (-1, 0). rewrite elem_of_directions. simpl. split; [tauto|lia].
  - assert (2 ≤ n)%nat by nia.
    destruct (decide (y + 1 < Z.of_nat n)).
    + exists (0, 1). rewrite elem_of_directions. simpl. split; [tauto|lia].
    + exists (0, -1). rewrite elem_of_directions. simpl. split; [tauto|lia].
Qed.

(** C8. On every rectangular grid with at least two cells, exactly one
    house at [(r, c)] and empty cells everywhere else, the solver returns 1,
    and the cost [cost_row[i] + cost_col[j]] of the fast path is 1 at every
    4-adjacent cell [(i, j)] of [(r, c)] inside the grid, which is empty. *)
Theorem single_house_cost_one (grid : list (list Z)) (m n : nat) (r c : Z) :
  shaped m n grid → (2 ≤ m * n)%nat →
  inb m n (r, c) → cell grid (r, c) = 1 →
  (∀ c', inb m n c' → c' ≠ (r, c) → cell grid c' = 0) →
  min_total_distance grid = Some 1
  ∧ houses_of grid m n = Some [(r, c)]
  ∧ ∃ cost_row cost_col,
      cost_arrays [(r, c)] m n (total_of grid) = Some (cost_row, cost_col)
      ∧ ∀ dir, dir ∈ directions → inb m n (move (r, c) dir) →
          cell grid (move (r, c) dir) = 0
          ∧ ∃ a b, getitem cost_row (r + dir.1) = Some a
                   ∧ getitem cost_col (c + dir.2) = Some b ∧ a + b = 1.
Proof.
  intros Hgrid Hmn Hrc H1 H0.
  destruct (inb_pos m n _ Hrc) as [Hm Hn].
  assert (H01 : has_only_01 grid = true).
  { apply (has_only_01_spec m n); [done|]. intros c' Hc'.
    destruct (decide (c' = (r, c))) as [->|Hne]; [by right|left; by apply H0]. }
  assert (Hhs : house_cells grid m n = [(r, c)]).
  { apply filter_unique; [apply NoDup_cells|by apply elem_of_cells|done|].
    intros c' Hc' Hc1. apply elem_of_cells in Hc'.
    destruct (decide (c' = (r, c))) as [->|Hne]; [done|].
    rewrite H0 in Hc1 by done. done. }
  assert (Htot : total_of grid = 1) by (by rewrite (total_of_01 m n), Hhs).
  assert (Hone' : ∀ c', total_manhattan [(r, c)] c' = manhattan (r, c) c').
  { intros c'. unfold total_manhattan. simpl. lia. }
  assert (Hinb1 : Forall (inb m n) [(r, c)]) by (by apply Forall_singleton).
  split_and!.
  - rewrite (min_total_distance_shaped grid m n) by done.
    rewrite Htot. rewrite bool_decide_eq_false_2 by done.
    rewrite (houses_of_spec m n) by done. rewrite Hhs, H01. simpl.
    pose proof (fast_total_distance_spec grid m n [(r, c)] Hgrid Hm Hn Hinb1) as Hfast.
    change (Z.of_nat (length [(r, c)])) with 1 in Hfast. rewrite Hfast.
    f_equal.
    assert (Hmin : min_of (total_manhattan [(r, c)] <$>
                     filter (λ c', cell grid c' = 0) (cells m n)) = Fin 1);
      [|by rewrite Hmin].
    apply min_of_Fin. split.
    + destruct (adjacent_exists m n (r, c) Hrc Hmn) as (dir & Hdir & Hin).
      apply list_elem_of_fmap. exists (move (r, c) dir). split.
      * by rewrite Hone', manhattan_adjacent.
      * apply list_elem_of_filter. split; [|by apply elem_of_cells].
        apply H0; [done|]. intros He.
        pose proof (manhattan_adjacent (r, c) dir Hdir) as Hd. rewrite He in Hd.
        unfold manhattan in Hd. simpl in Hd. lia.
    + intros x Hx. apply list_elem_of_fmap in Hx as (c' & -> & Hc').
      apply list_elem_of_filter in Hc' as [Hc0 Hc'].
      rewrite Hone'. pose proof (manhattan_nonneg (r, c) c').
      destruct (decide (manhattan (r, c) c' = 0)) as [Hz|Hz]; [|lia].
      apply manhattan_0 in Hz. subst c'. rewrite H1 in Hc0. done.
  - by rewrite (houses_of_spec m n), Hhs.
  - rewrite Htot. destruct (cost_arrays_spec [(r, c)] m n Hm Hn Hinb1)
      as (cr & cc & Hrun & Hcost).
    change (Z.of_nat (length [(r, c)])) with 1 in Hrun.
    exists cr, cc. split; [done|]. intros dir Hdir Hin. split.
    + apply H0; [done|]. intros He.
      pose proof (manhattan_adjacent (r, c) dir Hdir) as Hd. rewrite He in Hd.
      unfold manhattan in Hd. simpl in Hd. lia.
    + destruct (Hcost _ Hin) as (a & b & Ha & Hb & Hab).
      exists a, b. split_and!; [done..|].
      by rewrite Hab, Hone', manhattan_adjacent.
Qed.

(** ** The traversal engine on any rectangular grid *)

Section AnyGrid.
Variables (grid : list (list Z)) (m n : nat) (starts : list (Z * Z)).
Hypothesis Hgrid : shaped m n grid.

Lemma visit_neighbor_avoids_2 (visit_id x y d : Z) (st st' : bfs_state) (dir : Z * Z) :
  wf_state m n st ∧ marks_avoid_2 grid m n starts (visited_mark st) →
  visit_neighbor grid m n visit_id x y d st dir = Some st' →
  wf_state m n st' ∧ marks_avoid_2 grid m n starts (visited_mark st').
Proof.
  intros [Hwf Hav] Hrun.
  destruct (visit_neighbor_cases grid m n visit_id Hgrid x y d st dir Hwf)
    as [(Hen & st1 & Hst1 & Hent)|(_ & Hst)].
  - assert (st1 = st') by congruence. subst st1.
    destruct Hen as (Hc' & _ & Hg2). destruct Hent as (Hwf' & _ & _ & Hvo & _).
    split; [done|]. intros c Hc Hm.
    destruct (decide (c = move (x, y) dir)) as [->|Hne]; [by right|].
    apply Hav; [done|]. by rewrite <- Hvo.
  - assert (st = st') by congruence. by subst st'.
Qed.

(** One traversal on any rectangular grid returns, and enters no cell with
    marker 2. *)
Lemma traversal_avoids_2 (visit_id i j : Z) (dist0 reach0 vm0 : list (list Z)) :
  inb m n (i, j) → (i, j) ∈ starts →
  shaped m n dist0 → shaped m n reach0 → shaped m n vm0 →
  marks_avoid_2 grid m n starts vm0 →
  ∃ dist1 reach1 vm1,
    bfs_from_house grid m n (dist0, reach0, vm0, visit_id) (i, j)
    = Some (dist1, reach1, vm1, visit_id + 1)
    ∧ shaped m n dist1 ∧ shaped m n reach1 ∧ shaped m n vm1
    ∧ marks_avoid_2 grid m n starts vm1.
Proof.
  intros Hsrc Hstart Hd0 Hr0 Hv0 Hav0. unfold bfs_from_house.
  destruct (setitem2_at m n vm0 i j visit_id Hv0 Hsrc) as (vm1 & -> & Hv1 & Hvc & Hvo).
  cbn -[bfs_while].
  set (st0 := BfsState dist0 reach0 vm1 [(i, j, 0)]).
  assert (Hwf0 : wf_state m n st0).
  { split_and!; [done..|]. simpl. by apply Forall_singleton. }
  destruct (bfs_while_fuel grid m n visit_id Hgrid (S (m * n)) st0 Hwf0)
    as (st' & Hrun & Hwf' & Hq').
  { simpl. pose proof (unmarked_le m n visit_id vm1). lia. }
  rewrite Hrun. simpl.
  destruct (bfs_while_inv grid m n visit_id Hgrid
              (λ st, marks_avoid_2 grid m n starts (visited_mark st))
              (S (m * n)) st0 st')
    as [Hav' _]; [| |done..|].
  - intros st x y d q st1 HI Hwf Hq Hst1.
    apply (foldM_inv_Some
             (λ st, wf_state m n st ∧ marks_avoid_2 grid m n starts (visited_mark st))
             _ _ _ _ (λ s s' dir _, visit_neighbor_avoids_2 visit_id x y d s s' dir)) in Hst1.
    + apply Hst1.
    + split; [by eapply wf_state_pop|done].
  - simpl. intros c Hc Hm. destruct (decide (c = (i, j))) as [->|Hne]; [by left|].
    apply Hav0; [done|]. by rewrite <- Hvo.
  - exists (dist st'), (reach st'), (visited_mark st').
    destruct Hwf' as (? & ? & ? & _). done.
Qed.

Lemma bfs_fold_avoids_2 (hs : list (Z * Z)) :
  Forall (λ h, inb m n h ∧ h ∈ starts) hs →
  ∀ dist0 reach0 vm0 visit_id,
  shaped m n dist0 → shaped m n reach0 → shaped m n vm0 →
  marks_avoid_2 grid m n starts vm0 →
  ∃ dist1 reach1 vm1,
    foldM (bfs_from_house grid m n) hs (dist0, reach0, vm0, visit_id)
    = Some (dist1, reach1, vm1, visit_id + Z.of_nat (length hs))
    ∧ shaped m n dist1 ∧ shaped m n reach1 ∧ shaped m n vm1
    ∧ marks_avoid_2 grid m n starts vm1.
Proof.
  induction 1 as [|[i j] hs [Hin Hst] _ IH];
    intros dist0 reach0 vm0 visit_id Hd0 Hr0 Hv0 Hav0.
  - exists dist0, reach0, vm0. simpl. rewrite Z.add_0_r. done.
  - destruct (traversal_avoids_2 visit_id i j dist0 reach0 vm0)
      as (dist1 & reach1 & vm1 & Hrun & Hd1 & Hr1 & Hv1 & Hav1); try done.
    destruct (IH dist1 reach1 vm1 (visit_id + 1))
      as (dist2 & reach2 & vm2 & Hrun2 & Hd2 & Hr2 & Hv2 & Hav2); try done.
    exists dist2, reach2, vm2. split_and!; [|done..].
    cbn [foldM]. rewrite Hrun. cbn [mbind option_bind]. rewrite Hrun2.
    do 2 f_equal. simpl length. lia.
Qed.

End AnyGrid.

(** C5, as the code has it. In the traversal engine a neighbour is entered
    exactly when it is inside the grid, not yet visited by the current
    traversal, and its marker is not 2; otherwise the step changes nothing.
    So on every rectangular grid, with the houses inside it, the engine's
    traversals return and never enter a cell whose marker is 2 (the start
    cells listed in [houses] apart). *)
Theorem traversal_enters_unless_marker_2 (grid : list (list Z)) (m n : nat)
    (houses : list (Z * Z)) :
  shaped m n grid → Forall (inb m n) houses →
  (∀ visit_id x y d st dir, wf_state m n st →
     (enterable grid m n visit_id st (move (x, y) dir)
      ∧ ∃ st', visit_neighbor grid m n visit_id x y d st dir = Some st'
               ∧ entered grid m n visit_id (move (x, y) dir) d st st')
     ∨ (¬ enterable grid m n visit_id st (move (x, y) dir)
        ∧ visit_neighbor grid m n visit_id x y d st dir = Some st))
  ∧ ∃ dist1 reach1 vm1 visit_id,
      bfs_all grid houses m n = Some (dist1, reach1, vm1, visit_id)
      ∧ marks_avoid_2 grid m n houses vm1.
Proof.
  intros Hgrid Hhs. split.
  - intros visit_id x y d st dir Hwf. by apply visit_neighbor_cases.
  - unfold bfs_all.
    destruct (bfs_fold_avoids_2 grid m n houses Hgrid houses) with
      (dist0 := zeros2 m n) (reach0 := zeros2 m n) (vm0 := zeros2 m n) (visit_id := 1)
      as (dist1 & reach1 & vm1 & -> & _ & _ & _ & Hav);
      [|apply zeros2_shaped..| |].
    + rewrite Forall_forall in Hhs. apply Forall_forall. intros h Hh.
      split; [by apply Hhs|by apply list_elem_of_In].
    + intros c _ Hc. by rewrite cell_zeros2 in Hc.
    + eexists _, _, _, _. done.
Qed.

(** C5, as stated, fails: the cell (0, 1) of [[1, 3, 0]] has marker 3 and is
    entered by the traversal from the house at (0, 0). *)
Lemma marker_3_is_entered : ¬ enters_only_01 [[1; 3; 0]] [(0, 0)] 1 3.
Proof.
  intros H.
  destruct (H [[0; 0; 2]] [[0; 0; 1]] [[1; 1; 1]] 2 eq_refl (0, 1)) as [H3|H3].
  - split; simpl; lia.
  - done.
  - done.
  - done.
Qed.

(** ** The reach counter against the solver's [total_houses] *)

Section ReachBound.
Variables (grid : list (list Z)) (m n : nat).
Hypothesis Hgrid : shaped m n grid.

(** Within one traversal a cell's reach counter grows by at most one, and
    only if the cell carries the traversal's mark. *)
Lemma visit_neighbor_reach (visit_id x y d : Z) (reach0 : list (list Z))
    (st st' : bfs_state) (dir : Z * Z) :
  wf_state m n st
  ∧ (∀ c, inb m n c → cell (visited_mark st) c ≤ visit_id)
  ∧ (∀ c, inb m n c →
       cell (reach st) c
       ≤ cell reach0 c + (if bool_decide (cell (visited_mark st) c = visit_id) then 1 else 0)) →
  visit_neighbor grid m n visit_id x y d st dir = Some st' →
  wf_state m n st'
  ∧ (∀ c, inb m n c → cell (visited_mark st') c ≤ visit_id)
  ∧ (∀ c, inb m n c →
       cell (reach st') c
       ≤ cell reach0 c + (if bool_decide (cell (visited_mark st') c = visit_id) then 1 else 0)).
Proof.
  intros (Hwf & Hle & Hre) Hrun.
  destruct (visit_neighbor_cases grid m n visit_id Hgrid x y d st dir Hwf)
    as [(Hen & st1 & Hst1 & Hent)|(_ & Hst)].
  - assert (st1 = st') by congruence. subst st1.
    destruct Hen as (Hc' & Hvm & _).
    destruct Hent as (Hwf' & _ & Hvc & Hvo & _ & Hrr).
    split_and!; [done| |].
    + intros c Hc. destruct (decide (c = move (x, y) dir)) as [->|Hne]; [lia|].
      rewrite Hvo by done. by apply Hle.
    + intros c Hc. rewrite Hrr by done. specialize (Hre c Hc).
      destruct (decide (c = move (x, y) dir)) as [->|Hne].
      * rewrite (bool_decide_eq_false_2 (cell (visited_mark st) _ = _)) in Hre by done.
        rewrite (bool_decide_eq_true_2 (cell (visited_mark st') _ = _)) by done.
        case_bool_decide; lia.
      * rewrite (bool_decide_eq_false_2 (c = _ ∧ _)) by tauto.
        rewrite Hvo by done. lia.
  - assert (st = st') by congruence. by subst st'.
Qed.

Lemma traversal_reach (visit_id i j : Z) (dist0 reach0 vm0 : list (list Z)) :
  inb m n (i, j) →
  shaped m n dist0 → shaped m n reach0 → shaped m n vm0 →
  (∀ c, inb m n c → cell vm0 c < visit_id) →
  ∃ dist1 reach1 vm1,
    bfs_from_house grid m n (dist0, reach0, vm0, visit_id) (i, j)
    = Some (dist1, reach1, vm1, visit_id + 1)
    ∧ shaped m n dist1 ∧ shaped m n reach1 ∧ shaped m n vm1
    ∧ (∀ c, inb m n c → cell vm1 c < visit_id + 1)
    ∧ (∀ c, inb m n c → cell reach1 c ≤ cell reach0 c + 1).
Proof.
  intros Hsrc Hd0 Hr0 Hv0 Hfresh. unfold bfs_from_house.
  destruct (setitem2_at m n vm0 i j visit_id Hv0 Hsrc) as (vm1 & -> & Hv1 & Hvc & Hvo).
  cbn -[bfs_while].
  set (st0 := BfsState dist0 reach0 vm1 [(i, j, 0)]).
  assert (Hwf0 : wf_state m n st0).
  { split_and!; [done..|]. simpl. by apply Forall_singleton. }
  destruct (bfs_while_fuel grid m n visit_id Hgrid (S (m * n)) st0 Hwf0)
    as (st' & Hrun & Hwf' & Hq').
  { simpl. pose proof (unmarked_le m n visit_id vm1). lia. }
  rewrite Hrun. simpl.
  destruct (bfs_while_inv grid m n visit_id Hgrid
              (λ st, (∀ c, inb m n c → cell (visited_mark st) c ≤ visit_id)
                     ∧ (∀ c, inb m n c →
                          cell (reach st) c
                          ≤ cell reach0 c
                            + (if bool_decide (cell (visited_mark st) c = visit_id)
                               then 1 else 0)))
              (S (m * n)) st0 st')
    as [[Hle' Hre'] _]; [| |done..|].
  - intros st x y d q st1 HI Hwf Hq Hst1.
    apply (foldM_inv_Some
             (λ st, wf_state m n st
                    ∧ (∀ c, inb m n c → cell (visited_mark st) c ≤ visit_id)
                    ∧ (∀ c, inb m n c →
                         cell (reach st) c
                         ≤ cell reach0 c
                           + (if bool_decide (cell (visited_mark st) c = visit_id)
                              then 1 else 0)))
             _ _ _ _
             (λ s s' dir _, visit_neighbor_reach visit_id x y d reach0 s s' dir)) in Hst1.
    + apply Hst1.
    + split; [by eapply wf_state_pop|done].
  - simpl. split.
    + intros c Hc. destruct (decide (c = (i, j))) as [->|Hne]; [lia|].
      rewrite Hvo by done. specialize (Hfresh c Hc). lia.
    + intros c Hc. case_bool_decide; lia.
  - exists (dist st'), (reach st'), (visited_mark st').
    destruct Hwf' as (? & ? & ? & _). split_and!; [done..| |].
    + intros c Hc. specialize (Hle' c Hc). lia.
    + intros c Hc. specialize (Hre' c Hc). case_bool_decide; lia.
Qed.

(** After all traversals no reach counter exceeds the number of houses. *)
Lemma bfs_fold_reach (hs : list (Z * Z)) :
  Forall (inb m n) hs →
  ∀ dist0 reach0 vm0 visit_id,
  shaped m n dist0 → shaped m n reach0 → shaped m n vm0 →
  (∀ c, inb m n c → cell vm0 c < visit_id) →
  ∃ dist1 reach1 vm1,
    foldM (bfs_from_house grid m n) hs (dist0, reach0, vm0, visit_id)
    = Some (dist1, reach1, vm1, visit_id + Z.of_nat (length hs))
    ∧ shaped m n dist1 ∧ shaped m n reach1
    ∧ (∀ c, inb m n c → cell reach1 c ≤ cell reach0 c + Z.of_nat (length hs)).
Proof.
  induction 1 as [|[i j] hs Hin _ IH];
    intros dist0 reach0 vm0 visit_id Hd0 Hr0 Hv0 Hfresh.
  - exists dist0, reach0, vm0. simpl. rewrite Z.add_0_r. split_and!; [done..|].
    intros. lia.
  - destruct (traversal_reach visit_id i j dist0 reach0 vm0)
      as (dist1 & reach1 & vm1 & Hrun & Hd1 & Hr1 & Hv1 & Hfresh1 & Hre1); try done.
    destruct (IH dist1 reach1 vm1 (visit_id + 1))
      as (dist2 & reach2 & vm2 & Hrun2 & Hd2 & Hr2 & Hre2); try done.
    exists dist2, reach2, vm2. split_and!; [|done..|].
    + cbn [foldM]. rewrite Hrun. cbn [mbind option_bind]. rewrite Hrun2.
      do 2 f_equal. simpl length. lia.
    + intros c Hc. specialize (Hre1 c Hc). specialize (Hre2 c Hc).
      simpl length. lia.
Qed.

(** The traversal engine returns -1 whenever [total_houses] exceeds the
    number of houses it is given. *)
Lemma bfs_total_distance_excess (hs : list (Z * Z)) (total_houses : Z) :
  Forall (inb m n) hs → Z.of_nat (length hs) < total_houses →
  _bfs_total_distance grid hs m n total_houses = Some (-1).
Proof.
  intros Hhs Hlt. unfold _bfs_total_distance, bfs_all.
  destruct (bfs_fold_reach hs Hhs (zeros2 m n) (zeros2 m n) (zeros2 m n) 1)
    as (dist1 & reach1 & vm1 & -> & Hd1 & Hr1 & Hre); [apply zeros2_shaped..| |].
  { intros c _. rewrite cell_zeros2. lia. }
  simpl. rewrite (min_over_reached_spec grid dist1 reach1 m n) by done. simpl.
  rewrite filter_none; [done|].
  intros c Hc [_ Heq]. apply elem_of_cells in Hc. specialize (Hre c Hc).
  rewrite cell_zeros2 in Hre. lia.
Qed.

End ReachBound.

Lemma Zsum_ge_ones {A} (f : A → Z) (l : list A) :
  (∀ x, x ∈ l → 0 ≤ f x) →
  Z.of_nat (length (filter (λ x, f x = 1) l)) ≤ Zsum (f <$> l)
  ∧ (Zsum (f <$> l) = Z.of_nat (length (filter (λ x, f x = 1) l)) →
     ∀ x, x ∈ l → f x = 0 ∨ f x = 1).
Proof.
  induction l as [|x l IH]; intros Hpos.
  - split; [done|]. intros _ x Hx. by apply elem_of_nil in Hx.
  - destruct IH as [IH1 IH2]; [intros; apply Hpos; by right|].
    assert (0 ≤ f x) by (apply Hpos; by left).
    rewrite fmap_cons, Zsum_cons, filter_cons.
    destruct (decide (f x = 1)) as [H1|H1]; simpl length.
    + split; [lia|]. intros Heq y Hy. apply elem_of_cons in Hy as [->|Hy]; [by right|].
      apply IH2; [lia|done].
    + split; [lia|]. intros Heq y Hy. apply elem_of_cons in Hy as [->|Hy].
      * left. lia.
      * apply IH2; [lia|done].
Qed.

(** With no negative marker, every grid that is sent to the traversal
    engine gets -1: the solver passes the sum of the markers as
    [total_houses], and a marker outside 0 and 1 makes that sum larger than
    the number of houses, which no reach counter attains. *)
Lemma traversal_path_returns_minus_one (grid : list (list Z)) (m n : nat) :
  shaped m n grid → (0 < m)%nat → (0 < n)%nat →
  (∀ c, inb m n c → 0 ≤ cell grid c) →
  has_only_01 grid = false →
  min_total_distance grid = Some (-1).
Proof.
  intros Hgrid Hm Hn Hpos H01.
  rewrite (min_total_distance_shaped grid m n) by done.
  case_bool_decide as Htot; [done|].
  rewrite (houses_of_spec m n) by done. rewrite H01. simpl.
  apply (bfs_total_distance_excess grid m n Hgrid); [apply house_cells_inb|].
  destruct (Zsum_ge_ones (cell grid) (cells m n)) as [Hge Heq].
  { intros c Hc. apply Hpos. by apply elem_of_cells. }
  unfold total_of. rewrite (concat_shaped m n) by done.
  fold (house_cells grid m n) in Hge, Heq.
  destruct (decide (Zsum (cell grid <$> cells m n)
                    = Z.of_nat (length (house_cells grid m n)))) as [He|He]; [|lia].
  exfalso. assert (has_only_01 grid = true); [|congruence].
  apply (has_only_01_spec m n); [done|].
  intros c Hc. apply Heq; [done|]. by apply elem_of_cells.
Qed.

Lemma total_manhattan_nonneg (hs : list (Z * Z)) (c : Z * Z) :
  0 ≤ total_manhattan hs c.
Proof.
  unfold total_manhattan. induction hs as [|h hs IH]; [done|].
  rewrite fmap_cons, Zsum_cons. pose proof (manhattan_nonneg h c). lia.
Qed.

(** X17. On a rectangular grid of 0s and 1s the sentinel -1 has exactly
    two causes, no house or no empty cell, and every other result is a cost
    that is not negative. *)
Lemma fast_path_sentinel (grid : list (list Z)) (m n : nat) :
  shaped m n grid → (0 < m)%nat → (0 < n)%nat → has_only_01 grid = true →
  ∃ r, min_total_distance grid = Some r
       ∧ (r = -1 ↔ (¬ ∃ c, inb m n c ∧ cell grid c = 1)
                   ∨ (¬ ∃ c, inb m n c ∧ cell grid c = 0))
       ∧ (r ≠ -1 → 0 ≤ r).
Proof.
  intros Hgrid Hm Hn H01.
  rewrite (min_total_distance_shaped grid m n) by done.
  rewrite (total_of_01 m n) by done.
  rewrite (houses_of_spec m n) by done. rewrite H01. simpl.
  rewrite (fast_total_distance_spec grid m n) by (done || apply house_cells_inb).
  set (hs := house_cells grid m n).
  set (cands := total_manhattan hs <$> filter (λ c, cell grid c = 0) (cells m n)).
  assert (Hnn : ∀ x, x ∈ cands → 0 ≤ x).
  { intros x Hx. apply list_elem_of_fmap in Hx as (c & -> & _).
    apply total_manhattan_nonneg. }
  case_bool_decide as Hlen.
  - exists (-1). split_and!; [done| |done]. split; [|done]. intros _. left.
    intros (c & Hc & H1).
    assert (c ∈ hs) by (by apply elem_of_house_cells).
    destruct hs; [by apply elem_of_nil in H|simpl in Hlen; lia].
  - destruct (min_of cands) as [|v] eqn:Hmin; simpl.
    + exists (-1). split_and!; [done| |done]. split; [|done]. intros _. right.
      intros (c & Hc & H0). apply min_of_nil_iff in Hmin.
      assert (Hin : total_manhattan hs c ∈ cands).
      { apply list_elem_of_fmap. exists c. split; [done|].
        apply list_elem_of_filter. split; [done|by apply elem_of_cells]. }
      rewrite Hmin in Hin. by apply elem_of_nil in Hin.
    + exists v. apply min_of_Fin in Hmin as [Hv _]. specialize (Hnn v Hv).
      split_and!; [done| |lia]. split; [lia|].
      intros [Hno|Hno]; exfalso.
      * destruct hs as [|h hs'] eqn:Ehs; [done|].
        assert (Hh : h ∈ house_cells grid m n) by (fold hs; rewrite Ehs; by left).
        apply elem_of_house_cells in Hh. apply Hno. by exists h.
      * apply list_elem_of_fmap in Hv as (c & _ & Hc).
        apply list_elem_of_filter in Hc as [H0 Hc]. apply elem_of_cells in Hc.
        apply Hno. by exists c.
Qed.

(** With at least one house and no negative marker the zero-house guard is
    passed and the solver dispatches on the classification. *)
Lemma dispatch_nonneg (grid : list (list Z)) (m n : nat) :
  shaped m n grid → (∃ c, inb m n c ∧ cell grid c = 1) →
  (∀ c, inb m n c → 0 ≤ cell grid c) →
  min_total_distance grid
  = houses ← houses_of grid m n;
    if has_only_01 grid then _fast_total_distance grid houses m n (total_of grid)
    else _bfs_total_distance grid houses m n (total_of grid).
Proof.
  intros Hgrid (h & Hh & H1) Hpos. destruct (inb_pos m n h Hh) as [Hm Hn].
  rewrite (min_total_distance_shaped grid m n) by done.
  rewrite bool_decide_eq_false_2; [done|].
  destruct (Zsum_ge_ones (cell grid) (cells m n)) as [Hge _].
  { intros c Hc. apply Hpos. by apply elem_of_cells. }
  unfold total_of. rewrite (concat_shaped m n) by done.
  fold (house_cells grid m n) in Hge.
  assert (Hin : h ∈ house_cells grid m n) by (by apply elem_of_house_cells).
  destruct (house_cells grid m n); [by apply elem_of_nil in Hin|].
  simpl length in Hge. lia.
Qed.

(** C1, at the grid [[1, 0, 2]]. The grid has a marker outside 0 and 1,
    one house at (0, 0), and the empty cell (0, 1) next to it, so the
    minimum summed distance over the empty cells reachable from every house
    is 1, which is what the traversal engine returns when it is given the
    number of houses.  The solver passes the sum of the markers, 3, and
    returns -1. *)
Theorem traversal_path_misses_reachable_cell :
  has_only_01 [[1; 0; 2]] = false
  ∧ houses_of [[1; 0; 2]] 1 3 = Some [(0, 0)]
  ∧ cell [[1; 0; 2]] (0, 1) = 0
  ∧ manhattan (0, 0) (0, 1) = 1
  ∧ _bfs_total_distance [[1; 0; 2]] [(0, 0)] 1 3 1 = Some 1
  ∧ total_of [[1; 0; 2]] = 3
  ∧ min_total_distance [[1; 0; 2]] = Some (-1).
Proof. by vm_compute. Qed.

(** C2, at the grid [[1, 2], [0, 0]]. The grid has rows of width 2, one
    house at (0, 0) and the empty cell (1, 0) next to it, reachable from
    every house: none of the listed causes of -1 holds, and the traversal
    engine, given the number of houses, returns the cost 1.  The solver
    returns -1. *)
Theorem sentinel_without_listed_cause :
  shaped 2 2 [[1; 2]; [0; 0]]
  ∧ house_cells [[1; 2]; [0; 0]] 2 2 = [(0, 0)]
  ∧ cell [[1; 2]; [0; 0]] (1, 0) = 0
  ∧ move (0, 0) (1, 0) = (1, 0)
  ∧ _bfs_total_distance [[1; 2]; [0; 0]] [(0, 0)] 2 2 1 = Some 1
  ∧ min_total_distance [[1; 2]; [0; 0]] = Some (-1).
Proof.
  split_and!; try by vm_compute.
  split; [done|]. by repeat constructor.
Qed.

(** C6, at the grid [[1, 2, 0, -3]]. The grid is rectangular, not
    degenerate, has a house at (0, 0) and markers outside 0 and 1; its
    markers sum to 0, so the solver returns -1 at the zero-house guard and
    the traversal engine is not called: on the same arguments it returns
    0. *)
Theorem zero_sum_grid_is_not_dispatched :
  shaped 1 4 [[1; 2; 0; -3]]
  ∧ houses_of [[1; 2; 0; -3]] 1 4 = Some [(0, 0)]
  ∧ has_only_01 [[1; 2; 0; -3]] = false
  ∧ total_of [[1; 2; 0; -3]] = 0
  ∧ _bfs_total_distance [[1; 2; 0; -3]] [(0, 0)] 1 4 (total_of [[1; 2; 0; -3]])
    = Some 0
  ∧ min_total_distance [[1; 2; 0; -3]] = Some (-1).
Proof.
  split_and!; try by vm_compute.
  split; [done|]. by repeat constructor.
Qed.

(** ** The theorems at concrete grids *)

Lemma engines_agree_witness :
  ∃ houses r,
    houses_of [[1; 0]; [0; 1]] 2 2 = Some houses
    ∧ _fast_total_distance [[1; 0]; [0; 1]] houses 2 2 (Z.of_nat (length houses)) = Some r
    ∧ _bfs_total_distance [[1; 0]; [0; 1]] houses 2 2 (Z.of_nat (length houses)) = Some r.
Proof.
  apply (engines_agree [[1; 0]; [0; 1]] 2 2).
  - split; [reflexivity|]. repeat constructor.
  - reflexivity.
  - exists (0, 0). split; [split; simpl; lia|reflexivity].
  - exists (0, 1). split; [split; simpl; lia|reflexivity].
Defined.

Lemma fast_path_cost_is_manhattan_witness :
  ∃ houses cost_row cost_col,
    houses_of [[1; 0; 0; 0; 1]; [0; 0; 0; 0; 0]; [0; 0; 1; 0; 0]] 3 5 = Some houses
    ∧ (∀ h, h ∈ houses ↔
         inb 3 5 h ∧ cell [[1; 0; 0; 0; 1]; [0; 0; 0; 0; 0]; [0; 0; 1; 0; 0]] h = 1)
    ∧ cost_arrays houses 3 5
        (total_of [[1; 0; 0; 0; 1]; [0; 0; 0; 0; 0]; [0; 0; 1; 0; 0]])
      = Some (cost_row, cost_col)
    ∧ ∀ i j, inb 3 5 (i, j) →
        ∃ a b, getitem cost_row i = Some a ∧ getitem cost_col j = Some b
               ∧ a + b = Zsum ((λ h, Z.abs (h.1 - i) + Z.abs (h.2 - j)) <$> houses).
Proof.
  apply (fast_path_cost_is_manhattan
           [[1; 0; 0; 0; 1]; [0; 0; 0; 0; 0]; [0; 0; 1; 0; 0]] 3 5).
  - split; [reflexivity|]. repeat constructor.
  - reflexivity.
  - exists (0, 0). split; [split; simpl; lia|reflexivity].
Defined.

Lemma traversal_enters_unless_marker_2_witness :
  (∀ visit_id x y d st dir, wf_state 3 3 st →
     (enterable [[1; 2; 0]; [2; 2; 0]; [0; 0; 1]] 3 3 visit_id st (move (x, y) dir)
      ∧ ∃ st', visit_neighbor [[1; 2; 0]; [2; 2; 0]; [0; 0; 1]] 3 3 visit_id x y d st dir
               = Some st'
               ∧ entered [[1; 2; 0]; [2; 2; 0]; [0; 0; 1]] 3 3 visit_id
                   (move (x, y) dir) d st st')
     ∨ (¬ enterable [[1; 2; 0]; [2; 2; 0]; [0; 0; 1]] 3 3 visit_id st (move (x, y) dir)
        ∧ visit_neighbor [[1; 2; 0]; [2; 2; 0]; [0; 0; 1]] 3 3 visit_id x y d st dir
          = Some st))
  ∧ ∃ dist1 reach1 vm1 visit_id,
      bfs_all [[1; 2; 0]; [2; 2; 0]; [0; 0; 1]] [(0, 0); (2, 2)] 3 3
      = Some (dist1, reach1, vm1, visit_id)
      ∧ marks_avoid_2 [[1; 2; 0]; [2; 2; 0]; [0; 0; 1]] 3 3 [(0, 0); (2, 2)] vm1.
Proof.
  apply (traversal_enters_unless_marker_2
           [[1; 2; 0]; [2; 2; 0]; [0; 0; 1]] 3 3 [(0, 0); (2, 2)]).
  - split; [reflexivity|]. repeat constructor.
  - repeat constructor; simpl; lia.
Defined.

Lemma single_house_cost_one_witness :
  min_total_distance [[0; 0; 0]; [0; 1; 0]; [0; 0; 0]] = Some 1
  ∧ houses_of [[0; 0; 0]; [0; 1; 0]; [0; 0; 0]] 3 3 = Some [(1, 1)]
  ∧ ∃ cost_row cost_col,
      cost_arrays [(1, 1)] 3 3 (total_of [[0; 0; 0]; [0; 1; 0]; [0; 0; 0]])
      = Some (cost_row, cost_col)
      ∧ ∀ dir, dir ∈ directions → inb 3 3 (move (1, 1) dir) →
          cell [[0; 0; 0]; [0; 1; 0]; [0; 0; 0]] (move (1, 1) dir) = 0
          ∧ ∃ a b, getitem cost_row (1 + dir.1) = Some a
                   ∧ getitem cost_col (1 + dir.2) = Some b ∧ a + b = 1.
Proof.
  apply (single_house_cost_one [[0; 0; 0]; [0; 1; 0]; [0; 0; 0]] 3 3 1 1).
  - split; [reflexivity|]. repeat constructor.
  - simpl. lia.
  - split; simpl; lia.
  - reflexivity.
  - intros [x y] [Hx Hy] Hne. simpl in Hx, Hy.
    assert (Hxs : x = 0 ∨ x = 1 ∨ x = 2) by lia.
    assert (Hys : y = 0 ∨ y = 1 ∨ y = 2) by lia.
    destruct Hxs as [-> | [-> | ->]], Hys as [-> | [-> | ->]];
      try reflexivity. congruence.
Defined.

(** ** The store: reading and writing *)

Lemma hext_refl (base : nat) (h : Imp.heap) : Imp.hext base h h.
Proof. split; [lia|done]. Qed.

Lemma hext_trans (base : nat) (h1 h2 h3 : Imp.heap) :
  Imp.hext base h1 h2 → Imp.hext base h2 h3 → Imp.hext base h1 h3.
Proof.
  intros [Hl1 He1] [Hl2 He2]. split; [lia|].
  intros l Hl. by rewrite He2, He1.
Qed.

Lemma hext_app (base : nat) (h x : Imp.heap) :
  (base ≤ length h)%nat → Imp.hext base h (h ++ x).
Proof.
  intros Hb. split; [rewrite length_app; lia|].
  intros l Hl. apply lookup_app_l. lia.
Qed.

Lemma hupd_hext (base : nat) (ws : list nat) (h h' : Imp.heap) :
  Imp.hupd ws h h' → Forall (λ l, (base ≤ l)%nat) ws → Imp.hext base h h'.
Proof.
  intros [Hlen Hup] Hws. split; [lia|]. intros l Hl. apply Hup.
  intros Hin. rewrite Forall_forall in Hws.
  apply list_elem_of_In, Hws in Hin. lia.
Qed.

Lemma hext_length (base : nat) (h h' : Imp.heap) :
  Imp.hext base h h' → (base ≤ length h)%nat → (base ≤ length h')%nat.
Proof. intros [Hl _] Hb. lia. Qed.

Lemma load_is_row (h : Imp.heap) (l : nat) (r : list Z) (i : Z) :
  Imp.is_row h l r → Imp.load l i h = (getitem r i, h).
Proof.
  intros Hr. unfold Imp.load, Imp.bind, Imp.get_row, Imp.lift.
  unfold Imp.is_row in Hr. by rewrite Hr.
Qed.

Lemma store_is_row (h : Imp.heap) (l : nat) (r : list Z) (i v : Z) :
  Imp.is_row h l r →
  Imp.store l i v h
  = match setitem r i v with
    | Some r' => (Some (), <[l := Imp.ORow r']> h)
    | None => (None, h)
    end.
Proof.
  intros Hr. unfold Imp.store, Imp.bind, Imp.get_row, Imp.lift, Imp.put_row.
  unfold Imp.is_row in Hr. rewrite Hr. by destruct (setitem r i v).
Qed.

Lemma is_rows_length (h : Imp.heap) (a : nat) (ls : list nat) (rs : list (list Z)) :
  Imp.is_rows h a ls rs → length ls = length rs.
Proof. intros [_ H]. by eapply Forall2_length. Qed.

Lemma is_rows_lookup (h : Imp.heap) (a : nat) (ls : list nat) (rs : list (list Z))
    (k : nat) :
  Imp.is_rows h a ls rs → (k < length rs)%nat →
  ∃ l r, ls !! k = Some l ∧ rs !! k = Some r ∧ Imp.is_row h l r.
Proof.
  intros Ha Hk. pose proof (is_rows_length _ _ _ _ Ha) as Hlen. destruct Ha as [_ HF].
  destruct (lookup_lt_is_Some_2 ls k) as [l Hl]; [lia|].
  destruct (lookup_lt_is_Some_2 rs k) as [r Hr]; [lia|].
  exists l, r. split_and!; [done..|].
  by apply (Forall2_lookup_lr _ _ _ _ _ _ HF Hl Hr).
Qed.

Lemma load2_is_rows (h : Imp.heap) (a : nat) (ls : list nat) (rs : list (list Z))
    (i j : Z) :
  Imp.is_rows h a ls rs → Imp.load2 a i j h = (getitem2 rs i j, h).
Proof.
  intros Ha. pose proof (is_rows_length _ _ _ _ Ha) as Hlen.
  unfold Imp.load2, Imp.bind, Imp.get_list, Imp.lift.
  rewrite (proj1 Ha). unfold getitem2, getitem at 1 3. rewrite Hlen.
  destruct (index (length rs) i) as [k|] eqn:Hk; simpl; [|done].
  apply index_lt in Hk.
  destruct (is_rows_lookup _ _ _ _ k Ha Hk) as (l & r & -> & -> & Hr). simpl.
  by apply load_is_row.
Qed.

(** An item assignment through a list of distinct rows changes one of these
    rows and nothing else. *)
Lemma store2_is_rows (h : Imp.heap) (a : nat) (ls : list nat) (rs : list (list Z))
    (i j v : Z) :
  Imp.is_rows h a ls rs → NoDup ls →
  ∃ h', Imp.store2 a i j v h = ((λ _, ()) <$> setitem2 rs i j v, h')
    ∧ Imp.hupd ls h h'
    ∧ ∀ rs', setitem2 rs i j v = Some rs' → Imp.is_rows h' a ls rs'.
Proof.
  intros Ha Hnd. pose proof (is_rows_length _ _ _ _ Ha) as Hlen.
  unfold Imp.store2, Imp.bind, Imp.get_list, Imp.lift.
  rewrite (proj1 Ha). unfold setitem2, getitem. rewrite Hlen.
  destruct (index (length rs) i) as [k|] eqn:Hidx; simpl.
  2:{ exists h. split_and!; [done|split; done|done]. }
  pose proof (index_lt _ _ _ Hidx) as Hk.
  destruct (is_rows_lookup _ _ _ _ k Ha Hk) as (l & r & Hl & Hr & Hrow).
  rewrite Hl, Hr. simpl. rewrite (store_is_row h l r) by done.
  destruct (setitem r j v) as [r'|]; simpl.
  2:{ exists h. split_and!; [done|split; done|done]. }
  unfold setitem. rewrite Hidx. simpl.
  exists (<[l := Imp.ORow r']> h). split_and!; [done| |].
  - split; [apply length_insert|]. intros l' Hl'.
    apply list_lookup_insert_ne. intros ->. apply Hl'.
    by eapply list_elem_of_lookup_2.
  - intros rs' [= <-]. destruct Ha as [Hout HF]. split.
    + rewrite list_lookup_insert_ne; [done|]. intros ->.
      unfold Imp.is_row in Hrow. congruence.
    + apply Forall2_same_length_lookup_2; [by rewrite length_insert|].
      intros k' l' r'' Hl' Hr''.
      destruct (decide (k' = k)) as [->|Hne].
      * rewrite list_lookup_insert_eq in Hr'' by done.
        assert (l' = l) as -> by congruence. injection Hr'' as <-.
        unfold Imp.is_row. apply list_lookup_insert_eq.
        unfold Imp.is_row in Hrow. by eapply lookup_lt_Some.
      * rewrite list_lookup_insert_ne in Hr'' by done.
        assert (l' ≠ l).
        { intros ->. apply Hne. by eapply (NoDup_lookup ls). }
        unfold Imp.is_row. rewrite list_lookup_insert_ne by done.
        by apply (Forall2_lookup_lr _ _ _ _ _ _ HF Hl' Hr'').
Qed.

(** Objects that are not written keep what they hold. *)
Lemma is_row_hupd (ws : list nat) (h h' : Imp.heap) (l : nat) (r : list Z) :
  Imp.hupd ws h h' → l ∉ ws → Imp.is_row h l r → Imp.is_row h' l r.
Proof. intros [_ Hup] Hl Hr. unfold Imp.is_row. by rewrite Hup. Qed.

Lemma is_rows_hupd (ws : list nat) (h h' : Imp.heap) (a : nat) (ls : list nat)
    (rs : list (list Z)) :
  Imp.hupd ws h h' → a ∉ ws → (∀ l, l ∈ ls → l ∉ ws) →
  Imp.is_rows h a ls rs → Imp.is_rows h' a ls rs.
Proof.
  intros Hup Ha Hls [Hout HF]. split.
  - destruct Hup as [_ Hup]. by rewrite Hup.
  - apply Forall2_same_length_lookup_2; [by eapply Forall2_length|].
    intros k l r Hl Hr. eapply is_row_hupd; [done| |].
    + apply Hls. by eapply list_elem_of_lookup_2.
    + by apply (Forall2_lookup_lr _ _ _ _ _ _ HF Hl Hr).
Qed.

Lemma is_rows_hext (base : nat) (h h' : Imp.heap) (a : nat) (ls : list nat)
    (rs : list (list Z)) :
  Imp.hext base h h' → (a < base)%nat → Forall (λ l, (l < base)%nat) ls →
  Imp.is_rows h a ls rs → Imp.is_rows h' a ls rs.
Proof.
  intros [_ Hex] Ha Hls [Hout HF]. split.
  - by rewrite Hex.
  - rewrite Forall_forall in Hls.
    apply Forall2_same_length_lookup_2; [by eapply Forall2_length|].
    intros k l r Hl Hr. unfold Imp.is_row. rewrite Hex.
    + by apply (Forall2_lookup_lr _ _ _ _ _ _ HF Hl Hr).
    + apply Hls, list_elem_of_In. by eapply list_elem_of_lookup_2.
Qed.

Lemma grid_at_hext (base : nat) (h h' : Imp.heap) (grid : nat) (g : list (list Z)) :
  Imp.hext base h h' → Imp.grid_at base h grid g → Imp.grid_at base h' grid g.
Proof.
  intros Hex (gls & Hg & Hb & Hbs). exists gls. split_and!; [|done..].
  by eapply is_rows_hext.
Qed.

(** ** Running the two models side by side *)

Lemma sim_ret {S T} (base : nat) (R : Imp.heap → S → T → Prop) (s : S) (t : T)
    (h : Imp.heap) :
  R h s t → sim base R (Some s) (Imp.ret t) h.
Proof. intros HR. exists (Some t), h. split_and!; [done|apply hext_refl|eauto]. Qed.

Lemma sim_mono {S T} (base : nat) (R R' : Imp.heap → S → T → Prop)
    (p : option S) (c : Imp.M T) (h : Imp.heap) :
  (∀ h' s t, Imp.hext base h h' → R h' s t → R' h' s t) →
  sim base R p c h → sim base R' p c h.
Proof.
  intros HRR (res & h' & Hc & Hex & Hp). exists res, h'. split_and!; [done..|].
  destruct p as [s|]; [|done]. destruct Hp as (t & -> & HR). eauto.
Qed.

(** A step that only reads the store. *)
Lemma sim_read {V S T} (base : nat) (R : Imp.heap → S → T → Prop)
    (o : option V) (c : Imp.M V) (k : V → option S) (K : V → Imp.M T) (h : Imp.heap) :
  c h = (o, h) →
  (∀ v, o = Some v → sim base R (k v) (K v) h) →
  sim base R (o ≫= k) (Imp.bind c K) h.
Proof.
  intros Hc Hk. unfold sim, Imp.bind. rewrite Hc. destruct o as [v|]; simpl.
  - by apply Hk.
  - exists None, h. split_and!; [done|apply hext_refl|done].
Qed.

Lemma hext_mono (base base' : nat) (h h' : Imp.heap) :
  (base' ≤ base)%nat → Imp.hext base h h' → Imp.hext base' h h'.
Proof. intros Hb [Hl He]. split; [done|]. intros l Hl'. apply He. lia. Qed.

(** Sequencing.  The first computation may keep more of the store than the
    whole ([base ≤ base1]): what follows it may rely on that. *)
Lemma sim_bind_at {S T S' T'} (base base1 : nat) (R : Imp.heap → S → T → Prop)
    (R' : Imp.heap → S' → T' → Prop)
    (p : option S) (c : Imp.M T) (k : S → option S') (K : T → Imp.M T') (h : Imp.heap) :
  (base ≤ base1)%nat →
  sim base1 R p c h →
  (∀ h' s t, Imp.hext base1 h h' → R h' s t → sim base R' (k s) (K t) h') →
  sim base R' (p ≫= k) (Imp.bind c K) h.
Proof.
  intros Hb (res & h1 & Hc & Hex & Hp) Hk. unfold sim, Imp.bind. rewrite Hc.
  destruct p as [s|]; simpl.
  - destruct Hp as (t & -> & HR).
    destruct (Hk h1 s t Hex HR) as (res2 & h2 & Hc2 & Hex2 & Hp2).
    exists res2, h2. split_and!; [done| |done].
    eapply hext_trans; [|done]. by eapply hext_mono.
  - subst res. exists None, h1. split_and!; [done| |done]. by eapply hext_mono.
Qed.

Lemma sim_bind {S T S' T'} (base : nat) (R : Imp.heap → S → T → Prop)
    (R' : Imp.heap → S' → T' → Prop)
    (p : option S) (c : Imp.M T) (k : S → option S') (K : T → Imp.M T') (h : Imp.heap) :
  sim base R p c h →
  (∀ h' s t, Imp.hext base h h' → R h' s t → sim base R' (k s) (K t) h') →
  sim base R' (p ≫= k) (Imp.bind c K) h.
Proof. by apply sim_bind_at. Qed.

Lemma sim_foldM {A S T} (base : nat) (R : Imp.heap → S → T → Prop)
    (f : S → A → option S) (F : T → A → Imp.M T) (l : list A) :
  (∀ h s t x, x ∈ l → R h s t → sim base R (f s x) (F t x) h) →
  ∀ h s t, R h s t → sim base R (foldM f l s) (Imp.foldM F l t) h.
Proof.
  induction l as [|x l IH]; intros Hstep h s t HR; simpl.
  - by apply sim_ret.
  - eapply sim_bind; [apply Hstep; [by left|done]|].
    intros h' s' t' _ HR'. apply IH; [|done].
    intros. apply Hstep; [by right|done].
Qed.

(** A loop that only reads the store. *)
Lemma foldM_read {A S} (F : S → A → Imp.M S) (f : S → A → option S) (l : list A)
    (s : S) (h : Imp.heap) :
  (∀ s x, x ∈ l → F s x h = (f s x, h)) →
  Imp.foldM F l s h = (foldM f l s, h).
Proof.
  revert s. induction l as [|x l IH]; intros s HF; simpl; [done|].
  unfold Imp.bind. rewrite HF by left. destruct (f s x) as [s'|]; simpl; [|done].
  apply IH. intros. apply HF. by right.
Qed.

Lemma bind_read {A B} (c : Imp.M A) (K : A → Imp.M B) (o : option A) (h : Imp.heap) :
  c h = (o, h) →
  Imp.bind c K h = match o with Some a => K a h | None => (None, h) end.
Proof. intros Hc. unfold Imp.bind. by rewrite Hc. Qed.

(** ** The grid is only read *)

Lemma get_row_is_row (h : Imp.heap) (l : nat) (r : list Z) :
  Imp.is_row h l r → Imp.get_row l h = (Some r, h).
Proof. intros Hr. unfold Imp.get_row. unfold Imp.is_row in Hr. by rewrite Hr. Qed.

Lemma get_list_is_rows (h : Imp.heap) (a : nat) (ls : list nat) (rs : list (list Z)) :
  Imp.is_rows h a ls rs → Imp.get_list a h = (Some ls, h).
Proof. intros [Ha _]. unfold Imp.get_list. by rewrite Ha. Qed.

Lemma sum_rows_sim (h : Imp.heap) (ls : list nat) (rs : list (list Z)) :
  Forall2 (Imp.is_row h) ls rs →
  ∀ acc,
  Imp.foldM (λ acc l, Imp.bind (Imp.get_row l) (λ r, Imp.ret (acc + Zsum r))) ls acc h
  = (Some (acc + Zsum (concat rs)), h).
Proof.
  induction 1 as [|l r ls rs Hr _ IH]; intros acc.
  - simpl. unfold Imp.ret. by rewrite Z.add_0_r.
  - cbn [Imp.foldM concat].
    assert (Hstep : Imp.bind (Imp.get_row l) (λ r, Imp.ret (acc + Zsum r)) h
                    = (Some (acc + Zsum r), h)).
    { by rewrite (bind_read _ _ _ _ (get_row_is_row h l r Hr)). }
    rewrite (bind_read _ _ _ _ Hstep), IH, Zsum_app. do 2 f_equal. lia.
Qed.

Lemma scan_rows_sim (h : Imp.heap) (ls : list nat) (rs : list (list Z)) :
  Forall2 (Imp.is_row h) ls rs →
  ∀ ok : bool,
  Imp.foldM (λ (ok : bool) l,
      if ok then
        Imp.bind (Imp.get_row l)
          (λ r, Imp.ret (forallb (λ v, bool_decide (v = 0) || bool_decide (v = 1)) r))
      else Imp.ret false) ls ok h
  = (Some (ok && forallb (forallb (λ v, bool_decide (v = 0) || bool_decide (v = 1))) rs), h).
Proof.
  induction 1 as [|l r ls rs Hr _ IH]; intros ok.
  - simpl. unfold Imp.ret. by rewrite andb_true_r.
  - cbn [Imp.foldM forallb]. destruct ok.
    + assert (Hstep :
        Imp.bind (Imp.get_row l)
          (λ r, Imp.ret (forallb (λ v, bool_decide (v = 0) || bool_decide (v = 1)) r)) h
        = (Some (forallb (λ v, bool_decide (v = 0) || bool_decide (v = 1)) r), h)).
      { by rewrite (bind_read _ _ _ _ (get_row_is_row h l r Hr)). }
      rewrite (bind_read _ _ _ _ Hstep), IH. done.
    + assert (Hstep : Imp.ret false h = (Some false, h)) by done.
      rewrite (bind_read _ _ _ _ Hstep), IH. done.
Qed.

Section GridReads.
Variables (h : Imp.heap) (grid : nat) (gls : list nat) (g : list (list Z)).
Hypothesis Hg : Imp.is_rows h grid gls g.

Lemma total_of_sim : Imp.total_of grid h = (Some (total_of g), h).
Proof.
  unfold Imp.total_of.
  rewrite (bind_read _ _ _ _ (get_list_is_rows h grid gls g Hg)).
  rewrite (sum_rows_sim h gls g (proj2 Hg)). by rewrite Z.add_0_l.
Qed.

Lemma has_only_01_sim : Imp.has_only_01 grid h = (Some (has_only_01 g), h).
Proof.
  unfold Imp.has_only_01.
  rewrite (bind_read _ _ _ _ (get_list_is_rows h grid gls g Hg)).
  by rewrite (scan_rows_sim h gls g (proj2 Hg)).
Qed.

Lemma houses_of_sim (m n : nat) : Imp.houses_of grid m n h = (houses_of g m n, h).
Proof.
  unfold Imp.houses_of, houses_of.
  apply foldM_read. intros acc i _. apply foldM_read. intros acc' j _.
  rewrite (bind_read _ _ _ _ (load2_is_rows h grid gls g i j Hg)).
  by destruct (getitem2 g i j).
Qed.

Lemma min_over_empty_sim (cr cc : nat) (crv ccv : list Z) (m n : nat) :
  Imp.is_row h cr crv → Imp.is_row h cc ccv →
  Imp.min_over_empty grid cr cc m n h = (min_over_empty g crv ccv m n, h).
Proof.
  intros Hcr Hcc. unfold Imp.min_over_empty, min_over_empty.
  apply foldM_read. intros acc i _. apply foldM_read. intros acc' j _.
  rewrite (bind_read _ _ _ _ (load2_is_rows h grid gls g i j Hg)).
  destruct (getitem2 g i j) as [v|]; simpl; [|done].
  case_bool_decide; [|done].
  rewrite (bind_read _ _ _ _ (load_is_row h cr crv i Hcr)).
  destruct (getitem crv i) as [a|]; simpl; [|done].
  rewrite (bind_read _ _ _ _ (load_is_row h cc ccv j Hcc)).
  by destruct (getitem ccv j).
Qed.

Lemma min_over_reached_sim (dist reach : nat) (dls rls : list nat)
    (dv rv : list (list Z)) (m n : nat) (total_houses : Z) :
  Imp.is_rows h dist dls dv → Imp.is_rows h reach rls rv →
  Imp.min_over_reached grid dist reach m n total_houses h
  = (min_over_reached g dv rv m n total_houses, h).
Proof.
  intros Hd Hr. unfold Imp.min_over_reached, min_over_reached.
  apply foldM_read. intros acc i _. apply foldM_read. intros acc' j _.
  rewrite (bind_read _ _ _ _ (load2_is_rows h grid gls g i j Hg)).
  destruct (getitem2 g i j) as [v|]; simpl; [|done].
  case_bool_decide; [|done].
  rewrite (bind_read _ _ _ _ (load2_is_rows h reach rls rv i j Hr)).
  destruct (getitem2 rv i j) as [r|]; simpl; [|done].
  case_bool_decide; [|done].
  rewrite (bind_read _ _ _ _ (load2_is_rows h dist dls dv i j Hd)).
  by destruct (getitem2 dv i j).
Qed.

End GridReads.

(** ** New objects and item assignments *)

Lemma sim_base_mono {S T} (base base' : nat) (R : Imp.heap → S → T → Prop)
    (p : option S) (c : Imp.M T) (h : Imp.heap) :
  (base' ≤ base)%nat → sim base R p c h → sim base' R p c h.
Proof.
  intros Hb (res & h' & Hc & Hex & Hp). exists res, h'.
  split_and!; [done| |done]. by eapply hext_mono.
Qed.

Lemma is_row_lt (h : Imp.heap) (l : nat) (r : list Z) :
  Imp.is_row h l r → (l < length h)%nat.
Proof. intros Hr. by eapply lookup_lt_Some. Qed.

Lemma is_row_hext (base : nat) (h h' : Imp.heap) (l : nat) (r : list Z) :
  Imp.hext base h h' → (l < base)%nat → Imp.is_row h l r → Imp.is_row h' l r.
Proof. intros [_ He] Hl Hr. unfold Imp.is_row. by rewrite He. Qed.

Lemma is_row_app (h x : Imp.heap) (l : nat) (r : list Z) :
  Imp.is_row h l r → Imp.is_row (h ++ x) l r.
Proof. intros Hr. unfold Imp.is_row. by apply lookup_app_l_Some. Qed.

Lemma is_row_new (h : Imp.heap) (r : list Z) :
  Imp.is_row (h ++ [Imp.ORow r]) (length h) r.
Proof. unfold Imp.is_row. by rewrite list_lookup_middle. Qed.

(** A new object is above every [base] inside the store. *)
Lemma sim_alloc {S T} (base : nat) (R : Imp.heap → S → T → Prop) (p : option S)
    (o : Imp.obj) (K : nat → Imp.M T) (h : Imp.heap) :
  (base ≤ length h)%nat →
  sim base R p (K (length h)) (h ++ [o]) →
  sim base R p (Imp.bind (Imp.alloc o) K) h.
Proof.
  intros Hb (res & h' & Hc & Hex & Hp). exists res, h'.
  split_and!; [done| |done]. eapply hext_trans; [|done]. by apply hext_app.
Qed.

(** A step that writes the store and returns nothing. *)
Lemma sim_write {U S T} (base : nat) (R : Imp.heap → S → T → Prop)
    (o : option U) (c : Imp.M unit) (k : U → option S) (K : unit → Imp.M T)
    (h h1 : Imp.heap) :
  c h = ((λ _, ()) <$> o, h1) → Imp.hext base h h1 →
  (∀ u, o = Some u → sim base R (k u) (K ()) h1) →
  sim base R (o ≫= k) (Imp.bind c K) h.
Proof.
  intros Hc Hex Hk. unfold sim, Imp.bind. rewrite Hc. destruct o as [u|]; simpl.
  - destruct (Hk u eq_refl) as (res & h2 & Hc2 & Hex2 & Hp).
    exists res, h2. split_and!; [done| |done]. by eapply hext_trans.
  - exists None, h1. done.
Qed.

Lemma sim_write_end {U S} (base : nat) (R : Imp.heap → S → unit → Prop)
    (o : option U) (c : Imp.M unit) (k : U → S) (h h1 : Imp.heap) :
  c h = ((λ _, ()) <$> o, h1) → Imp.hext base h h1 →
  (∀ u, o = Some u → R h1 (k u) ()) →
  sim base R (o ≫= λ u, Some (k u)) c h.
Proof.
  intros Hc Hex Hk. exists ((λ _, ()) <$> o), h1. split_and!; [done..|].
  destruct o as [u|]; simpl; [|done]. exists (). split; [done|]. by apply Hk.
Qed.

(** An item assignment to a row changes that row and nothing else. *)
Lemma store_row_sim (h : Imp.heap) (l : nat) (r : list Z) (i v : Z) :
  Imp.is_row h l r →
  ∃ h', Imp.store l i v h = ((λ _, ()) <$> setitem r i v, h')
    ∧ Imp.hupd [l] h h'
    ∧ ∀ r', setitem r i v = Some r' → Imp.is_row h' l r'.
Proof.
  intros Hr. rewrite (store_is_row h l r) by done.
  destruct (setitem r i v) as [r'|]; simpl.
  - exists (<[l := Imp.ORow r']> h). split_and!; [done| |].
    + split; [apply length_insert|]. intros l' Hl'.
      apply list_lookup_insert_ne. intros ->. apply Hl'. by left.
    + intros ? [= <-]. unfold Imp.is_row. apply list_lookup_insert_eq.
      by eapply is_row_lt.
  - exists h. split_and!; [done|split; done|done].
Qed.

Lemma hupd_one_hext (base l : nat) (h h' : Imp.heap) :
  Imp.hupd [l] h h' → (base ≤ l)%nat → Imp.hext base h h'.
Proof. intros Hup Hl. eapply hupd_hext; [done|]. by apply Forall_singleton. Qed.

Lemma is_row_hupd_one (l l' : nat) (h h' : Imp.heap) (r : list Z) :
  Imp.hupd [l] h h' → l' ≠ l → Imp.is_row h l' r → Imp.is_row h' l' r.
Proof.
  intros Hup Hne Hr. eapply is_row_hupd; [done| |done].
  intros Hin. apply list_elem_of_singleton in Hin. done.
Qed.

(** ** The separable engine over the store *)

(** The counting loop writes the two rows it has been given. *)
Lemma count_loop_sim (base rc cc : nat) (houses : list (Z * Z)) :
  (base ≤ rc)%nat → (base ≤ cc)%nat → rc ≠ cc →
  ∀ h rcv ccv,
  Imp.is_row h rc rcv → Imp.is_row h cc ccv →
  sim base (λ h' (s : list Z * list Z) (_ : unit),
              Imp.is_row h' rc s.1 ∧ Imp.is_row h' cc s.2)
    (foldM (λ '(row_count, col_count) '(i, j),
        ri ← getitem row_count i;
        row_count ← setitem row_count i (ri + 1);
        cj ← getitem col_count j;
        col_count ← setitem col_count j (cj + 1);
        Some (row_count, col_count)) houses (rcv, ccv))
    (Imp.foldM (λ _ '(i, j),
        Imp.bind (Imp.load rc i) (λ ri,
        Imp.bind (Imp.store rc i (ri + 1)) (λ _,
        Imp.bind (Imp.load cc j) (λ cj,
        Imp.store cc j (cj + 1))))) houses ())
    h.
Proof.
  intros Hrc Hcc Hne h rcv ccv Hr Hc.
  apply (sim_foldM base
           (λ h' (s : list Z * list Z) (_ : unit),
              Imp.is_row h' rc s.1 ∧ Imp.is_row h' cc s.2)); [|done].
  clear h rcv ccv Hr Hc. intros h [rcv ccv] [] [i j] _ [Hr Hc]. simpl in Hr, Hc.
  apply sim_read; [by apply load_is_row|]. intros ri _.
  destruct (store_row_sim h rc rcv i (ri + 1) Hr) as (h1 & Hst & Hup & Hr1).
  eapply sim_write; [exact Hst|by eapply hupd_one_hext|]. intros rcv' Hrcv'.
  assert (Hc1 : Imp.is_row h1 cc ccv) by (by eapply is_row_hupd_one).
  apply sim_read; [by apply load_is_row|]. intros cj _.
  destruct (store_row_sim h1 cc ccv j (cj + 1) Hc1) as (h2 & Hst2 & Hup2 & Hc2).
  eapply (sim_write_end _ _ _ _ (λ ccv', (rcv', ccv')));
    [exact Hst2|by eapply hupd_one_hext|].
  intros ccv' Hccv'. simpl. split; [|by apply Hc2].
  eapply is_row_hupd_one; [done|done|]. by apply Hr1.
Qed.

Lemma count_houses_sim (houses : list (Z * Z)) (m n : nat) (h : Imp.heap) :
  sim (length h)
    (λ h' (s : list Z * list Z) (t : nat * nat),
       Imp.is_row h' t.1 s.1 ∧ Imp.is_row h' t.2 s.2)
    (count_houses houses m n) (Imp.count_houses houses m n) h.
Proof.
  unfold count_houses, Imp.count_houses, Imp.new_row.
  apply sim_alloc; [done|]. apply sim_alloc; [rewrite length_app; lia|].
  set (rc := length h). set (cc := length (h ++ [Imp.ORow (zeros m)])).
  assert (Hcc : cc = S rc) by (unfold cc, rc; rewrite length_app; simpl; lia).
  rewrite <- (bind_with_Some (foldM _ houses _)).
  eapply sim_bind.
  - apply (count_loop_sim rc rc cc houses); [lia..| |].
    + apply is_row_app, is_row_new.
    + apply is_row_new.
  - intros h' [rcv ccv] [] _ [Hr Hc]. by apply sim_ret.
Qed.

Lemma weighted_sum_sim (h : Imp.heap) (count : nat) (cv : list Z) (m : nat) :
  Imp.is_row h count cv →
  Imp.weighted_sum count m h = (weighted_sum cv m, h).
Proof.
  intros Hc. unfold Imp.weighted_sum, weighted_sum.
  apply foldM_read. intros acc i _.
  rewrite (bind_read _ _ _ _ (load_is_row h count cv i Hc)).
  by destruct (getitem cv i).
Qed.

Lemma axis_cost_sim (h : Imp.heap) (count : nat) (cv : list Z) (m : nat) (total : Z) :
  Imp.is_row h count cv →
  sim (length h) (λ h' costv cost, Imp.is_row h' cost costv)
    (axis_cost cv m total) (Imp.axis_cost count m total) h.
Proof.
  intros Hc. unfold axis_cost, Imp.axis_cost, Imp.new_row.
  apply sim_alloc; [done|].
  set (cost := length h). set (h1 := h ++ [Imp.ORow (zeros m)]).
  assert (Hc1 : Imp.is_row h1 count cv) by (by apply is_row_app).
  assert (Hcost1 : Imp.is_row h1 cost (zeros m)) by apply is_row_new.
  assert (Hne : count ≠ cost) by (apply is_row_lt in Hc; unfold cost; lia).
  apply sim_read; [by apply weighted_sum_sim|]. intros s _.
  destruct (store_row_sim h1 cost (zeros m) 0 s Hcost1) as (h2 & Hst & Hup & Hcost2).
  eapply sim_write; [exact Hst|by eapply hupd_one_hext|]. intros cost0 Hcost0.
  eapply sim_bind.
  - apply (sim_foldM (length h)
             (λ h' (s : Z * list Z) (prefix : Z),
                prefix = s.1 ∧ Imp.is_row h' cost s.2 ∧ Imp.is_row h' count cv)).
    + intros h' [prefix costv] prefix' r _ (-> & Hcost' & Hcount'). simpl in *.
      apply sim_read; [by apply load_is_row|]. intros c _.
      apply sim_read; [by apply load_is_row|]. intros prev _.
      destruct (store_row_sim h' cost costv r
                  (prev + (2 * (prefix + c) - total)) Hcost')
        as (h3 & Hst3 & Hup3 & Hcost3).
      eapply sim_write; [exact Hst3|by eapply hupd_one_hext|]. intros costv' Hcv'.
      apply sim_ret. simpl. split_and!; [done|by apply Hcost3|].
      by eapply is_row_hupd_one.
    + simpl. split_and!; [done|by apply Hcost2|]. by eapply is_row_hupd_one.
  - intros h' [prefix costv] prefix' _ (_ & Hcost' & _). by apply sim_ret.
Qed.

Lemma fast_total_distance_unfold (g : list (list Z)) (houses : list (Z * Z))
    (m n : nat) (total_houses : Z) :
  _fast_total_distance g houses m n total_houses
  = s ← count_houses houses m n;
    cost_row ← axis_cost s.1 m total_houses;
    cost_col ← axis_cost s.2 n total_houses;
    min_cost ← min_over_empty g cost_row cost_col m n;
    Some (or_minus_one min_cost).
Proof.
  unfold _fast_total_distance, cost_arrays.
  destruct (count_houses houses m n) as [[rc cc]|]; simpl; [|done].
  destruct (axis_cost rc m total_houses); simpl; [|done].
  by destruct (axis_cost cc n total_houses).
Qed.

Lemma fast_total_distance_sim (h : Imp.heap) (grid : nat) (gls : list nat)
    (g : list (list Z)) (houses : list (Z * Z)) (m n : nat) (total_houses : Z) :
  Imp.is_rows h grid gls g →
  sim (length h) (λ _ r r', r' = r)
    (_fast_total_distance g houses m n total_houses)
    (Imp._fast_total_distance grid houses m n total_houses) h.
Proof.
  intros Hg. rewrite fast_total_distance_unfold. unfold Imp._fast_total_distance.
  eapply sim_bind; [apply count_houses_sim|].
  intros h1 [rcv ccv] [rc cc] Hex1 [Hr Hc]. simpl in Hr, Hc. simpl.
  eapply (sim_bind_at _ (length h1));
    [apply Hex1|by apply (axis_cost_sim h1 rc rcv m total_houses)|].
  intros h2 crv cr Hex2 Hcr.
  assert (Hc2 : Imp.is_row h2 cc ccv).
  { apply (is_row_hext (length h1) h1 h2); [done| |done].
    exact (is_row_lt _ _ _ Hc). }
  eapply (sim_bind_at _ (length h2));
    [destruct Hex1, Hex2; lia|by apply (axis_cost_sim h2 cc ccv n total_houses)|].
  intros h3 clv cl Hex3 Hcl.
  assert (Hcr3 : Imp.is_row h3 cr crv).
  { apply (is_row_hext (length h2) h2 h3); [done| |done].
    exact (is_row_lt _ _ _ Hcr). }
  assert (Hg3 : Imp.is_rows h3 grid gls g).
  { assert (Hlt : (grid < length h)%nat) by (eapply lookup_lt_Some, Hg).
    assert (Hlts : Forall (λ l, (l < length h)%nat) gls).
    { destruct Hg as [_ HF]. apply Forall_forall. intros l Hl.
      apply list_elem_of_In in Hl. apply list_elem_of_lookup in Hl as (k & Hk).
      destruct (Forall2_lookup_l _ _ _ _ _ HF Hk) as (r & _ & Hrow).
      by eapply is_row_lt. }
    eapply (is_rows_hext (length h)); [|done..].
    eapply hext_trans; [exact Hex1|].
    eapply hext_trans; (eapply hext_mono; [|done]); destruct Hex1, Hex2; lia. }
  apply sim_read; [by eapply min_over_empty_sim|]. intros mc _.
  by apply sim_ret.
Qed.

(** ** The traversal engine over the store *)

Lemma is_rows_lt (h : Imp.heap) (a : nat) (ls : list nat) (rs : list (list Z)) :
  Imp.is_rows h a ls rs →
  (a < length h)%nat ∧ Forall (λ l, (l < length h)%nat) ls.
Proof.
  intros [Ha HF]. split; [by eapply lookup_lt_Some|].
  apply Forall_forall. intros l Hl.
  apply list_elem_of_In in Hl. apply list_elem_of_lookup in Hl as (k & Hk).
  destruct (Forall2_lookup_l _ _ _ _ _ HF Hk) as (r & _ & Hrow).
  by eapply is_row_lt.
Qed.

Lemma is_rows_app (h x : Imp.heap) (a : nat) (ls : list nat) (rs : list (list Z)) :
  Imp.is_rows h a ls rs → Imp.is_rows (h ++ x) a ls rs.
Proof.
  intros Ha. destruct (is_rows_lt _ _ _ _ Ha) as [Hlt Hlts].
  eapply (is_rows_hext (length h)); [by apply hext_app|done..].
Qed.

(** [m] new rows, one after the other. *)
Lemma new_rows_loop (n : nat) (xs : list Z) :
  ∀ (h : Imp.heap) (ls : list nat),
  Imp.foldM (λ ls _, Imp.bind (Imp.new_row n) (λ l, Imp.ret (ls ++ [l]))) xs ls h
  = (Some (ls ++ seq (length h) (length xs)),
     h ++ replicate (length xs) (Imp.ORow (zeros n))).
Proof.
  induction xs as [|x xs IH]; intros h ls.
  - simpl. unfold Imp.ret. by rewrite !app_nil_r.
  - cbn [Imp.foldM]. unfold Imp.bind at 1. unfold Imp.bind at 1.
    unfold Imp.new_row, Imp.alloc, Imp.ret at 1.
    rewrite IH. rewrite length_app. simpl length.
    rewrite <- !app_assoc. simpl. by rewrite Nat.add_1_r.
Qed.

Lemma bind_run {A B} (c : Imp.M A) (K : A → Imp.M B) (a : A) (h h' : Imp.heap) :
  c h = (Some a, h') → Imp.bind c K h = K a h'.
Proof. intros Hc. unfold Imp.bind. by rewrite Hc. Qed.

Lemma new_rows_run (m n : nat) (h : Imp.heap) :
  Imp.new_rows m n h
  = (Some (length h + m)%nat,
     h ++ replicate m (Imp.ORow (zeros n)) ++ [Imp.OList (seq (length h) m)]).
Proof.
  unfold Imp.new_rows. rewrite (bind_run _ _ _ _ _ (new_rows_loop n _ h [])).
  rewrite length_range, Nat.sub_0_r. unfold Imp.alloc.
  rewrite length_app, length_replicate. simpl. by rewrite <- app_assoc.
Qed.

Lemma new_rows_is_rows (m n : nat) (h : Imp.heap) :
  Imp.is_rows (h ++ replicate m (Imp.ORow (zeros n)) ++ [Imp.OList (seq (length h) m)])
    (length h + m) (seq (length h) m) (zeros2 m n).
Proof.
  split.
  - rewrite lookup_app_r by lia.
    replace (length h + m - length h)%nat with m by lia.
    rewrite lookup_app_r by (rewrite length_replicate; lia).
    rewrite length_replicate, Nat.sub_diag. done.
  - apply Forall2_same_length_lookup_2.
    { unfold zeros2. by rewrite length_seq, length_replicate. }
    intros k l r Hl Hr. apply lookup_seq in Hl as [-> Hk].
    unfold zeros2 in Hr. apply lookup_replicate in Hr as [-> _].
    unfold Imp.is_row. rewrite lookup_app_r by lia.
    replace (length h + k - length h)%nat with k by lia.
    rewrite lookup_app_l by (rewrite length_replicate; lia).
    by apply lookup_replicate_2.
Qed.

Lemma is_rows_rows (h : Imp.heap) (a : nat) (ls : list nat) (rs : list (list Z))
    (l : nat) :
  Imp.is_rows h a ls rs → l ∈ ls → ∃ r, Imp.is_row h l r.
Proof.
  intros [_ HF] Hl. apply list_elem_of_lookup in Hl as (k & Hk).
  destruct (Forall2_lookup_l _ _ _ _ _ HF Hk) as (r & _ & Hrow). eauto.
Qed.

(** Writing rows leaves a list of other rows as it is. *)
Lemma is_rows_hupd_rows (ws : list nat) (h h' : Imp.heap) (b : nat) (ms : list nat)
    (qs : list (list Z)) :
  Imp.hupd ws h h' → (∀ l, l ∈ ws → ∃ r, Imp.is_row h l r) →
  (∀ l, l ∈ ms → l ∉ ws) →
  Imp.is_rows h b ms qs → Imp.is_rows h' b ms qs.
Proof.
  intros Hup Hws Hdisj Hb. eapply is_rows_hupd; [done| |done..].
  intros Hin. destruct (Hws b Hin) as (r & Hr). destruct Hb as [Hout _].
  unfold Imp.is_row in Hr. congruence.
Qed.

Lemma NoDup_app3 {A} (xs ys zs : list A) :
  NoDup (xs ++ ys ++ zs) →
  NoDup xs ∧ NoDup ys ∧ NoDup zs
  ∧ (∀ x, x ∈ xs → x ∉ ys) ∧ (∀ x, x ∈ xs → x ∉ zs) ∧ (∀ x, x ∈ ys → x ∉ zs).
Proof.
  intros H. apply list.NoDup_app in H as (Hx & Hxyz & H).
  apply list.NoDup_app in H as (Hy & Hyz & Hz).
  split_and!; [done..| | |done].
  - intros x Hin Hin'. apply (Hxyz x Hin). apply elem_of_app. by left.
  - intros x Hin Hin'. apply (Hxyz x Hin). apply elem_of_app. by right.
Qed.

Section StoreArrays.
Variables (base : nat) (h : Imp.heap) (A : Imp.arrays) (d r v : list (list Z)).
Hypothesis Hrel : Imp.bfs_rel base h A d r v.

Lemma store_vm_sim (i j x : Z) :
  ∃ h', Imp.store2 (Imp.a_vm A) i j x h = ((λ _, ()) <$> setitem2 v i j x, h')
    ∧ Imp.hext base h h'
    ∧ ∀ v', setitem2 v i j x = Some v' → Imp.bfs_rel base h' A d r v'.
Proof.
  destruct Hrel as (Hd & Hr & Hv & Hnd & Hb).
  apply NoDup_app3 in Hnd as Hnd3. destruct Hnd3 as (Hnd1 & Hnd2 & Hnd3 & H12 & H13 & H23).
  apply Forall_app in Hb as Hb'. destruct Hb' as [Hb1 Hb2].
  apply Forall_app in Hb2 as [Hb2 Hb3].
  destruct (store2_is_rows h _ _ _ i j x Hv Hnd3) as (h' & Hst & Hup & Hnew).
  exists h'. split_and!; [done|by eapply hupd_hext|].
  intros v' Hv'. split_and!; [| |by apply Hnew|done..].
  - eapply is_rows_hupd_rows; [done| | |done].
    + intros l Hl. exact (is_rows_rows h _ _ _ l Hv Hl).
    + apply H13.
  - eapply is_rows_hupd_rows; [done| | |done].
    + intros l Hl. exact (is_rows_rows h _ _ _ l Hv Hl).
    + apply H23.
Qed.

Lemma store_dist_sim (i j x : Z) :
  ∃ h', Imp.store2 (Imp.a_dist A) i j x h = ((λ _, ()) <$> setitem2 d i j x, h')
    ∧ Imp.hext base h h'
    ∧ ∀ d', setitem2 d i j x = Some d' → Imp.bfs_rel base h' A d' r v.
Proof.
  destruct Hrel as (Hd & Hr & Hv & Hnd & Hb).
  apply NoDup_app3 in Hnd as Hnd3. destruct Hnd3 as (Hnd1 & Hnd2 & Hnd3 & H12 & H13 & H23).
  apply Forall_app in Hb as Hb'. destruct Hb' as [Hb1 Hb2].
  apply Forall_app in Hb2 as [Hb2 Hb3].
  destruct (store2_is_rows h _ _ _ i j x Hd Hnd1) as (h' & Hst & Hup & Hnew).
  exists h'. split_and!; [done|by eapply hupd_hext|].
  intros d' Hd'. split_and!; [by apply Hnew| | |done..].
  - eapply is_rows_hupd_rows; [done| | |done].
    + intros l Hl. exact (is_rows_rows h _ _ _ l Hd Hl).
    + intros l Hl Hl'. by apply (H12 l).
  - eapply is_rows_hupd_rows; [done| | |done].
    + intros l Hl. exact (is_rows_rows h _ _ _ l Hd Hl).
    + intros l Hl Hl'. by apply (H13 l).
Qed.

Lemma store_reach_sim (i j x : Z) :
  ∃ h', Imp.store2 (Imp.a_reach A) i j x h = ((λ _, ()) <$> setitem2 r i j x, h')
    ∧ Imp.hext base h h'
    ∧ ∀ r', setitem2 r i j x = Some r' → Imp.bfs_rel base h' A d r' v.
Proof.
  destruct Hrel as (Hd & Hr & Hv & Hnd & Hb).
  apply NoDup_app3 in Hnd as Hnd3. destruct Hnd3 as (Hnd1 & Hnd2 & Hnd3 & H12 & H13 & H23).
  apply Forall_app in Hb as Hb'. destruct Hb' as [Hb1 Hb2].
  apply Forall_app in Hb2 as [Hb2 Hb3].
  destruct (store2_is_rows h _ _ _ i j x Hr Hnd2) as (h' & Hst & Hup & Hnew).
  exists h'. split_and!; [done|by eapply hupd_hext|].
  intros r' Hr'. split_and!; [|by apply Hnew| |done..].
  - eapply is_rows_hupd_rows; [done| | |done].
    + intros l Hl. exact (is_rows_rows h _ _ _ l Hr Hl).
    + apply H12.
  - eapply is_rows_hupd_rows; [done| | |done].
    + intros l Hl. exact (is_rows_rows h _ _ _ l Hr Hl).
    + intros l Hl Hl'. by apply (H23 l).
Qed.

End StoreArrays.

(** A first step that returns: the rest runs in the store it leaves. *)
Lemma sim_step {V S T} (base : nat) (R : Imp.heap → S → T → Prop) (p : option S)
    (c : Imp.M V) (K : V → Imp.M T) (a : V) (h h1 : Imp.heap) :
  c h = (Some a, h1) → Imp.hext base h h1 →
  sim base R p (K a) h1 → sim base R p (Imp.bind c K) h.
Proof.
  intros Hc Hex (res & h' & HK & Hex' & Hp). exists res, h'.
  split_and!; [|by eapply hext_trans|done].
  by rewrite (bind_run _ _ _ _ _ Hc).
Qed.

(** An item assignment changes a row: the list of directions stays. *)
Lemma store2_dirs (a : nat) (i j x : Z) (h h' : Imp.heap) (res : option unit)
    (dirs : nat) :
  Imp.store2 a i j x h = (res, h') → dirs_at h dirs → dirs_at h' dirs.
Proof.
  unfold Imp.store2, Imp.store, Imp.bind, Imp.get_list, Imp.get_row, Imp.lift,
    Imp.put_row, dirs_at.
  intros Hrun Hdirs.
  destruct (h !! a) as [[r|ls|ps]|]; try (by injection Hrun as _ <-).
  destruct (getitem ls i) as [l|]; [|by injection Hrun as _ <-].
  destruct (h !! l) as [[r|ls'|ps]|] eqn:Hl; try (by injection Hrun as _ <-).
  destruct (setitem r j x) as [r'|]; [|by injection Hrun as _ <-].
  injection Hrun as _ <-. rewrite list_lookup_insert_ne; [done|].
  intros ->. congruence.
Qed.

Lemma dirs_at_app (h x : Imp.heap) (dirs : nat) :
  dirs_at h dirs → dirs_at (h ++ x) dirs.
Proof. unfold dirs_at. intros H. by apply lookup_app_l_Some. Qed.

Section TraversalSim.
Variables (base : nat) (grid : nat) (g : list (list Z)) (A : Imp.arrays).
Variables (dirs : nat) (m n : nat) (visit_id : Z).

Lemma visit_neighbor_sim (x y d : Z) (h : Imp.heap) (st : bfs_state)
    (q : list (Z * Z * Z)) (dir : Z * Z) :
  state_rel base grid g A dirs h st q →
  sim base (state_rel base grid g A dirs)
    (visit_neighbor g m n visit_id x y d st dir)
    (Imp.visit_neighbor grid m n visit_id (Imp.a_dist A) (Imp.a_reach A) (Imp.a_vm A)
       x y d q dir) h.
Proof.
  intros (-> & Hrel & Hgrid & Hdirs). destruct dir as [dx dy].
  unfold visit_neighbor, Imp.visit_neighbor. cbv zeta.
  set (nx := x + dx). set (ny := y + dy).
  destruct (bool_decide (0 ≤ nx < Z.of_nat m) && bool_decide (0 ≤ ny < Z.of_nat n));
    [|by apply sim_ret].
  pose proof Hrel as (Hd & Hr & Hv & _).
  apply sim_read; [by eapply load2_is_rows|]. intros vmv _.
  destruct (bool_decide (vmv ≠ visit_id)); [|by apply sim_ret].
  pose proof Hgrid as (gls & Hg & _).
  apply sim_read; [by eapply load2_is_rows|]. intros gv _.
  destruct (bool_decide (gv ≠ 2)); [|by apply sim_ret].
  destruct (store_vm_sim base h A _ _ _ Hrel nx ny visit_id) as (h1 & Hst & Hex & Hnew).
  pose proof (store2_dirs _ _ _ _ _ _ _ dirs Hst Hdirs) as Hdirs1.
  eapply sim_write; [exact Hst|exact Hex|]. intros vm' Hvm'.
  specialize (Hnew vm' Hvm').
  pose proof (grid_at_hext base h h1 grid g Hex Hgrid) as Hgrid1.
  destruct (bool_decide (gv = 0)).
  - eapply (sim_bind base
              (λ h' (s : list (list Z) * list (list Z)) (_ : unit),
                 Imp.bfs_rel base h' A s.1 s.2 vm' ∧ dirs_at h' dirs)).
    + pose proof Hnew as (Hd1 & Hr1 & _).
      apply sim_read; [by eapply load2_is_rows|]. intros dv _.
      destruct (store_dist_sim base h1 A _ _ _ Hnew nx ny (dv + (d + 1)))
        as (h2 & Hst2 & Hex2 & Hnew2).
      pose proof (store2_dirs _ _ _ _ _ _ _ dirs Hst2 Hdirs1) as Hdirs2.
      eapply sim_write; [exact Hst2|exact Hex2|]. intros dist' Hdist'.
      specialize (Hnew2 dist' Hdist'). pose proof Hnew2 as (_ & Hr2 & _).
      apply sim_read; [by eapply load2_is_rows|]. intros rv _.
      destruct (store_reach_sim base h2 A _ _ _ Hnew2 nx ny (rv + 1))
        as (h3 & Hst3 & Hex3 & Hnew3).
      pose proof (store2_dirs _ _ _ _ _ _ _ dirs Hst3 Hdirs2) as Hdirs3.
      eapply (sim_write_end _ _ _ _ (λ reach', (dist', reach')));
        [exact Hst3|exact Hex3|].
      intros reach' Hreach'. split; [by apply Hnew3|done].
    + intros h' [dist' reach'] [] Hex' [Hrel' Hdirs']. simpl in Hrel'.
      apply sim_ret. split_and!; [done..| |done]. by eapply grid_at_hext.
  - exists (Some (queue st ++ [(nx, ny, d + 1)])), h1.
    split_and!; [done|apply hext_refl|].
    eexists. split; [done|]. split_and!; [done..].
Qed.

Lemma visit_all_sim (x y d : Z) (ds : list (Z * Z)) (h : Imp.heap) (st : bfs_state)
    (q : list (Z * Z * Z)) :
  state_rel base grid g A dirs h st q →
  sim base (state_rel base grid g A dirs)
    (foldM (visit_neighbor g m n visit_id x y d) ds st)
    (Imp.foldM
       (Imp.visit_neighbor grid m n visit_id (Imp.a_dist A) (Imp.a_reach A) (Imp.a_vm A)
          x y d) ds q) h.
Proof.
  intros Hrel. apply (sim_foldM base (state_rel base grid g A dirs)); [|done].
  intros h' st' q' dir _ Hrel'. by apply visit_neighbor_sim.
Qed.

(** The [for] loop of line 135 takes its items from the list object at
    [dirs], which holds [directions]. *)
Lemma get_pairs_dirs (h : Imp.heap) :
  dirs_at h dirs → Imp.get_pairs dirs h = (Some directions, h).
Proof. unfold dirs_at, Imp.get_pairs. by intros ->. Qed.

Lemma bfs_while_sim (fuel : nat) :
  ∀ (h : Imp.heap) (st : bfs_state) (q : list (Z * Z * Z)),
  state_rel base grid g A dirs h st q →
  sim base (λ h' st' (_ : unit), state_rel base grid g A dirs h' st' (queue st'))
    (bfs_while fuel g m n visit_id st)
    (Imp.bfs_while fuel grid m n visit_id (Imp.a_dist A) (Imp.a_reach A) (Imp.a_vm A)
       dirs q)
    h.
Proof.
  induction fuel as [|fuel IH]; intros h st q Hrel.
  - pose proof Hrel as (-> & _). destruct st as [ds rs vs [|[[x y] d] q]]; simpl.
    + by apply sim_ret.
    + exists None, h. split_and!; [done|apply hext_refl|done].
  - pose proof Hrel as (-> & Hb & Hg & Hdirs).
    destruct st as [ds rs vs [|[[x y] d] q]].
    + simpl. by apply sim_ret.
    + cbn [bfs_while Imp.bfs_while queue dist reach visited_mark].
      eapply sim_step; [by apply get_pairs_dirs|apply hext_refl|].
      eapply sim_bind.
      * apply visit_all_sim. split_and!; [done..].
      * intros h' st' q' _ Hrel'. by apply IH.
Qed.

Lemma bfs_from_house_sim (h : Imp.heap) (d0 r0 v0 : list (list Z)) (hs : Z * Z) :
  Imp.bfs_rel base h A d0 r0 v0 → Imp.grid_at base h grid g → dirs_at h dirs →
  sim base (λ h' (s : list (list Z) * list (list Z) * list (list Z) * Z) (t : Z),
              t = s.2 ∧ Imp.bfs_rel base h' A s.1.1.1 s.1.1.2 s.1.2
              ∧ Imp.grid_at base h' grid g ∧ dirs_at h' dirs)
    (bfs_from_house g m n (d0, r0, v0, visit_id) hs)
    (Imp.bfs_from_house grid m n (Imp.a_dist A) (Imp.a_reach A) (Imp.a_vm A) dirs
       visit_id hs) h.
Proof.
  intros Hrel Hgrid Hdirs. destruct hs as [i j].
  unfold bfs_from_house, Imp.bfs_from_house.
  destruct (store_vm_sim base h A _ _ _ Hrel i j visit_id) as (h1 & Hst & Hex & Hnew).
  pose proof (store2_dirs _ _ _ _ _ _ _ dirs Hst Hdirs) as Hdirs1.
  eapply sim_write; [exact Hst|exact Hex|]. intros v1 Hv1.
  eapply sim_bind.
  - apply (bfs_while_sim (S (m * n)) h1 (BfsState d0 r0 v1 [(i, j, 0)])).
    split_and!; [done|by apply Hnew|by eapply grid_at_hext|done].
  - intros h' st' [] _ (_ & Hrel' & Hgrid' & Hdirs'). apply sim_ret. done.
Qed.

End TraversalSim.

Lemma NoDup_seq3 (a b c m : nat) :
  (a + m ≤ b)%nat → (b + m ≤ c)%nat →
  NoDup (seq a m ++ seq b m ++ seq c m).
Proof.
  intros Hab Hbc.
  apply list.NoDup_app. split_and!; [apply NoDup_seq| |].
  - intros x Hx Hx'. apply elem_of_seq in Hx.
    apply elem_of_app in Hx' as [Hx'|Hx']; apply elem_of_seq in Hx'; lia.
  - apply list.NoDup_app. split_and!; [apply NoDup_seq| |apply NoDup_seq].
    intros x Hx Hx'. apply elem_of_seq in Hx, Hx'. lia.
Qed.

Lemma bfs_total_distance_sim (h : Imp.heap) (grid : nat) (gls : list nat)
    (g : list (list Z)) (houses : list (Z * Z)) (m n : nat) (total_houses : Z) :
  Imp.is_rows h grid gls g →
  sim (length h) (λ _ r r', r' = r)
    (_bfs_total_distance g houses m n total_houses)
    (Imp._bfs_total_distance grid houses m n total_houses) h.
Proof.
  intros Hg. destruct (is_rows_lt _ _ _ _ Hg) as [Hlt Hlts].
  unfold _bfs_total_distance, Imp._bfs_total_distance, bfs_all.
  set (x1 := replicate m (Imp.ORow (zeros n)) ++ [Imp.OList (seq (length h) m)]).
  set (h1 := h ++ x1).
  set (x2 := replicate m (Imp.ORow (zeros n)) ++ [Imp.OList (seq (length h1) m)]).
  set (h2 := h1 ++ x2).
  set (hd := h2 ++ [Imp.OPairs directions]).
  set (x3 := replicate m (Imp.ORow (zeros n)) ++ [Imp.OList (seq (length hd) m)]).
  set (h3 := hd ++ x3).
  assert (Hl1 : length h1 = (length h + m + 1)%nat).
  { unfold h1, x1. rewrite !length_app, length_replicate. simpl. lia. }
  assert (Hl2 : length h2 = (length h + m + 1 + m + 1)%nat).
  { unfold h2, x2. rewrite !length_app, length_replicate, Hl1. simpl. lia. }
  assert (Hld : length hd = (length h2 + 1)%nat).
  { unfold hd. rewrite length_app. done. }
  eapply sim_step; [apply new_rows_run|by apply hext_app|]. fold x1 h1.
  eapply sim_step; [apply new_rows_run|apply hext_app; lia|]. fold x2 h2.
  apply sim_alloc; [lia|]. fold hd.
  eapply sim_step; [apply new_rows_run|apply hext_app; lia|]. fold x3 h3.
  set (A := Imp.Arrays (length h + m) (length h1 + m) (length hd + m)
              (seq (length h) m) (seq (length h1) m) (seq (length hd) m)).
  assert (Hrel : Imp.bfs_rel (length h) h3 A (zeros2 m n) (zeros2 m n) (zeros2 m n)).
  { unfold Imp.bfs_rel, A. simpl. split_and!.
    - unfold h3, hd, h2. do 3 apply is_rows_app. apply new_rows_is_rows.
    - unfold h3, hd. do 2 apply is_rows_app. apply new_rows_is_rows.
    - apply new_rows_is_rows.
    - apply NoDup_seq3; lia.
    - apply Forall_forall. intros l Hl. apply list_elem_of_In in Hl.
      rewrite !elem_of_app, !elem_of_seq in Hl. lia. }
  assert (Hgrid : Imp.grid_at (length h) h3 grid g).
  { exists gls. split_and!; [|done..]. unfold h3, hd, h2, h1. by do 4 apply is_rows_app. }
  assert (Hdirs : dirs_at h3 (length h2)).
  { unfold h3. apply dirs_at_app. unfold dirs_at, hd.
    rewrite lookup_app_r by lia. by rewrite Nat.sub_diag. }
  eapply sim_bind.
  - apply (sim_foldM (length h)
             (λ h' (s : list (list Z) * list (list Z) * list (list Z) * Z) (t : Z),
                t = s.2 ∧ Imp.bfs_rel (length h) h' A s.1.1.1 s.1.1.2 s.1.2
                ∧ Imp.grid_at (length h) h' grid g ∧ dirs_at h' (length h2))
             (bfs_from_house g m n)
             (Imp.bfs_from_house grid m n (length h + m) (length h1 + m) (length hd + m)
                (length h2))).
    + intros h' [[[d0 r0] v0] vid] t hs _ (-> & Hrel' & Hgrid' & Hdirs'). simpl in *.
      by apply (bfs_from_house_sim (length h) grid g A (length h2) m n vid h' d0 r0 v0 hs).
    + simpl. done.
  - intros h' [[[d1 r1] v1] vid] t _ (_ & Hrel' & Hgrid' & _). simpl in Hrel'.
    destruct Hrel' as (Hd & Hr & _). destruct Hgrid' as (gls' & Hg' & _).
    apply sim_read; [by eapply min_over_reached_sim|]. intros md _.
    by apply sim_ret.
Qed.

Lemma min_total_distance_cons (v : Z) (row0 : list Z) (rest : list (list Z)) :
  min_total_distance ((v :: row0) :: rest)
  = if bool_decide (total_of ((v :: row0) :: rest) = 0) then Some (-1)
    else
      houses ← houses_of ((v :: row0) :: rest)
                  (length ((v :: row0) :: rest)) (length (v :: row0));
      if has_only_01 ((v :: row0) :: rest) then
        _fast_total_distance ((v :: row0) :: rest) houses
          (length ((v :: row0) :: rest)) (length (v :: row0))
          (total_of ((v :: row0) :: rest))
      else
        _bfs_total_distance ((v :: row0) :: rest) houses
          (length ((v :: row0) :: rest)) (length (v :: row0))
          (total_of ((v :: row0) :: rest)).
Proof. reflexivity. Qed.

(** The solver over the store does what the solver on the value of the grid
    does, and leaves every object of the store it was given unchanged. *)
Lemma min_total_distance_sim (h : Imp.heap) (grid : nat) (gls : list nat)
    (g : list (list Z)) :
  Imp.is_rows h grid gls g →
  sim (length h) (λ _ r r', r' = r)
    (min_total_distance g) (Imp.min_total_distance grid) h.
Proof.
  intros Hg. unfold Imp.min_total_distance.
  eapply sim_step; [by eapply get_list_is_rows|apply hext_refl|].
  pose proof Hg as [_ HF]. pose proof (is_rows_length _ _ _ _ Hg) as Hlen.
  destruct HF as [|l0 row0 ls rs Hr0 HF]; [by apply sim_ret|].
  eapply sim_step; [by eapply get_row_is_row|apply hext_refl|].
  destruct row0 as [|v row0]; [by apply sim_ret|].
  rewrite min_total_distance_cons. rewrite Hlen.
  set (g' := (v :: row0) :: rs) in *.
  eapply sim_step; [by eapply total_of_sim|apply hext_refl|].
  destruct (bool_decide (total_of g' = 0)); [by apply sim_ret|].
  apply sim_read; [by eapply houses_of_sim|]. intros houses _.
  eapply sim_step; [by eapply has_only_01_sim|apply hext_refl|].
  destruct (has_only_01 g').
  - by eapply fast_total_distance_sim.
  - by eapply bfs_total_distance_sim.
Qed.

Lemma sim_result {T} (base : nat) (p : option T) (c : Imp.M T) (h : Imp.heap) :
  sim base (λ _ r r', r' = r) p c h →
  (c h).1 = p ∧ Imp.hext base h (c h).2.
Proof.
  intros (res & h' & -> & Hex & Hp). simpl. split; [|done].
  destruct p as [s|]; [|done]. by destruct Hp as (t & -> & ->).
Qed.

(** A store that keeps every object of [h] is [h] followed by new objects. *)
Lemma hext_prefix (h h' : Imp.heap) :
  Imp.hext (length h) h h' → ∃ fresh, h' = h ++ fresh.
Proof.
  intros [Hlen Hex]. exists (drop (length h) h'). apply list_eq. intros i.
  destruct (decide (i < length h)%nat) as [Hi|Hi].
  - rewrite lookup_app_l by done. by apply Hex.
  - rewrite lookup_app_r by lia. rewrite lookup_drop. f_equal. lia.
Qed.

Lemma is_rows_prefix (h fresh : Imp.heap) (a : nat) (ls : list nat)
    (rs : list (list Z)) :
  Imp.is_rows h a ls rs → Imp.is_rows (h ++ fresh) a ls rs.
Proof. apply is_rows_app. Qed.

(** C9. The solver is deterministic and keeps no state: called on a grid
    object whose value is [g], in any store, it returns what the function
    [min_total_distance] of the value [g] returns (or raises when that
    raises).  So two calls on grids of the same value return the same
    result, in whatever stores they run, and a second call in the store the
    first call left behind returns the same result again. *)
Theorem result_depends_only_on_grid_value (h1 h2 : Imp.heap) (grid1 grid2 : nat)
    (gls1 gls2 : list nat) (g : list (list Z)) :
  Imp.is_rows h1 grid1 gls1 g → Imp.is_rows h2 grid2 gls2 g →
  (Imp.min_total_distance grid1 h1).1 = min_total_distance g
  ∧ (Imp.min_total_distance grid2 h2).1 = (Imp.min_total_distance grid1 h1).1
  ∧ (Imp.min_total_distance grid1 (Imp.min_total_distance grid1 h1).2).1
    = (Imp.min_total_distance grid1 h1).1.
Proof.
  intros Hg1 Hg2.
  destruct (sim_result _ _ _ _ (min_total_distance_sim h1 grid1 gls1 g Hg1)) as [Hr1 Hex1].
  destruct (sim_result _ _ _ _ (min_total_distance_sim h2 grid2 gls2 g Hg2)) as [Hr2 _].
  split_and!; [done|congruence|].
  destruct (hext_prefix _ _ Hex1) as (fresh & Hh).
  assert (Hg1' : Imp.is_rows (Imp.min_total_distance grid1 h1).2 grid1 gls1 g).
  { rewrite Hh. by apply is_rows_prefix. }
  destruct (sim_result _ _ _ _ (min_total_distance_sim _ grid1 gls1 g Hg1')) as [Hr3 _].
  congruence.
Qed.

(** C10. Neither the solver nor either engine changes the grid it is given:
    the store a call leaves behind, whether it returns or raises, is the
    store it was given followed by new objects, so the grid object and its
    rows hold what they held before the call; the count, cost, distance,
    reach and visited arrays are among the new objects. *)
Theorem grid_is_not_mutated (h : Imp.heap) (grid : nat) (gls : list nat)
    (g : list (list Z)) (houses : list (Z * Z)) (m n : nat) (total_houses : Z) :
  Imp.is_rows h grid gls g →
  ((∃ fresh, (Imp.min_total_distance grid h).2 = h ++ fresh)
   ∧ Imp.is_rows (Imp.min_total_distance grid h).2 grid gls g)
  ∧ ((∃ fresh, (Imp._fast_total_distance grid houses m n total_houses h).2 = h ++ fresh)
     ∧ Imp.is_rows (Imp._fast_total_distance grid houses m n total_houses h).2
         grid gls g)
  ∧ ((∃ fresh, (Imp._bfs_total_distance grid houses m n total_houses h).2 = h ++ fresh)
     ∧ Imp.is_rows (Imp._bfs_total_distance grid houses m n total_houses h).2
         grid gls g).
Proof.
  intros Hg.
  destruct (sim_result _ _ _ _ (min_total_distance_sim h grid gls g Hg)) as [_ Hex1].
  destruct (sim_result _ _ _ _
              (fast_total_distance_sim h grid gls g houses m n total_houses Hg))
    as [_ Hex2].
  destruct (sim_result _ _ _ _
              (bfs_total_distance_sim h grid gls g houses m n total_houses Hg))
    as [_ Hex3].
  destruct (hext_prefix _ _ Hex1) as (f1 & Hf1).
  destruct (hext_prefix _ _ Hex2) as (f2 & Hf2).
  destruct (hext_prefix _ _ Hex3) as (f3 & Hf3).
  split_and!; eauto; rewrite ?Hf1, ?Hf2, ?Hf3; by apply is_rows_prefix.
Qed.

Lemma result_depends_only_on_grid_value_witness :
  (Imp.min_total_distance 2 [Imp.ORow [1; 0]; Imp.ORow [0; 1]; Imp.OList [0; 1]%nat]).1
  = min_total_distance [[1; 0]; [0; 1]]
  ∧ (Imp.min_total_distance 0
       [Imp.OList [1; 2]%nat; Imp.ORow [1; 0]; Imp.ORow [0; 1]]).1
    = (Imp.min_total_distance 2
         [Imp.ORow [1; 0]; Imp.ORow [0; 1]; Imp.OList [0; 1]%nat]).1
  ∧ (Imp.min_total_distance 2
       (Imp.min_total_distance 2
          [Imp.ORow [1; 0]; Imp.ORow [0; 1]; Imp.OList [0; 1]%nat]).2).1
    = (Imp.min_total_distance 2
         [Imp.ORow [1; 0]; Imp.ORow [0; 1]; Imp.OList [0; 1]%nat]).1.
Proof.
  apply (result_depends_only_on_grid_value
           [Imp.ORow [1; 0]; Imp.ORow [0; 1]; Imp.OList [0; 1]%nat]
           [Imp.OList [1; 2]%nat; Imp.ORow [1; 0]; Imp.ORow [0; 1]]
           2 0 [0; 1]%nat [1; 2]%nat [[1; 0]; [0; 1]]).
  - split; [reflexivity|]. repeat constructor.
  - split; [reflexivity|]. repeat constructor.
Defined.

Lemma grid_is_not_mutated_witness :
  ((∃ fresh,
      (Imp.min_total_distance 2
         [Imp.ORow [1; 2; 0]; Imp.ORow [0; 0; 1]; Imp.OList [0; 1]%nat]).2
      = [Imp.ORow [1; 2; 0]; Imp.ORow [0; 0; 1]; Imp.OList [0; 1]%nat] ++ fresh)
   ∧ Imp.is_rows
       (Imp.min_total_distance 2
          [Imp.ORow [1; 2; 0]; Imp.ORow [0; 0; 1]; Imp.OList [0; 1]%nat]).2
       2 [0; 1]%nat [[1; 2; 0]; [0; 0; 1]])
  ∧ ((∃ fresh,
        (Imp._fast_total_distance 2 [(0, 0); (1, 2)] 2 3 2
           [Imp.ORow [1; 2; 0]; Imp.ORow [0; 0; 1]; Imp.OList [0; 1]%nat]).2
        = [Imp.ORow [1; 2; 0]; Imp.ORow [0; 0; 1]; Imp.OList [0; 1]%nat] ++ fresh)
     ∧ Imp.is_rows
         (Imp._fast_total_distance 2 [(0, 0); (1, 2)] 2 3 2
            [Imp.ORow [1; 2; 0]; Imp.ORow [0; 0; 1]; Imp.OList [0; 1]%nat]).2
         2 [0; 1]%nat [[1; 2; 0]; [0; 0; 1]])
  ∧ ((∃ fresh,
        (Imp._bfs_total_distance 2 [(0, 0); (1, 2)] 2 3 2
           [Imp.ORow [1; 2; 0]; Imp.ORow [0; 0; 1]; Imp.OList [0; 1]%nat]).2
        = [Imp.ORow [1; 2; 0]; Imp.ORow [0; 0; 1]; Imp.OList [0; 1]%nat] ++ fresh)
     ∧ Imp.is_rows
         (Imp._bfs_total_distance 2 [(0, 0); (1, 2)] 2 3 2
            [Imp.ORow [1; 2; 0]; Imp.ORow [0; 0; 1]; Imp.OList [0; 1]%nat]).2
         2 [0; 1]%nat [[1; 2; 0]; [0; 0; 1]]).
Proof.
  apply (grid_is_not_mutated
           [Imp.ORow [1; 2; 0]; Imp.ORow [0; 0; 1]; Imp.OList [0; 1]%nat]
           2 [0; 1]%nat [[1; 2; 0]; [0; 0; 1]] [(0, 0); (1, 2)] 2 3 2).
  split; [reflexivity|]. repeat constructor.
Defined.

(** X18. On a grid object without rows, or whose first row is empty, the
    solver returns -1 and the store is what it was: no object is made and
    none is changed. *)
Lemma degenerate_grid_leaves_store (h : Imp.heap) (grid : nat) :
  h !! grid = Some (Imp.OList [])
  ∨ (∃ l0 ls, h !! grid = Some (Imp.OList (l0 :: ls)) ∧ h !! l0 = Some (Imp.ORow [])) →
  Imp.min_total_distance grid h = (Some (-1), h).
Proof.
  intros [Hg|(l0 & ls & Hg & Hr)]; unfold Imp.min_total_distance.
  - assert (Hl : Imp.get_list grid h = (Some [], h))
      by (unfold Imp.get_list; by rewrite Hg).
    by rewrite (bind_run _ _ _ _ _ Hl).
  - assert (Hl : Imp.get_list grid h = (Some (l0 :: ls), h))
      by (unfold Imp.get_list; by rewrite Hg).
    rewrite (bind_run _ _ _ _ _ Hl).
    assert (Hr' : Imp.get_row l0 h = (Some [], h))
      by (unfold Imp.get_row; by rewrite Hr).
    by rewrite (bind_run _ _ _ _ _ Hr').
Qed.

(** * Further properties of the engines and the solver *)

(** ** The separable engine on any rectangular grid *)

(** The minimum of the candidates of a guarded scan: -1 when nothing passes
    the guard, otherwise an attained lower bound. *)
Lemma guarded_min_cases (P : Z * Z → Prop) `{!∀ c, Decision (P c)}
    (cost : Z * Z → Z) (m n : nat) :
  let r := or_minus_one (min_of (cost <$> filter P (cells m n))) in
  ((¬ ∃ c, inb m n c ∧ P c) ∧ r = -1)
  ∨ ((∃ c, inb m n c ∧ P c ∧ r = cost c)
     ∧ ∀ c, inb m n c → P c → r ≤ cost c).
Proof.
  simpl. destruct (min_of _) as [|v] eqn:Hmin; simpl.
  - left. split; [|done]. intros (c & Hc & HP).
    apply min_of_nil_iff in Hmin.
    assert (Hin : cost c ∈ cost <$> filter P (cells m n)).
    { apply list_elem_of_fmap. exists c. split; [done|].
      apply list_elem_of_filter. split; [done|by apply elem_of_cells]. }
    rewrite Hmin in Hin. by apply elem_of_nil in Hin.
  - right. apply min_of_Fin in Hmin as [Hv Hle]. split.
    + apply list_elem_of_fmap in Hv as (c & -> & Hc).
      apply list_elem_of_filter in Hc as [HP Hc]. apply elem_of_cells in Hc.
      by exists c.
    + intros c Hc HP. apply Hle. apply list_elem_of_fmap. exists c.
      split; [done|]. apply list_elem_of_filter. split; [done|by apply elem_of_cells].
Qed.

(** X1. The separable engine on any rectangular grid, whatever its markers,
    called with houses inside the grid and their number: it returns; the
    result is -1 when no cell has marker 0; otherwise it is the total
    Manhattan distance to the houses of some cell with marker 0, and no
    cell with marker 0 has a smaller one. *)
Theorem separable_engine_minimum (grid : list (list Z)) (m n : nat)
    (houses : list (Z * Z)) :
  shaped m n grid → (0 < m)%nat → (0 < n)%nat → Forall (inb m n) houses →
  ∃ r, _fast_total_distance grid houses m n (Z.of_nat (length houses)) = Some r
    ∧ ((¬ ∃ c, inb m n c ∧ cell grid c = 0) → r = -1)
    ∧ ((∃ c, inb m n c ∧ cell grid c = 0) →
         (∃ c, inb m n c ∧ cell grid c = 0 ∧ r = total_manhattan houses c)
         ∧ ∀ c, inb m n c → cell grid c = 0 → r ≤ total_manhattan houses c).
Proof.
  intros Hgrid Hm Hn Hhs.
  rewrite (fast_total_distance_spec grid m n houses) by done.
  eexists. split; [done|].
  destruct (guarded_min_cases (λ c, cell grid c = 0) (total_manhattan houses) m n)
    as [[Hno Hr]|[Hat Hle]].
  - split; [done|]. intros Hex. by destruct Hno.
  - split; [|done]. intros Hno. by destruct Hno as []; destruct Hat as (c & ? & ? & _); exists c.
Qed.

Lemma separable_engine_minimum_witness :
  ∃ r, _fast_total_distance [[1; 0; 2]; [0; 3; 1]] [(0, 0); (1, 2)] 2 3
         (Z.of_nat (length [(0, 0); (1, 2)])) = Some r
    ∧ ((¬ ∃ c, inb 2 3 c ∧ cell [[1; 0; 2]; [0; 3; 1]] c = 0) → r = -1)
    ∧ ((∃ c, inb 2 3 c ∧ cell [[1; 0; 2]; [0; 3; 1]] c = 0) →
         (∃ c, inb 2 3 c ∧ cell [[1; 0; 2]; [0; 3; 1]] c = 0
               ∧ r = total_manhattan [(0, 0); (1, 2)] c)
         ∧ ∀ c, inb 2 3 c → cell [[1; 0; 2]; [0; 3; 1]] c = 0 →
             r ≤ total_manhattan [(0, 0); (1, 2)] c).
Proof.
  apply (separable_engine_minimum [[1; 0; 2]; [0; 3; 1]] 2 3 [(0, 0); (1, 2)]).
  - split; [reflexivity|]. repeat constructor.
  - lia.
  - lia.
  - repeat constructor; simpl; lia.
Defined.

(** ** The solver on a grid of 0s and 1s *)

(** X2. On every rectangular grid of 0s and 1s with at least one house the
    solver returns; the result is -1 when there is no empty cell; otherwise
    it is the total Manhattan distance to all houses of some empty cell,
    and no empty cell has a smaller one. *)
Theorem solver_optimal_on_01_grid (grid : list (list Z)) (m n : nat) :
  shaped m n grid → has_only_01 grid = true →
  (∃ h, inb m n h ∧ cell grid h = 1) →
  ∃ r, min_total_distance grid = Some r
    ∧ ((¬ ∃ c, inb m n c ∧ cell grid c = 0) → r = -1)
    ∧ ((∃ c, inb m n c ∧ cell grid c = 0) →
         (∃ c, inb m n c ∧ cell grid c = 0
               ∧ r = total_manhattan (house_cells grid m n) c)
         ∧ ∀ c, inb m n c → cell grid c = 0 →
             r ≤ total_manhattan (house_cells grid m n) c).
Proof.
  intros Hgrid H01 (h & Hh & H1). destruct (inb_pos m n h Hh) as [Hm Hn].
  rewrite (min_total_distance_shaped grid m n) by done.
  rewrite (total_of_01 m n) by done.
  rewrite (houses_of_spec m n) by done. rewrite H01. simpl.
  assert (Hin : h ∈ house_cells grid m n) by (by apply elem_of_house_cells).
  rewrite bool_decide_eq_false_2.
  2:{ destruct (house_cells grid m n); [by apply elem_of_nil in Hin|done]. }
  rewrite (fast_total_distance_spec grid m n) by (done || apply house_cells_inb).
  eexists. split; [done|].
  destruct (guarded_min_cases (λ c, cell grid c = 0)
              (total_manhattan (house_cells grid m n)) m n)
    as [[Hno Hr]|[Hat Hle]].
  - split; [done|]. intros Hex. by destruct Hno.
  - split; [|done]. intros Hno. destruct Hno.
    destruct Hat as (c & ? & ? & _). by exists c.
Qed.

Lemma solver_optimal_on_01_grid_witness :
  ∃ r, min_total_distance [[1; 0; 0]; [0; 0; 1]] = Some r
    ∧ ((¬ ∃ c, inb 2 3 c ∧ cell [[1; 0; 0]; [0; 0; 1]] c = 0) → r = -1)
    ∧ ((∃ c, inb 2 3 c ∧ cell [[1; 0; 0]; [0; 0; 1]] c = 0) →
         (∃ c, inb 2 3 c ∧ cell [[1; 0; 0]; [0; 0; 1]] c = 0
               ∧ r = total_manhattan (house_cells [[1; 0; 0]; [0; 0; 1]] 2 3) c)
         ∧ ∀ c, inb 2 3 c → cell [[1; 0; 0]; [0; 0; 1]] c = 0 →
             r ≤ total_manhattan (house_cells [[1; 0; 0]; [0; 0; 1]] 2 3) c).
Proof.
  apply (solver_optimal_on_01_grid [[1; 0; 0]; [0; 0; 1]] 2 3).
  - split; [reflexivity|]. repeat constructor.
  - reflexivity.
  - exists (0, 0). split; [split; simpl; lia|reflexivity].
Defined.

(** ** The solver's traversal path and its house count *)

(** X3. On a rectangular grid without negative markers the marker sum that
    the solver uses as [total_houses] is at least the number of houses that
    its comprehension lists, and the two are equal exactly when all markers
    are 0 or 1. *)
Theorem marker_sum_is_house_count_only_on_01 (grid : list (list Z)) (m n : nat) :
  shaped m n grid → (∀ c, inb m n c → 0 ≤ cell grid c) →
  ∃ houses, houses_of grid m n = Some houses
    ∧ Z.of_nat (length houses) ≤ total_of grid
    ∧ (total_of grid = Z.of_nat (length houses) ↔ has_only_01 grid = true).
Proof.
  intros Hgrid Hpos. exists (house_cells grid m n).
  split; [by apply houses_of_spec|].
  destruct (Zsum_ge_ones (cell grid) (cells m n)) as [Hge Heq].
  { intros c Hc. apply Hpos. by apply elem_of_cells. }
  unfold total_of. rewrite (concat_shaped m n) by done.
  fold (house_cells grid m n) in Hge, Heq. split; [done|]. split.
  - intros He. apply (has_only_01_spec m n); [done|].
    intros c Hc. apply Heq; [done|]. by apply elem_of_cells.
  - intros H01. rewrite <- (concat_shaped m n) by done.
    by apply (total_of_01 m n).
Qed.

Lemma marker_sum_is_house_count_only_on_01_witness :
  ∃ houses, houses_of [[1; 0; 2]; [0; 1; 0]] 2 3 = Some houses
    ∧ Z.of_nat (length houses) ≤ total_of [[1; 0; 2]; [0; 1; 0]]
    ∧ (total_of [[1; 0; 2]; [0; 1; 0]] = Z.of_nat (length houses)
       ↔ has_only_01 [[1; 0; 2]; [0; 1; 0]] = true).
Proof.
  apply (marker_sum_is_house_count_only_on_01 [[1; 0; 2]; [0; 1; 0]] 2 3).
  - split; [reflexivity|]. repeat constructor.
  - intros [i j] [Hi Hj]. simpl in Hi, Hj.
    assert (Hc : (i = 0 ∨ i = 1) ∧ (j = 0 ∨ j = 1 ∨ j = 2)) by lia.
    destruct Hc as [[-> | ->] [-> | [-> | ->]]]; vm_compute; discriminate.
Defined.

(** X4. On a rectangular grid without negative markers on which some cell
    has a marker other than 0 and 1, the solver returns -1, whatever the
    houses, the empty cells and the walls are: the marker sum it passes as
    [total_houses] exceeds the number of houses, and no reach counter gets
    that far. *)
Theorem solver_returns_minus_one_beyond_01 (grid : list (list Z)) (m n : nat) :
  shaped m n grid → (∀ c, inb m n c → 0 ≤ cell grid c) →
  (∃ c, inb m n c ∧ cell grid c ≠ 0 ∧ cell grid c ≠ 1) →
  min_total_distance grid = Some (-1).
Proof.
  intros Hgrid Hpos (c & Hc & Hc0 & Hc1). destruct (inb_pos m n c Hc) as [Hm Hn].
  apply (traversal_path_returns_minus_one grid m n); [done..|].
  destruct (has_only_01 grid) eqn:H01; [|done]. exfalso.
  destruct (proj1 (has_only_01_spec m n grid Hgrid) H01 c Hc); done.
Qed.

Lemma solver_returns_minus_one_beyond_01_witness :
  min_total_distance [[1; 0; 2]; [0; 1; 0]] = Some (-1).
Proof.
  apply (solver_returns_minus_one_beyond_01 [[1; 0; 2]; [0; 1; 0]] 2 3).
  - split; [reflexivity|]. repeat constructor.
  - intros [i j] [Hi Hj]. simpl in Hi, Hj.
    assert (Hc : (i = 0 ∨ i = 1) ∧ (j = 0 ∨ j = 1 ∨ j = 2)) by lia.
    destruct Hc as [[-> | ->] [-> | [-> | ->]]]; vm_compute; discriminate.
  - exists (0, 2). split; [split; simpl; lia|]. split; vm_compute; discriminate.
Defined.

(** ** No houses *)

Lemma min_total_distance_degenerate (grid : list (list Z)) (m n : nat) :
  shaped m n grid → m = 0%nat ∨ n = 0%nat → min_total_distance grid = Some (-1).
Proof.
  intros [Hlen Hrows] Hmn. destruct grid as [|row0 rest]; [done|].
  apply list.Forall_cons in Hrows as [Hrow0 _].
  destruct row0 as [|v row0]; [done|]. simpl in Hlen, Hrow0. lia.
Qed.

(** X5. On a rectangular grid with an empty cell, each engine called with
    an empty house list and [total_houses = 0] returns 0: the engines have
    no guard of their own against a grid without houses. *)
Theorem engines_return_zero_without_houses (grid : list (list Z)) (m n : nat) :
  shaped m n grid → (∃ c, inb m n c ∧ cell grid c = 0) →
  _fast_total_distance grid [] m n 0 = Some 0
  ∧ _bfs_total_distance grid [] m n 0 = Some 0.
Proof.
  intros Hgrid (c & Hc & H0). destruct (inb_pos m n c Hc) as [Hm Hn].
  assert (Hmin : ∀ (f : Z * Z → Z) (P : Z * Z → Prop) `{!∀ x, Decision (P x)},
            (∀ x, P x → f x = 0) → P c →
            or_minus_one (min_of (f <$> filter P (cells m n))) = 0).
  { intros f P ? Hf HP.
    destruct (guarded_min_cases P f m n) as [[Hno _]|[(c' & _ & HP' & Hr) _]].
    - destruct Hno. by exists c.
    - simpl in Hr. rewrite Hr. by apply Hf. }
  split.
  - pose proof (fast_total_distance_spec grid m n [] Hgrid Hm Hn (Forall_nil _)) as Hf.
    change (Z.of_nat (length [])) with 0 in Hf. rewrite Hf. f_equal.
    by apply Hmin.
  - unfold _bfs_total_distance, bfs_all. simpl.
    rewrite (min_over_reached_spec grid (zeros2 m n) (zeros2 m n) m n)
      by (done || apply zeros2_shaped).
    simpl. f_equal. apply Hmin.
    + intros x _. apply cell_zeros2.
    + split; [done|]. apply cell_zeros2.
Qed.

Lemma engines_return_zero_without_houses_witness :
  _fast_total_distance [[0; 2]; [3; 0]] [] 2 2 0 = Some 0
  ∧ _bfs_total_distance [[0; 2]; [3; 0]] [] 2 2 0 = Some 0.
Proof.
  apply (engines_return_zero_without_houses [[0; 2]; [3; 0]] 2 2).
  - split; [reflexivity|]. repeat constructor.
  - exists (0, 0). split; [split; simpl; lia|reflexivity].
Defined.

(** X6. On a rectangular grid without negative markers and without a house
    the solver returns -1, also when the grid has markers other than 0
    and 1. *)
Theorem solver_without_houses (grid : list (list Z)) (m n : nat) :
  shaped m n grid → (∀ c, inb m n c → 0 ≤ cell grid c) →
  (∀ c, inb m n c → cell grid c ≠ 1) →
  min_total_distance grid = Some (-1).
Proof.
  intros Hgrid Hpos Hno.
  destruct (decide (m = 0%nat ∨ n = 0%nat)) as [Hmn|Hmn].
  { by apply (min_total_distance_degenerate grid m n). }
  assert (Hm : (0 < m)%nat) by lia. assert (Hn : (0 < n)%nat) by lia.
  destruct (has_only_01 grid) eqn:H01.
  - rewrite (min_total_distance_shaped grid m n) by done.
    rewrite (total_of_01 m n) by done.
    assert (Hnil : house_cells grid m n = []).
    { apply filter_none. intros c Hc. apply Hno. by apply elem_of_cells. }
    by rewrite Hnil.
  - by apply (traversal_path_returns_minus_one grid m n).
Qed.

Lemma solver_without_houses_witness :
  min_total_distance [[0; 2]; [3; 0]] = Some (-1).
Proof.
  apply (solver_without_houses [[0; 2]; [3; 0]] 2 2).
  - split; [reflexivity|]. repeat constructor.
  - intros [i j] [Hi Hj]. simpl in Hi, Hj.
    assert (Hc : (i = 0 ∨ i = 1) ∧ (j = 0 ∨ j = 1)) by lia.
    destruct Hc as [[-> | ->] [-> | ->]]; vm_compute; discriminate.
  - intros [i j] [Hi Hj]. simpl in Hi, Hj.
    assert (Hc : (i = 0 ∨ i = 1) ∧ (j = 0 ∨ j = 1)) by lia.
    destruct Hc as [[-> | ->] [-> | ->]]; vm_compute; discriminate.
Defined.

(** ** Dimensions that are zero *)

Lemma getitem_nil {A} (i : Z) : getitem (@nil A) i = None.
Proof.
  unfold getitem, index. simpl.
  rewrite !bool_decide_eq_false_2 by lia. done.
Qed.

Lemma setitem_nil {A} (i : Z) (v : A) : setitem (@nil A) i v = None.
Proof.
  unfold setitem, index. simpl.
  rewrite !bool_decide_eq_false_2 by lia. done.
Qed.

Lemma getitem_replicate {A} (k : nat) (x y : A) (i : Z) :
  getitem (replicate k x) i = Some y → y = x.
Proof.
  unfold getitem. intros H. apply bind_Some in H as (j & _ & H).
  by apply lookup_replicate in H as [-> _].
Qed.

Lemma foldM_skip {A S} (f : S → A → option S) (l : list A) (s : S) :
  (∀ s x, f s x = Some s) → foldM f l s = Some s.
Proof.
  intros Hf. induction l as [|x l IH]; [done|]. simpl. by rewrite Hf.
Qed.

(** X7. When one of the dimensions passed to the engines is 0, the
    separable engine raises for every grid, house list and
    [total_houses], at the latest at the assignment to index 0 of a cost
    array of length 0; the traversal engine returns -1 when the house list
    is empty and raises otherwise. *)
Theorem engines_on_zero_dimension (grid : list (list Z)) (houses : list (Z * Z))
    (m n : nat) (total_houses : Z) :
  m = 0%nat ∨ n = 0%nat →
  _fast_total_distance grid houses m n total_houses = None
  ∧ _bfs_total_distance grid houses m n total_houses
    = match houses with [] => Some (-1) | _ :: _ => None end.
Proof.
  intros Hmn. split.
  - unfold _fast_total_distance, cost_arrays.
    assert (Hax : ∀ count, axis_cost count 0 total_houses = None).
    { intros count. reflexivity. }
    destruct houses as [|[i j] hs].
    + change (count_houses [] m n) with (Some (zeros m, zeros n)).
      destruct Hmn as [-> | ->]; [done|].
      cbn [mbind option_bind].
      destruct (axis_cost (zeros m) m total_houses); [|done].
      cbn [mbind option_bind]. by rewrite Hax.
    + assert (Hc : count_houses ((i, j) :: hs) m n = None); [|by rewrite Hc].
      unfold count_houses. cbn [foldM].
      destruct Hmn as [-> | ->]; unfold zeros; cbn [replicate].
      * by rewrite getitem_nil.
      * destruct (getitem (replicate m 0) i) as [ri|]; [|done].
        cbn [mbind option_bind].
        destruct (setitem (replicate m 0) i (ri + 1)); [|done].
        cbn [mbind option_bind]. by rewrite getitem_nil.
  - unfold _bfs_total_distance, bfs_all. destruct houses as [|[i j] hs].
    + simpl. assert (Hscan : min_over_reached grid (zeros2 m n) (zeros2 m n) m n
                               total_houses = Some Inf); [|by rewrite Hscan].
      unfold min_over_reached. destruct Hmn as [-> | ->]; [done|].
      by apply foldM_skip.
    + assert (Hs : setitem2 (zeros2 m n) i j 1 = None).
      { unfold setitem2, zeros2, zeros.
        destruct Hmn as [-> | ->]; cbn [replicate].
        - by rewrite getitem_nil.
        - destruct (getitem (replicate m []) i) as [row|] eqn:Hrow; [|done].
          apply getitem_replicate in Hrow as ->.
          cbn [mbind option_bind]. by rewrite setitem_nil. }
      cbn -[bfs_while]. by rewrite Hs.
Qed.

Lemma engines_on_zero_dimension_witness :
  _fast_total_distance [[]; []] [(0, 0)] 2 0 1 = None
  ∧ _bfs_total_distance [[]; []] [(0, 0)] 2 0 1 = None.
Proof.
  apply (engines_on_zero_dimension [[]; []] [(0, 0)] 2 0 1). by right.
Defined.

(** ** Rows of different lengths *)

Lemma foldM_raises {A S} (f : S → A → option S) (l : list A) (x : A) (s : S) :
  x ∈ l → (∀ s, f s x = None) → foldM f l s = None.
Proof.
  intros Hx Hf. revert s. induction l as [|y l IH]; intros s.
  - by apply elem_of_nil in Hx.
  - simpl. apply elem_of_cons in Hx as [<-|Hx]; [by rewrite Hf|].
    destruct (f s y); simpl; [by apply IH|done].
Qed.

(** X8. When the first row is not empty, the markers do not sum to 0 and
    some row is shorter than the first one, the solver raises: the house
    comprehension reads every row up to the length of the first row. *)
Theorem solver_raises_on_short_row (row0 : list Z) (rest : list (list Z))
    (i : nat) (row : list Z) :
  row0 ≠ [] → total_of (row0 :: rest) ≠ 0 →
  (row0 :: rest) !! i = Some row → (length row < length row0)%nat →
  min_total_distance (row0 :: rest) = None.
Proof.
  intros Hne Htot Hrow Hlen. unfold min_total_distance.
  destruct row0 as [|v row0]; [done|].
  rewrite bool_decide_eq_false_2 by done.
  set (grid := (v :: row0) :: rest) in *.
  assert (Hh : houses_of grid (length grid) (length (v :: row0)) = None);
    [|by rewrite Hh].
  unfold houses_of.
  apply (foldM_raises _ _ (Z.of_nat i)).
  { apply elem_of_range. apply lookup_lt_Some in Hrow. lia. }
  intros acc.
  apply (foldM_raises _ _ (Z.of_nat (length row))).
  { apply elem_of_range. lia. }
  intros acc'. unfold getitem2.
  rewrite getitem_nat by (by apply lookup_lt_Some in Hrow). rewrite Hrow. simpl.
  unfold getitem, index. rewrite !bool_decide_eq_false_2 by lia. done.
Qed.

Lemma solver_raises_on_short_row_witness :
  min_total_distance ([1; 0] :: [[0]]) = None.
Proof.
  apply (solver_raises_on_short_row [1; 0] [[0]] 1 [0]).
  - discriminate.
  - vm_compute. discriminate.
  - reflexivity.
  - simpl. lia.
Defined.

(** ** The traversal engine on a grid with obstacles *)

Lemma walk_inb (grid : list (list Z)) (m n : nat) (src c : Z * Z) (k : nat) :
  inb m n src → walk grid m n src k c → inb m n c.
Proof. intros Hsrc Hw. by destruct Hw. Qed.

Lemma walk_0 (grid : list (list Z)) (m n : nat) (src c : Z * Z) :
  walk grid m n src 0 c → c = src.
Proof. intros Hw. by inversion Hw. Qed.

(** A walk is at least as long as the Manhattan distance it covers. *)
Lemma walk_manhattan (grid : list (list Z)) (m n : nat) (src c : Z * Z) (k : nat) :
  walk grid m n src k c → manhattan src c ≤ Z.of_nat k.
Proof.
  induction 1 as [|k c dir Hw IH Hdir Hin Hg2].
  - unfold manhattan. lia.
  - destruct (manhattan_move src c dir Hdir); lia.
Qed.

Lemma sdist_unique (grid : list (list Z)) (m n : nat) (src c : Z * Z) (k k' : nat) :
  sdist grid m n src c k → sdist grid m n src c k' → k = k'.
Proof.
  intros [Hw Hmin] [Hw' Hmin']. specialize (Hmin k' Hw'). specialize (Hmin' k Hw). lia.
Qed.

Lemma sdist_start (grid : list (list Z)) (m n : nat) (src : Z * Z) :
  sdist grid m n src src 0.
Proof. split; [constructor|]. intros. lia. Qed.

Section Obstacles.
Variables (grid : list (list Z)) (m n : nat) (visit_id : Z) (src : Z * Z).
Variables (dist0 reach0 : list (list Z)).
Hypothesis Hgrid : shaped m n grid.
Hypothesis Hsrc : inb m n src.

(** Once every visited cell within [K] steps has its neighbours visited,
    every cell within [K + 1] steps is visited. *)
Lemma walk_closed (st : bfs_state) (K : nat) :
  marked visit_id st src →
  (∀ c k, inb m n c → marked visit_id st c → walk grid m n src k c → (k ≤ K)%nat →
     closed grid m n visit_id st c) →
  ∀ k c, walk grid m n src k c → (k ≤ S K)%nat → marked visit_id st c.
Proof.
  intros Hms Hcl k c Hw.
  induction Hw as [|k c dir Hw IH Hdir Hin Hg2]; intros Hk; [done|].
  apply (Hcl c k);
    [exact (walk_inb grid m n src c k Hsrc Hw)|apply IH; lia|done|lia|done..].
Qed.

(** Popping the head of the queue. *)
Lemma frontier_pop (d : nat) (e : Z * Z * Z) (qa qb : list (Z * Z * Z))
    (st : bfs_state) :
  frontier grid m n visit_id src dist0 reach0 None d (e :: qa) qb st →
  frontier grid m n visit_id src dist0 reach0 (Some e.1) d qa qb
    (BfsState (dist st) (reach st) (visited_mark st) (qa ++ qb))
  ∧ sdist grid m n src e.1 d ∧ e.2 = Z.of_nat d.
Proof.
  intros (Hwf & Hq & Hqa & Hqb & Hms & HP & HM & HL & HA).
  apply list.Forall_cons in Hqa as [[Hed Hes] Hqa].
  split; [|done].
  split_and!; try done.
  - eapply wf_state_pop; [done|]. rewrite Hq. done.
  - intros c Hc Hm. destruct (HP c Hc Hm) as [?|[Hin|?]]; [done| |by right; right].
    rewrite Hq in Hin. simpl in Hin. apply elem_of_cons in Hin as [->|Hin].
    + by left.
    + right. left. done.
Qed.

(** One direction of the popped cell. *)
Lemma frontier_visit (x y : Z) (d : nat) (qa qb : list (Z * Z * Z))
    (st st' : bfs_state) (dir : Z * Z) :
  frontier grid m n visit_id src dist0 reach0 (Some (x, y)) d qa qb st →
  sdist grid m n src (x, y) d →
  dir ∈ directions →
  visit_neighbor grid m n visit_id x y (Z.of_nat d) st dir = Some st' →
  ∃ qb', frontier grid m n visit_id src dist0 reach0 (Some (x, y)) d qa qb' st'
    ∧ (∀ c, inb m n c → marked visit_id st c → marked visit_id st' c)
    ∧ (inb m n (move (x, y) dir) → cell grid (move (x, y) dir) ≠ 2 →
       marked visit_id st' (move (x, y) dir)).
Proof.
  intros (Hwf & Hq & Hqa & Hqb & Hms & HP & HM & HL & HA) [Hwd Hmind] Hdir Hrun.
  destruct (visit_neighbor_cases grid m n visit_id Hgrid x y (Z.of_nat d) st dir Hwf)
    as [(Hen & st1 & Hst1 & Hent)|(Hnen & Hst)].
  - assert (st1 = st') by congruence. subst st1.
    set (c' := move (x, y) dir) in *.
    destruct Hen as (Hc' & Hvm & Hg2).
    destruct Hent as (Hwf' & Hq' & Hvc & Hvo & Hdd & Hrr).
    assert (Hmono : ∀ c, inb m n c → marked visit_id st c → marked visit_id st' c).
    { intros c Hc Hm. unfold marked in *.
      destruct (decide (c = c')) as [->|Hne]; [done|]. by rewrite Hvo. }
    assert (Hback : ∀ c, inb m n c → c ≠ c' → marked visit_id st' c →
              marked visit_id st c).
    { intros c Hc Hne Hm. unfold marked in *. by rewrite <- Hvo. }
    assert (Hw' : walk grid m n src (S d) c') by (by apply walk_step).
    assert (Hs' : sdist grid m n src c' (S d)).
    { split; [done|]. intros j Hj.
      destruct (decide (j ≤ d)%nat) as [Hle|Hgt]; [|lia].
      exfalso. apply Hvm. by apply (HL c' j). }
    exists (qb ++ [(c', Z.of_nat d + 1)]). split_and!; [|done|done].
    split_and!; try done.
    + rewrite Hq', Hq. by rewrite app_assoc.
    + apply Forall_app. split; [done|]. apply Forall_singleton.
      split; [simpl; lia|done].
    + by apply Hmono.
    + intros c Hc Hm. destruct (decide (c = c')) as [->|Hne].
      * right. left. rewrite Hq', fmap_app. apply elem_of_app. right.
        simpl. by left.
      * destruct (HP c Hc (Hback c Hc Hne Hm)) as [?|[Hin|Hcl]]; [by left| |].
        -- right. left. rewrite Hq', fmap_app. apply elem_of_app. by left.
        -- right. right. intros dir' Hdir' Hin' Hg'.
           apply Hmono; [done|]. by apply Hcl.
    + intros c Hc Hm. destruct (decide (c = c')) as [->|Hne]; [by exists (S d)|].
      apply HM; [done|]. by apply Hback.
    + intros c k Hw Hk.
      apply Hmono; [exact (walk_inb grid m n src c k Hsrc Hw)|]. by apply (HL c k).
    + intros c Hc. rewrite Hdd, Hrr by done.
      destruct (decide (c = c')) as [->|Hne].
      * destruct (HA c' Hc) as [(Hm & _)|(_ & Hd0 & Hr0)]; [done|].
        destruct (decide (cell grid c' = 0)) as [H0|H0].
        -- left. split_and!; [done..|]. exists (S d).
           rewrite !bool_decide_eq_true_2 by done. split_and!; [done|lia..].
        -- right. rewrite !bool_decide_eq_false_2 by tauto.
           split_and!; [tauto|lia..].
      * rewrite !(bool_decide_eq_false_2 (c = c' ∧ _)) by tauto.
        destruct (HA c Hc) as [(Hm & H0 & k & Hs & Hd0 & Hr0)|(Hn & Hd0 & Hr0)].
        -- left. split_and!; [by apply Hmono|done|]. exists k.
           split_and!; [done|lia..].
        -- right. split_and!; [|lia..]. intros [Hm H0]. apply Hn.
           split; [by apply Hback|done].
  - assert (st = st') by congruence. subst st'.
    exists qb. split_and!; [done|done|].
    intros Hc' Hg2. unfold marked.
    destruct (decide (cell (visited_mark st) (move (x, y) dir) = visit_id)); [done|].
    exfalso. apply Hnen. done.
Qed.

(** The [for] loop over the directions of the popped cell. *)
Lemma frontier_visit_all (x y : Z) (d : nat) (qa : list (Z * Z * Z))
    (dirs : list (Z * Z)) :
  ∀ qb st st',
  frontier grid m n visit_id src dist0 reach0 (Some (x, y)) d qa qb st →
  sdist grid m n src (x, y) d →
  (∀ dir, dir ∈ dirs → dir ∈ directions) →
  foldM (visit_neighbor grid m n visit_id x y (Z.of_nat d)) dirs st = Some st' →
  ∃ qb', frontier grid m n visit_id src dist0 reach0 (Some (x, y)) d qa qb' st'
    ∧ (∀ c, inb m n c → marked visit_id st c → marked visit_id st' c)
    ∧ (∀ dir, dir ∈ dirs → inb m n (move (x, y) dir) →
         cell grid (move (x, y) dir) ≠ 2 → marked visit_id st' (move (x, y) dir)).
Proof.
  induction dirs as [|dir dirs IH]; intros qb st st' Hfr Hd Hdirs Hrun.
  - simpl in Hrun. injection Hrun as <-. exists qb. split_and!; [done..|].
    intros dir Hdir. by apply elem_of_nil in Hdir.
  - simpl in Hrun. apply bind_Some in Hrun as (st1 & Hst1 & Hrun).
    destruct (frontier_visit x y d qa qb st st1 dir Hfr Hd)
      as (qb1 & Hfr1 & Hmono1 & Hdir1); [apply Hdirs; by left|done|].
    destruct (IH qb1 st1 st' Hfr1 Hd) as (qb' & Hfr' & Hmono' & Hdirs');
      [intros; apply Hdirs; by right|done|].
    exists qb'. split_and!; [done| |].
    + intros c Hc Hm. by apply Hmono', Hmono1.
    + intros dir' Hdir' Hin Hg2. apply elem_of_cons in Hdir' as [->|Hdir'].
      * apply Hmono'; [done|]. by apply Hdir1.
      * by apply Hdirs'.
Qed.

(** After the [for] loop the popped cell has its neighbours visited. *)
Lemma frontier_done (c : Z * Z) (d : nat) (qa qb : list (Z * Z * Z)) (st : bfs_state) :
  frontier grid m n visit_id src dist0 reach0 (Some c) d qa qb st →
  closed grid m n visit_id st c →
  frontier grid m n visit_id src dist0 reach0 None d qa qb st.
Proof.
  intros (Hwf & Hq & Hqa & Hqb & Hms & HP & HM & HL & HA) Hcl.
  split_and!; try done.
  intros c' Hc' Hm. destruct (HP c' Hc' Hm) as [[= <-]|[?|?]]; auto.
Qed.

(** When the entries [d] steps away are used up, the entries [d + 1] steps
    away take their place. *)
Lemma frontier_shift (d : nat) (qb : list (Z * Z * Z)) (st : bfs_state) :
  frontier grid m n visit_id src dist0 reach0 None d [] qb st →
  frontier grid m n visit_id src dist0 reach0 None (S d) qb [] st.
Proof.
  intros (Hwf & Hq & Hqa & Hqb & Hms & HP & HM & HL & HA).
  simpl in Hq.
  split_and!; try done.
  - by rewrite app_nil_r.
  - intros c0 k0 Hw0 Hk0.
    apply (walk_closed st d Hms) with (k := k0); [|done|done].
    intros c k Hc Hm Hw Hk. destruct (HP c Hc Hm) as [?|[Hin|?]]; [done| |done].
    exfalso. apply list_elem_of_fmap in Hin as (e & -> & He).
    rewrite Hq in He. rewrite Forall_forall in Hqb.
    apply list_elem_of_In in He.
    destruct (Hqb e He) as [_ [_ Hmin]]. specialize (Hmin k Hw). lia.
Qed.

(** One iteration of the [while] loop. *)
Lemma frontier_step (st : bfs_state) (x y d : Z) (q : list (Z * Z * Z))
    (st1 : bfs_state) :
  (∃ d0 qa qb, frontier grid m n visit_id src dist0 reach0 None d0 qa qb st) →
  queue st = (x, y, d) :: q →
  foldM (visit_neighbor grid m n visit_id x y d) directions
    (BfsState (dist st) (reach st) (visited_mark st) q) = Some st1 →
  ∃ d0 qa qb, frontier grid m n visit_id src dist0 reach0 None d0 qa qb st1.
Proof.
  intros (d0 & qa & qb & Hfr) Hq Hrun.
  assert (∃ d1 qa1 qb1,
            frontier grid m n visit_id src dist0 reach0 None d1 ((x, y, d) :: qa1) qb1 st
            ∧ q = qa1 ++ qb1)
    as (d1 & qa1 & qb1 & Hfr1 & ->).
  { destruct qa as [|e qa].
    - apply frontier_shift in Hfr. pose proof Hfr as (_ & Hq' & _).
      rewrite Hq, app_nil_r in Hq'. subst qb.
      exists (S d0), q, []. by rewrite app_nil_r.
    - pose proof Hfr as (_ & Hq' & _). rewrite Hq in Hq'. simpl in Hq'.
      injection Hq' as <- ->. by exists d0, qa, qb. }
  apply frontier_pop in Hfr1 as (Hfr1 & Hs1 & Hd). simpl in Hs1, Hd, Hfr1.
  subst d.
  destruct (frontier_visit_all x y d1 qa1 directions qb1 _ st1 Hfr1 Hs1)
    as (qb' & Hfr' & _ & Hdirs); [done..|].
  exists d1, qa1, qb'. by apply (frontier_done (x, y)).
Qed.

(** When the queue is empty the visited cells are the cells that can be
    walked to. *)
Lemma frontier_final (d : nat) (st : bfs_state) (c : Z * Z) :
  frontier grid m n visit_id src dist0 reach0 None d [] [] st →
  reachable grid m n src c → marked visit_id st c.
Proof.
  intros (Hwf & Hq & Hqa & Hqb & Hms & HP & HM & HL & HA) [k Hw].
  apply (walk_closed st k Hms) with (k := k); [|done|lia].
  intros c' k' Hc' Hm _ _. destruct (HP c' Hc' Hm) as [?|[Hin|?]]; [done| |done].
  rewrite Hq in Hin. by apply elem_of_nil in Hin.
Qed.

End Obstacles.

(** One traversal on any rectangular grid: every empty cell that can be
    walked to from the house receives the length of its shortest walk and
    one more reach; every other cell keeps its two entries. *)
Lemma traversal_obstacles (grid : list (list Z)) (m n : nat) (visit_id i j : Z)
    (dist0 reach0 vm0 : list (list Z)) :
  shaped m n grid → inb m n (i, j) →
  shaped m n dist0 → shaped m n reach0 → shaped m n vm0 →
  (∀ c, inb m n c → cell vm0 c < visit_id) →
  cell grid (i, j) ≠ 0 →
  ∃ dist1 reach1 vm1,
    bfs_from_house grid m n (dist0, reach0, vm0, visit_id) (i, j)
    = Some (dist1, reach1, vm1, visit_id + 1)
    ∧ shaped m n dist1 ∧ shaped m n reach1 ∧ shaped m n vm1
    ∧ (∀ c, inb m n c → cell vm1 c < visit_id + 1)
    ∧ ∀ c, inb m n c →
        (cell grid c = 0
         ∧ ∃ k, sdist grid m n (i, j) c k
                ∧ cell dist1 c = cell dist0 c + Z.of_nat k
                ∧ cell reach1 c = cell reach0 c + 1)
        ∨ (¬ (reachable grid m n (i, j) c ∧ cell grid c = 0)
           ∧ cell dist1 c = cell dist0 c
           ∧ cell reach1 c = cell reach0 c).
Proof.
  intros Hgrid Hsrc Hd0 Hr0 Hv0 Hfresh Hsrc0.
  destruct (traversal_reach grid m n Hgrid visit_id i j dist0 reach0 vm0)
    as (dist1 & reach1 & vm1' & Hrun1 & Hd1 & Hr1 & Hv1' & Hfresh1 & _); [done..|].
  exists dist1, reach1, vm1'. split_and!; [done..|].
  revert Hrun1. unfold bfs_from_house.
  destruct (setitem2_at m n vm0 i j visit_id Hv0 Hsrc) as (vm1 & -> & Hv1 & Hvc & Hvo).
  cbn -[bfs_while].
  set (st0 := BfsState dist0 reach0 vm1 [(i, j, 0)]).
  assert (Hwf0 : wf_state m n st0).
  { split_and!; [done..|]. simpl. by apply Forall_singleton. }
  destruct (bfs_while_fuel grid m n visit_id Hgrid (S (m * n)) st0 Hwf0)
    as (st' & Hrun & Hwf' & Hq').
  { simpl. pose proof (unmarked_le m n visit_id vm1). lia. }
  rewrite Hrun. simpl. intros [= <- <- <-].
  assert (Hunm : ∀ c, inb m n c → c ≠ (i, j) → cell vm1 c ≠ visit_id).
  { intros c Hc Hne. rewrite Hvo by done. specialize (Hfresh c Hc). lia. }
  assert (Hfr0 : ∃ d qa qb,
            frontier grid m n visit_id (i, j) dist0 reach0 None d qa qb st0).
  { exists 0%nat, [(i, j, 0)], []. unfold frontier, marked. simpl.
    split_and!; try done.
    - apply Forall_singleton. split; [done|]. apply sdist_start.
    - intros c Hc Hm. right. left.
      destruct (decide (c = (i, j))) as [->|Hne]; [by left|].
      exfalso. by apply (Hunm c).
    - intros c Hc Hm.
      destruct (decide (c = (i, j))) as [->|Hne]; [exists 0%nat; constructor|].
      exfalso. by apply (Hunm c).
    - intros c k Hw Hk. assert (k = 0%nat) as -> by lia.
      apply walk_0 in Hw as ->. done.
    - intros c Hc. right. split_and!; [|done..].
      intros [Hm H0]. destruct (decide (c = (i, j))) as [->|Hne]; [done|].
      by apply (Hunm c). }
  destruct (bfs_while_inv grid m n visit_id Hgrid
              (λ st, ∃ d qa qb,
                 frontier grid m n visit_id (i, j) dist0 reach0 None d qa qb st)
              (S (m * n)) st0 st')
    as [(d & qa & qb & Hfr) _]; [|done..|].
  { intros st x y d q st1 HI _ Hq Hst1.
    by apply (frontier_step grid m n visit_id (i, j) dist0 reach0 Hgrid Hsrc
                st x y d q st1). }
  pose proof Hfr as (_ & Hq & _). rewrite Hq' in Hq.
  symmetry in Hq. apply app_eq_nil in Hq as [-> ->].
  intros c Hc.
  pose proof (frontier_final grid m n visit_id (i, j) dist0 reach0 Hsrc d st' c Hfr)
    as Hfin.
  destruct Hfr as (_ & _ & _ & _ & _ & _ & HM & _ & HA).
  destruct (HA c Hc) as [(Hm & H0 & k & Hs & Hdk & Hrk)|(Hn & Hdk & Hrk)].
  - left. split; [done|]. by exists k.
  - right. split_and!; [|done..]. intros [Hre H0]. apply Hn. split; [|done].
    by apply Hfin.
Qed.

Lemma tally_bounds (grid : list (list Z)) (m n : nat) (c : Z * Z)
    (hs : list (Z * Z)) (r d : Z) :
  tally grid m n c hs r d → 0 ≤ r ≤ Z.of_nat (length hs) ∧ 0 ≤ d.
Proof. induction 1; simpl length; lia. Qed.

(** A reach counter that got one from every house: every house has a
    shortest walk to the cell, and the distance sum is their total. *)
Lemma tally_full (grid : list (list Z)) (m n : nat) (c : Z * Z)
    (hs : list (Z * Z)) (r d : Z) :
  tally grid m n c hs r d → r = Z.of_nat (length hs) →
  ∃ ks, Forall2 (λ h k, sdist grid m n h c k) hs ks ∧ d = Z.of_nat (sum_list ks).
Proof.
  induction 1 as [|h hs k r d Hs Ht IH|h hs r d Hn Ht IH]; intros Hr.
  - exists []. split; [constructor|done].
  - destruct IH as (ks & Hks & ->); [simpl length in Hr; lia|].
    exists (k :: ks). split; [by constructor|]. simpl. lia.
  - apply tally_bounds in Ht. simpl length in Hr. lia.
Qed.

Lemma tally_all (grid : list (list Z)) (m n : nat) (c : Z * Z)
    (hs : list (Z * Z)) (ks : list nat) (r d : Z) :
  Forall2 (λ h k, sdist grid m n h c k) hs ks → tally grid m n c hs r d →
  r = Z.of_nat (length hs) ∧ d = Z.of_nat (sum_list ks).
Proof.
  intros Hks. revert r d. induction Hks as [|h k hs ks Hs Hks IH]; intros r d Ht.
  - by inversion Ht.
  - inversion Ht as [|h' hs' k' r' d' Hs' Ht'|h' hs' r' d' Hn Ht']; subst.
    + destruct (IH _ _ Ht') as [-> ->].
      rewrite (sdist_unique grid m n h c k' k Hs' Hs). simpl. lia.
    + destruct Hn. exists k. apply Hs.
Qed.

(** All traversals, one per house, on any rectangular grid. *)
Lemma bfs_fold_obstacles (grid : list (list Z)) (m n : nat) (hs : list (Z * Z)) :
  shaped m n grid →
  Forall (λ h, inb m n h ∧ cell grid h ≠ 0) hs →
  ∀ dist0 reach0 vm0 visit_id,
  shaped m n dist0 → shaped m n reach0 → shaped m n vm0 →
  (∀ c, inb m n c → cell vm0 c < visit_id) →
  ∃ dist1 reach1 vm1,
    foldM (bfs_from_house grid m n) hs (dist0, reach0, vm0, visit_id)
    = Some (dist1, reach1, vm1, visit_id + Z.of_nat (length hs))
    ∧ shaped m n dist1 ∧ shaped m n reach1
    ∧ ∀ c, inb m n c → cell grid c = 0 →
        ∃ r d, tally grid m n c hs r d
               ∧ cell reach1 c = cell reach0 c + r
               ∧ cell dist1 c = cell dist0 c + d.
Proof.
  intros Hgrid Hhs. induction Hhs as [|[i j] hs [Hin H0] _ IH];
    intros dist0 reach0 vm0 visit_id Hd0 Hr0 Hv0 Hfresh.
  - exists dist0, reach0, vm0. simpl. rewrite Z.add_0_r. split_and!; [done..|].
    intros c Hc Hc0. exists 0, 0. split_and!; [constructor|lia..].
  - destruct (traversal_obstacles grid m n visit_id i j dist0 reach0 vm0)
      as (dist1 & reach1 & vm1 & Hrun & Hd1 & Hr1 & Hv1 & Hfresh1 & Hres); try done.
    destruct (IH dist1 reach1 vm1 (visit_id + 1))
      as (dist2 & reach2 & vm2 & Hrun2 & Hd2 & Hr2 & Hres2); try done.
    exists dist2, reach2, vm2. split_and!; [|done..|].
    + cbn [foldM]. rewrite Hrun. cbn [mbind option_bind]. rewrite Hrun2.
      do 2 f_equal. simpl length. lia.
    + intros c Hc Hc0. destruct (Hres2 c Hc Hc0) as (r & d & Ht & Hr & Hd).
      destruct (Hres c Hc) as [(_ & k & Hs & Hdk & Hrk)|(Hn & Hdk & Hrk)].
      * exists (r + 1), (d + Z.of_nat k). split_and!; [by constructor|lia..].
      * exists r, d. split_and!; [|lia..]. apply tally_miss; [|done].
        intros Hre. by apply Hn.
Qed.

(** The arrays the traversal engine scans at the end. *)
Lemma bfs_all_obstacles (grid : list (list Z)) (m n : nat) (hs : list (Z * Z)) :
  shaped m n grid →
  Forall (λ h, inb m n h ∧ cell grid h ≠ 0) hs →
  ∃ dist1 reach1 vm1 visit_id,
    bfs_all grid hs m n = Some (dist1, reach1, vm1, visit_id)
    ∧ shaped m n dist1 ∧ shaped m n reach1
    ∧ ∀ c, inb m n c → cell grid c = 0 →
        tally grid m n c hs (cell reach1 c) (cell dist1 c).
Proof.
  intros Hgrid Hhs. unfold bfs_all.
  destruct (bfs_fold_obstacles grid m n hs Hgrid Hhs
              (zeros2 m n) (zeros2 m n) (zeros2 m n) 1)
    as (dist1 & reach1 & vm1 & -> & Hd1 & Hr1 & Hres);
    [apply zeros2_shaped..| |].
  { intros c _. rewrite cell_zeros2. lia. }
  eexists _, _, _, _. split_and!; [done..|].
  intros c Hc H0. destruct (Hres c Hc H0) as (r & d & Ht & -> & ->).
  by rewrite !cell_zeros2, !Z.add_0_l.
Qed.

(** X9. The traversal engine on any rectangular grid, called with houses
    inside the grid that are not on empty cells and with their number.  A
    walk goes from a house in steps of the four directions over cells
    inside the grid whose marker is not 2.  The engine returns; if every
    house has a walk to some empty cell, the result is the least sum, over
    such cells, of the lengths of the shortest walks from the houses; any
    result other than -1 is such a sum. *)
Theorem traversal_engine_shortest_walks (grid : list (list Z)) (m n : nat)
    (houses : list (Z * Z)) :
  shaped m n grid →
  Forall (λ h, inb m n h ∧ cell grid h ≠ 0) houses →
  ∃ r, _bfs_total_distance grid houses m n (Z.of_nat (length houses)) = Some r
    ∧ (∀ c ks, inb m n c → cell grid c = 0 →
         Forall2 (λ h k, sdist grid m n h c k) houses ks →
         0 ≤ r ≤ Z.of_nat (sum_list ks))
    ∧ (r ≠ -1 →
       ∃ c ks, inb m n c ∧ cell grid c = 0
               ∧ Forall2 (λ h k, sdist grid m n h c k) houses ks
               ∧ r = Z.of_nat (sum_list ks)).
Proof.
  intros Hgrid Hhs. unfold _bfs_total_distance.
  destruct (bfs_all_obstacles grid m n houses Hgrid Hhs)
    as (dist1 & reach1 & vm1 & vid & -> & Hd1 & Hr1 & Hres). simpl.
  rewrite (min_over_reached_spec grid dist1 reach1 m n) by done. simpl.
  eexists. split; [done|].
  destruct (guarded_min_cases
              (λ c, cell grid c = 0 ∧ cell reach1 c = Z.of_nat (length houses))
              (cell dist1) m n)
    as [[Hno Hr]|[(c0 & Hc0 & [H00 Hr0] & Hat) Hle]]; simpl in *.
  - split.
    + intros c ks Hc H0 Hks. destruct Hno. exists c. split; [done|]. split; [done|].
      by destruct (tally_all grid m n c houses ks _ _ Hks (Hres c Hc H0)).
    + intros Hne. by destruct Hne.
  - pose proof (Hres c0 Hc0 H00) as Ht0. split.
    + intros c ks Hc H0 Hks.
      destruct (tally_all grid m n c houses ks _ _ Hks (Hres c Hc H0)) as [Hr Hd].
      split.
      * rewrite Hat. by apply tally_bounds in Ht0 as [_ ?].
      * rewrite <- Hd. by apply Hle.
    + intros _. destruct (tally_full grid m n c0 houses _ _ Ht0 Hr0) as (ks & Hks & Hd).
      exists c0, ks. split_and!; [done..|]. by rewrite Hat.
Qed.

Lemma traversal_engine_shortest_walks_witness :
  ∃ r, _bfs_total_distance [[1; 2; 0]; [0; 0; 0]] [(0, 0)] 2 3
         (Z.of_nat (length [(0, 0)])) = Some r
    ∧ (∀ c ks, inb 2 3 c → cell [[1; 2; 0]; [0; 0; 0]] c = 0 →
         Forall2 (λ h k, sdist [[1; 2; 0]; [0; 0; 0]] 2 3 h c k) [(0, 0)] ks →
         0 ≤ r ≤ Z.of_nat (sum_list ks))
    ∧ (r ≠ -1 →
       ∃ c ks, inb 2 3 c ∧ cell [[1; 2; 0]; [0; 0; 0]] c = 0
               ∧ Forall2 (λ h k, sdist [[1; 2; 0]; [0; 0; 0]] 2 3 h c k) [(0, 0)] ks
               ∧ r = Z.of_nat (sum_list ks)).
Proof.
  apply (traversal_engine_shortest_walks [[1; 2; 0]; [0; 0; 0]] 2 3 [(0, 0)]).
  - split; [reflexivity|]. repeat constructor.
  - apply Forall_singleton. split; [split; simpl; lia|by vm_compute].
Defined.

(** ** The two engines compared; the range of the solver *)

Lemma sdist_total_manhattan (grid : list (list Z)) (m n : nat) (c : Z * Z)
    (hs : list (Z * Z)) (ks : list nat) :
  Forall2 (λ h k, sdist grid m n h c k) hs ks →
  total_manhattan hs c ≤ Z.of_nat (sum_list ks).
Proof.
  unfold total_manhattan. induction 1 as [|h k hs ks [Hw _] _ IH]; [done|].
  rewrite fmap_cons, Zsum_cons. apply walk_manhattan in Hw. simpl. lia.
Qed.

(** X10. On any rectangular grid, with houses inside the grid that are not
    on empty cells and with their number, both engines return, and a
    result of the traversal engine other than -1 is never below the result
    of the separable engine, which then is not negative: walls can only
    lengthen the way. *)
Theorem traversal_cost_at_least_separable (grid : list (list Z)) (m n : nat)
    (houses : list (Z * Z)) :
  shaped m n grid → (0 < m)%nat → (0 < n)%nat →
  Forall (λ h, inb m n h ∧ cell grid h ≠ 0) houses →
  ∃ rf rb,
    _fast_total_distance grid houses m n (Z.of_nat (length houses)) = Some rf
    ∧ _bfs_total_distance grid houses m n (Z.of_nat (length houses)) = Some rb
    ∧ (rb = -1 ∨ 0 ≤ rf ≤ rb).
Proof.
  intros Hgrid Hm Hn Hhs.
  assert (Hin : Forall (inb m n) houses).
  { eapply Forall_impl; [|exact Hhs]. intros h [H _]. exact H. }
  rewrite (fast_total_distance_spec grid m n houses) by done.
  unfold _bfs_total_distance.
  destruct (bfs_all_obstacles grid m n houses Hgrid Hhs)
    as (dist1 & reach1 & vm1 & vid & -> & Hd1 & Hr1 & Hres). simpl.
  rewrite (min_over_reached_spec grid dist1 reach1 m n) by done. simpl.
  eexists _, _. split; [done|]. split; [done|].
  destruct (guarded_min_cases
              (λ c, cell grid c = 0 ∧ cell reach1 c = Z.of_nat (length houses))
              (cell dist1) m n)
    as [[_ Hr]|[(c0 & Hc0 & [H00 Hr0] & Hat) _]]; simpl in *; [by left|].
  right. rewrite Hat.
  destruct (tally_full grid m n c0 houses _ _ (Hres c0 Hc0 H00) Hr0) as (ks & Hks & ->).
  pose proof (sdist_total_manhattan grid m n c0 houses ks Hks) as Hlow.
  destruct (guarded_min_cases (λ c, cell grid c = 0) (total_manhattan houses) m n)
    as [[Hno _]|[(c1 & _ & _ & Hat1) Hle]]; simpl in *.
  - destruct Hno. by exists c0.
  - split.
    + rewrite Hat1. apply total_manhattan_nonneg.
    + specialize (Hle c0 Hc0 H00). lia.
Qed.

Lemma traversal_cost_at_least_separable_witness :
  ∃ rf rb,
    _fast_total_distance [[1; 2; 0]; [0; 0; 0]] [(0, 0)] 2 3
      (Z.of_nat (length [(0, 0)])) = Some rf
    ∧ _bfs_total_distance [[1; 2; 0]; [0; 0; 0]] [(0, 0)] 2 3
        (Z.of_nat (length [(0, 0)])) = Some rb
    ∧ (rb = -1 ∨ 0 ≤ rf ≤ rb).
Proof.
  apply (traversal_cost_at_least_separable [[1; 2; 0]; [0; 0; 0]] 2 3 [(0, 0)]).
  - split; [reflexivity|]. repeat constructor.
  - lia.
  - lia.
  - apply Forall_singleton. split; [split; simpl; lia|by vm_compute].
Defined.

(** Whatever [total_houses] is, the traversal engine returns -1 or a
    sum of walk lengths. *)
Lemma bfs_total_distance_range (grid : list (list Z)) (m n : nat)
    (hs : list (Z * Z)) (total_houses : Z) :
  shaped m n grid →
  Forall (λ h, inb m n h ∧ cell grid h ≠ 0) hs →
  ∃ r, _bfs_total_distance grid hs m n total_houses = Some r ∧ -1 ≤ r.
Proof.
  intros Hgrid Hhs. unfold _bfs_total_distance.
  destruct (bfs_all_obstacles grid m n hs Hgrid Hhs)
    as (dist1 & reach1 & vm1 & vid & -> & Hd1 & Hr1 & Hres). simpl.
  rewrite (min_over_reached_spec grid dist1 reach1 m n) by done. simpl.
  eexists. split; [done|].
  destruct (guarded_min_cases
              (λ c, cell grid c = 0 ∧ cell reach1 c = total_houses)
              (cell dist1) m n)
    as [[_ Hr]|[(c0 & Hc0 & [H00 _] & Hat) _]]; simpl in *; [lia|].
  rewrite Hat. pose proof (Hres c0 Hc0 H00) as Ht. apply tally_bounds in Ht. lia.
Qed.

(** X11. On every rectangular grid, whatever its markers, the solver
    returns, and its result is -1 or a number that is not negative. *)
Theorem solver_returns_on_rectangular_grid (grid : list (list Z)) (m n : nat) :
  shaped m n grid →
  ∃ r, min_total_distance grid = Some r ∧ -1 ≤ r.
Proof.
  intros Hgrid.
  destruct (decide (m = 0%nat ∨ n = 0%nat)) as [Hmn|Hmn].
  { exists (-1). split; [by apply (min_total_distance_degenerate grid m n)|done]. }
  assert (Hm : (0 < m)%nat) by lia. assert (Hn : (0 < n)%nat) by lia.
  rewrite (min_total_distance_shaped grid m n) by done.
  case_bool_decide as Htot; [by exists (-1)|].
  rewrite (houses_of_spec m n) by done. simpl.
  destruct (has_only_01 grid) eqn:H01.
  - rewrite (total_of_01 m n) by done.
    rewrite (fast_total_distance_spec grid m n) by (done || apply house_cells_inb).
    eexists. split; [done|].
    destruct (guarded_min_cases (λ c, cell grid c = 0)
                (total_manhattan (house_cells grid m n)) m n)
      as [[_ Hr]|[(c1 & _ & _ & Hat1) _]]; simpl in *; [lia|].
    rewrite Hat1. pose proof (total_manhattan_nonneg (house_cells grid m n) c1). lia.
  - apply bfs_total_distance_range; [done|]. apply house_cells_01.
Qed.

Lemma solver_returns_on_rectangular_grid_witness :
  ∃ r, min_total_distance [[1; -1; 0]; [2; 0; 7]] = Some r ∧ -1 ≤ r.
Proof.
  apply (solver_returns_on_rectangular_grid [[1; -1; 0]; [2; 0; 7]] 2 3).
  split; [reflexivity|]. repeat constructor.
Defined.

(** ** The objects the engines create *)

Lemma store_size_app (h1 h2 : Imp.heap) :
  store_size (h1 ++ h2) = (store_size h1 + store_size h2)%nat.
Proof. apply sum_list_with_app. Qed.

Lemma store_size_insert (h : Imp.heap) (l : nat) (o o' : Imp.obj) :
  h !! l = Some o → obj_size o' = obj_size o →
  store_size (<[l := o']> h) = store_size h.
Proof.
  unfold store_size. revert l. induction h as [|x h IH]; intros l Hl Hs; [done|].
  destruct l as [|l]; simpl in *.
  - injection Hl as ->. lia.
  - by rewrite (IH l).
Qed.

Lemma creates_ret {A} (a : A) : creates 0 0 (Imp.ret a).
Proof. intros h a' h' [= _ <-]. lia. Qed.

Lemma creates_lift {A} (o : option A) : creates 0 0 (Imp.lift o).
Proof. intros h a' h' [= _ <-]. lia. Qed.

Lemma creates_bind {A B} (k1 s1 k2 s2 : nat) (c : Imp.M A) (f : A → Imp.M B) :
  creates k1 s1 c → (∀ a, creates k2 s2 (f a)) →
  creates (k1 + k2) (s1 + s2) (Imp.bind c f).
Proof.
  intros Hc Hf h b h' Hrun. unfold Imp.bind in Hrun.
  destruct (c h) as [[a|] h1] eqn:Hch; [|done].
  destruct (Hc h a h1 Hch) as [Hl1 Hs1].
  destruct (Hf a h1 b h' Hrun) as [Hl2 Hs2]. lia.
Qed.

(** A step that creates nothing, followed by anything. *)
Lemma creates_bind_0 {A B} (k s : nat) (c : Imp.M A) (f : A → Imp.M B) :
  creates 0 0 c → (∀ a, creates k s (f a)) → creates k s (Imp.bind c f).
Proof. intros Hc Hf. by apply (creates_bind 0 0 k s). Qed.

Lemma creates_get_row (l : nat) : creates 0 0 (Imp.get_row l).
Proof. intros h a h' [= _ <-]. lia. Qed.

Lemma creates_get_list (l : nat) : creates 0 0 (Imp.get_list l).
Proof. intros h a h' [= _ <-]. lia. Qed.

Lemma creates_get_pairs (l : nat) : creates 0 0 (Imp.get_pairs l).
Proof. intros h a h' [= _ <-]. lia. Qed.

Lemma creates_alloc (o : Imp.obj) : creates 1 (obj_size o) (Imp.alloc o).
Proof.
  intros h a h' [= _ <-]. rewrite length_app, store_size_app. split; [done|].
  unfold store_size. simpl. lia.
Qed.

Lemma creates_load (l : nat) (i : Z) : creates 0 0 (Imp.load l i).
Proof.
  apply creates_bind_0; [apply creates_get_row|]. intros r. apply creates_lift.
Qed.

(** An item assignment keeps the length of the row it changes. *)
Lemma creates_store (l : nat) (i v : Z) : creates 0 0 (Imp.store l i v).
Proof.
  intros h a h' Hrun. unfold Imp.store, Imp.bind, Imp.get_row, Imp.lift, Imp.put_row in Hrun.
  destruct (h !! l) as [[r|ls|ps]|] eqn:Hl; [|done..].
  destruct (setitem r i v) as [r'|] eqn:Hset; [|done].
  injection Hrun as _ <-. rewrite length_insert.
  rewrite (store_size_insert h l (Imp.ORow r)) by
    (done || simpl; by apply setitem_length in Hset).
  lia.
Qed.

Lemma creates_load2 (a : nat) (i j : Z) : creates 0 0 (Imp.load2 a i j).
Proof.
  apply creates_bind_0; [apply creates_get_list|]. intros ls.
  apply creates_bind_0; [apply creates_lift|]. intros l. apply creates_load.
Qed.

Lemma creates_store2 (a : nat) (i j v : Z) : creates 0 0 (Imp.store2 a i j v).
Proof.
  apply creates_bind_0; [apply creates_get_list|]. intros ls.
  apply creates_bind_0; [apply creates_lift|]. intros l. apply creates_store.
Qed.

(** A loop whose body creates nothing creates nothing. *)
Lemma creates_foldM {A S} (f : S → A → Imp.M S) (l : list A) (s : S) :
  (∀ s x, creates 0 0 (f s x)) → creates 0 0 (Imp.foldM f l s).
Proof.
  intros Hf. revert s. induction l as [|x l IH]; intros s; simpl.
  - apply creates_ret.
  - apply creates_bind_0; [apply Hf|]. intros s'. apply IH.
Qed.

Lemma creates_new_rows (m n : nat) :
  creates (m + 1) (m * n + m) (Imp.new_rows m n).
Proof.
  intros h a h' Hrun. rewrite new_rows_run in Hrun. injection Hrun as _ <-.
  rewrite !length_app, !store_size_app, length_replicate. split; [simpl; lia|].
  assert (Hrep : store_size (replicate m (Imp.ORow (zeros n))) = (m * n)%nat).
  { unfold store_size. induction m as [|m IH]; [done|]. simpl. rewrite IH.
    unfold zeros. rewrite length_replicate. lia. }
  rewrite Hrep. unfold store_size. simpl. rewrite length_seq. lia.
Qed.

(** Something is created, and what follows creates nothing. *)
Lemma creates_bind_r {A B} (k s : nat) (c : Imp.M A) (f : A → Imp.M B) :
  creates k s c → (∀ a, creates 0 0 (f a)) → creates k s (Imp.bind c f).
Proof.
  intros Hc Hf h b h' Hrun.
  destruct (creates_bind k s 0 0 c f Hc Hf h b h' Hrun). lia.
Qed.

Lemma creates_new_row (n : nat) : creates 1 n (Imp.new_row n).
Proof.
  intros h a h' Hrun. destruct (creates_alloc _ h a h' Hrun) as [Hl Hs].
  simpl in Hs. unfold zeros in Hs. rewrite length_replicate in Hs. done.
Qed.

(** Statements that read and assign items of existing objects. *)
Ltac creates_nothing :=
  repeat first
    [ apply creates_ret | apply creates_lift
    | apply creates_load2 | apply creates_store2
    | apply creates_load | apply creates_store
    | apply creates_get_row | apply creates_get_list
    | apply creates_foldM; intros ? ?
    | apply creates_bind_0; [|intros ?]
    | match goal with
      | |- creates _ _ (if ?b then _ else _) => destruct b
      | |- creates _ _ (let '(_, _) := ?p in _) => destruct p
      | |- creates _ _ (match ?p with (_, _) => _ end) => destruct p
      end ].

Lemma creates_count_houses (houses : list (Z * Z)) (m n : nat) :
  creates 2 (m + n) (Imp.count_houses houses m n).
Proof.
  unfold Imp.count_houses.
  apply (creates_bind 1 m 1 n); [apply creates_new_row|]. intros row_count.
  apply creates_bind_r; [apply creates_new_row|]. intros col_count.
  creates_nothing.
Qed.

Lemma creates_axis_cost (count : nat) (m : nat) (total : Z) :
  creates 1 m (Imp.axis_cost count m total).
Proof.
  unfold Imp.axis_cost, Imp.weighted_sum.
  apply creates_bind_r; [apply creates_new_row|]. intros cost.
  creates_nothing.
Qed.

Lemma creates_visit_neighbor (grid m n : nat) (visit_id : Z)
    (dist1 reach1 visited1 : nat) (x y d : Z) (q : list (Z * Z * Z)) (dir : Z * Z) :
  creates 0 0 (Imp.visit_neighbor grid m n visit_id dist1 reach1 visited1 x y d q dir).
Proof. unfold Imp.visit_neighbor. destruct dir as [dx dy]. creates_nothing. Qed.

Lemma creates_bfs_while (fuel : nat) (grid m n : nat) (visit_id : Z)
    (dist1 reach1 visited1 dirs : nat) (q : list (Z * Z * Z)) :
  creates 0 0 (Imp.bfs_while fuel grid m n visit_id dist1 reach1 visited1 dirs q).
Proof.
  revert q. induction fuel as [|fuel IH]; intros [|[[x y] d] q];
    cbn [Imp.bfs_while]; try apply creates_ret; try apply creates_lift.
  apply creates_bind_0; [apply creates_get_pairs|]. intros ds.
  apply creates_bind_0; [|intros q'; apply IH].
  apply creates_foldM. intros q' dir. apply creates_visit_neighbor.
Qed.

Lemma creates_bfs_from_house (grid m n : nat) (dist1 reach1 visited1 dirs : nat)
    (visit_id : Z) (h : Z * Z) :
  creates 0 0 (Imp.bfs_from_house grid m n dist1 reach1 visited1 dirs visit_id h).
Proof.
  unfold Imp.bfs_from_house. destruct h as [i j].
  apply creates_bind_0; [apply creates_store2|]. intros _.
  apply creates_bind_0; [apply creates_bfs_while|]. intros _. apply creates_ret.
Qed.

Lemma creates_fast_total_distance (grid : nat) (houses : list (Z * Z)) (m n : nat)
    (total_houses : Z) :
  creates 4 (m + n + (m + n)) (Imp._fast_total_distance grid houses m n total_houses).
Proof.
  unfold Imp._fast_total_distance, Imp.min_over_empty.
  apply (creates_bind 2 (m + n) 2 (m + n)); [apply creates_count_houses|].
  intros [row_count col_count].
  apply (creates_bind 1 m 1 n); [apply creates_axis_cost|]. intros cost_row.
  apply creates_bind_r; [apply creates_axis_cost|]. intros cost_col.
  creates_nothing.
Qed.

Lemma creates_bfs_total_distance (grid : nat) (houses : list (Z * Z)) (m n : nat)
    (total_houses : Z) :
  creates (m + 1 + (m + 1 + (1 + (m + 1))))
    (m * n + m + (m * n + m + (4 + (m * n + m))))
    (Imp._bfs_total_distance grid houses m n total_houses).
Proof.
  unfold Imp._bfs_total_distance, Imp.min_over_reached.
  apply creates_bind; [apply creates_new_rows|]. intros dist1.
  apply creates_bind; [apply creates_new_rows|]. intros reach1.
  apply (creates_bind 1 4); [apply (creates_alloc (Imp.OPairs directions))|].
  intros dirs.
  apply creates_bind_r; [apply creates_new_rows|]. intros visited1.
  apply creates_bind_0.
  { apply creates_foldM. intros visit_id hc. apply creates_bfs_from_house. }
  intros _. creates_nothing.
Qed.

(** X12. A call of the separable engine that returns leaves a store with
    exactly four more list objects, the two count rows and the two cost
    rows, and [2 * (m + n)] more items in all: the extra space is linear in
    the two dimensions, whatever the number of houses. *)
Theorem separable_engine_space (grid : nat) (houses : list (Z * Z)) (m n : nat)
    (total_houses : Z) (h h' : Imp.heap) (r : Z) :
  Imp._fast_total_distance grid houses m n total_houses h = (Some r, h') →
  length h' = (length h + 4)%nat
  ∧ store_size h' = (store_size h + 2 * (m + n))%nat.
Proof.
  intros Hrun.
  destruct (creates_fast_total_distance grid houses m n total_houses h r h' Hrun).
  lia.
Qed.

Lemma separable_engine_space_witness :
  length (Imp._fast_total_distance 2 [(0, 0); (1, 1)] 2 2 2
            [Imp.ORow [1; 0]; Imp.ORow [0; 1]; Imp.OList [0; 1]%nat]).2
  = (length [Imp.ORow [1; 0]%Z; Imp.ORow [0; 1]%Z; Imp.OList [0; 1]] + 4)%nat
  ∧ store_size (Imp._fast_total_distance 2 [(0, 0); (1, 1)] 2 2 2
                  [Imp.ORow [1; 0]; Imp.ORow [0; 1]; Imp.OList [0; 1]%nat]).2
    = (store_size [Imp.ORow [1; 0]%Z; Imp.ORow [0; 1]%Z; Imp.OList [0; 1]]
       + 2 * (2 + 2))%nat.
Proof.
  apply (separable_engine_space 2 [(0, 0); (1, 1)] 2 2 2
           [Imp.ORow [1; 0]; Imp.ORow [0; 1]; Imp.OList [0; 1]%nat] _ 2).
  reflexivity.
Defined.

(** X13. A call of the traversal engine that returns leaves a store with
    exactly [3 * (m + 1) + 1] more list objects, the distance, reach and
    visited arrays with their rows and the list of the four directions, and
    [3 * (m * n + m) + 4] more items in all: the lists are made once and
    shared by the traversals from all houses.  The queue of a traversal is
    no list object; it is passed by value here and not counted. *)
Theorem traversal_engine_space (grid : nat) (houses : list (Z * Z)) (m n : nat)
    (total_houses : Z) (h h' : Imp.heap) (r : Z) :
  Imp._bfs_total_distance grid houses m n total_houses h = (Some r, h') →
  length h' = (length h + 3 * (m + 1) + 1)%nat
  ∧ store_size h' = (store_size h + 3 * (m * n + m) + 4)%nat.
Proof.
  intros Hrun.
  destruct (creates_bfs_total_distance grid houses m n total_houses h r h' Hrun).
  lia.
Qed.

Lemma traversal_engine_space_witness :
  length (Imp._bfs_total_distance 2 [(0, 0)] 2 2 1
            [Imp.ORow [1; 2]; Imp.ORow [0; 0]; Imp.OList [0; 1]%nat]).2
  = (length [Imp.ORow [1; 2]%Z; Imp.ORow [0; 0]%Z; Imp.OList [0; 1]]
     + 3 * (2 + 1) + 1)%nat
  ∧ store_size (Imp._bfs_total_distance 2 [(0, 0)] 2 2 1
                  [Imp.ORow [1; 2]; Imp.ORow [0; 0]; Imp.OList [0; 1]%nat]).2
    = (store_size [Imp.ORow [1; 2]%Z; Imp.ORow [0; 0]%Z; Imp.OList [0; 1]]
       + 3 * (2 * 2 + 2) + 4)%nat.
Proof.
  apply (traversal_engine_space 2 [(0, 0)] 2 2 1
           [Imp.ORow [1; 2]; Imp.ORow [0; 0]; Imp.OList [0; 1]%nat] _ 1).
  reflexivity.
Defined.

(** ** The benchmark driver *)

(** X14. [run_once] on a square grid of 0s and 1s with [N >= 1]: it
    returns, the entry ['houses'] is the number of 1s, which is the sum of
    the grid, and the entries ['fast_res'] and ['bfs_res'] are equal; they
    are -1 exactly when every cell is a house, and 0 when there is no
    house. *)
Theorem run_once_engines_agree (grid : list (list Z)) (N : nat) :
  (0 < N)%nat → shaped N N grid → has_only_01 grid = true →
  ∃ r, run_once grid N = Some (total_of grid, r, r)
    ∧ (r = -1 ↔ ∀ c, inb N N c → cell grid c = 1)
    ∧ ((∀ c, inb N N c → cell grid c = 0) → r = 0).
Proof.
  intros HN Hgrid H01. unfold run_once.
  rewrite (houses_of_spec N N) by done. simpl.
  rewrite (fast_total_distance_spec grid N N) by (done || apply house_cells_inb).
  simpl.
  rewrite (bfs_total_distance_no_obstacle grid N N)
    by (done || (by apply only_01_no_2) || apply house_cells_01).
  simpl. rewrite <- (total_of_01 N N) by done.
  eexists. split; [done|].
  pose proof (proj1 (has_only_01_spec N N grid Hgrid) H01) as Hcases.
  destruct (guarded_min_cases (λ c, cell grid c = 0)
              (total_manhattan (house_cells grid N N)) N N)
    as [[Hno Hr]|[(c1 & Hc1 & H10 & Hat1) _]]; simpl in *.
  - split.
    + split; [|done]. intros _ c Hc. destruct (Hcases c Hc) as [H0|H1]; [|done].
      destruct Hno. by exists c.
    + intros Hall. destruct Hno. exists (0, 0). split; [split; simpl; lia|].
      apply Hall. split; simpl; lia.
  - pose proof (total_manhattan_nonneg (house_cells grid N N) c1) as Hnn. split.
    + split; [lia|]. intros Hall. rewrite (Hall c1 Hc1) in H10. done.
    + intros Hall. rewrite Hat1.
      assert (Hnil : house_cells grid N N = []); [|by rewrite Hnil].
      apply filter_none. intros c Hc. apply elem_of_cells in Hc.
      rewrite (Hall c Hc). done.
Qed.

Lemma run_once_engines_agree_witness :
  ∃ r, run_once [[1; 0]; [0; 1]] 2 = Some (total_of [[1; 0]; [0; 1]], r, r)
    ∧ (r = -1 ↔ ∀ c, inb 2 2 c → cell [[1; 0]; [0; 1]] c = 1)
    ∧ ((∀ c, inb 2 2 c → cell [[1; 0]; [0; 1]] c = 0) → r = 0).
Proof.
  apply (run_once_engines_agree [[1; 0]; [0; 1]] 2).
  - lia.
  - split; [reflexivity|]. repeat constructor.
  - reflexivity.
Defined.

(** ** Houses outside the grid *)

Lemma index_out (len : nat) (i : Z) :
  ¬ (- Z.of_nat len ≤ i < Z.of_nat len) → index len i = None.
Proof.
  intros H. unfold index. rewrite !bool_decide_eq_false_2 by lia. done.
Qed.

Lemma foldM_raises_inv {A S} (P : S → Prop) (f : S → A → option S)
    (l : list A) (x : A) (s : S) :
  x ∈ l → P s →
  (∀ s y s', P s → f s y = Some s' → P s') →
  (∀ s, P s → f s x = None) →
  foldM f l s = None.
Proof.
  intros Hx HP Hstep Hf. revert s HP. induction l as [|y l IH]; intros s HP.
  - by apply elem_of_nil in Hx.
  - simpl. apply elem_of_cons in Hx as [<-|Hx]; [by rewrite Hf|].
    destruct (f s y) as [s'|] eqn:Hs; simpl; [|done].
    apply IH; [done|]. by apply (Hstep s y).
Qed.

Lemma setitem2_out (m n : nat) (a : list (list Z)) (i j v : Z) :
  shaped m n a →
  ¬ (- Z.of_nat m ≤ i < Z.of_nat m ∧ - Z.of_nat n ≤ j < Z.of_nat n) →
  setitem2 a i j v = None.
Proof.
  intros [Hlen Hrows] Hout. unfold setitem2, getitem.
  destruct (index (length a) i) as [k|] eqn:Hk; [|done]. simpl.
  destruct (a !! k) as [row|] eqn:Hrow; [|done]. simpl.
  assert (Hj : ¬ (- Z.of_nat (length row) ≤ j < Z.of_nat (length row))).
  { rewrite Forall_forall in Hrows.
    rewrite (Hrows row) by (apply list_elem_of_In; by eapply list_elem_of_lookup_2).
    intros Hj. apply Hout. split; [|done].
    destruct (decide (- Z.of_nat m ≤ i < Z.of_nat m)) as [|Hi]; [done|].
    rewrite <- Hlen in Hi. by rewrite (index_out _ _ Hi) in Hk. }
  unfold setitem. by rewrite (index_out _ _ Hj).
Qed.

(** X15. A house whose row is outside [-m .. m-1] or whose column is
    outside [-n .. n-1] makes the separable engine raise, wherever it
    stands in the house list and whatever the grid is. *)
Theorem separable_engine_raises_on_far_house (grid : list (list Z))
    (houses : list (Z * Z)) (m n : nat) (total_houses i j : Z) :
  (i, j) ∈ houses →
  ¬ (- Z.of_nat m ≤ i < Z.of_nat m ∧ - Z.of_nat n ≤ j < Z.of_nat n) →
  _fast_total_distance grid houses m n total_houses = None.
Proof.
  intros Hin Hout. unfold _fast_total_distance, cost_arrays.
  assert (Hc : count_houses houses m n = None); [|by rewrite Hc].
  unfold count_houses.
  apply (foldM_raises_inv (λ s, length s.1 = m ∧ length s.2 = n) _ _ (i, j));
    [done|simpl; unfold zeros; by rewrite !length_replicate| |].
  - intros [rc cc] [i' j'] [rc' cc'] [Hrc Hcc] Hstep. simpl in *.
    apply bind_Some in Hstep as (ri & _ & Hstep).
    apply bind_Some in Hstep as (rc1 & Hrc1 & Hstep).
    apply bind_Some in Hstep as (cj & _ & Hstep).
    apply bind_Some in Hstep as (cc1 & Hcc1 & Hstep).
    injection Hstep as <- <-.
    apply setitem_length in Hrc1, Hcc1. split; congruence.
  - intros [rc cc] [Hrc Hcc]. simpl in *.
    destruct (decide (- Z.of_nat m ≤ i < Z.of_nat m)) as [Hi|Hi].
    + destruct (getitem rc i) as [ri|]; [|done]. simpl.
      destruct (setitem rc i (ri + 1)) as [rc1|]; [|done]. simpl.
      unfold getitem. rewrite (index_out (length cc) j); [done|].
      rewrite Hcc. tauto.
    + unfold getitem. rewrite (index_out (length rc) i); [done|]. by rewrite Hrc.
Qed.

Lemma separable_engine_raises_on_far_house_witness :
  _fast_total_distance [[1; 0]; [0; 0]] [(0, 0); (2, 0)] 2 2 2 = None.
Proof.
  apply (separable_engine_raises_on_far_house _ _ 2 2 2 2 0).
  - right. left.
  - simpl. lia.
Defined.

(** X16. On a rectangular grid, a house whose row is outside
    [-m .. m-1] or whose column is outside [-n .. n-1] makes the traversal
    engine raise when the houses listed before it are inside the grid: the
    traversals from those return, and the assignment of the start mark
    fails. *)
Theorem traversal_engine_raises_on_far_house (grid : list (list Z))
    (before after : list (Z * Z)) (m n : nat) (total_houses i j : Z) :
  shaped m n grid → Forall (inb m n) before →
  ¬ (- Z.of_nat m ≤ i < Z.of_nat m ∧ - Z.of_nat n ≤ j < Z.of_nat n) →
  _bfs_total_distance grid (before ++ (i, j) :: after) m n total_houses = None.
Proof.
  intros Hgrid Hbefore Hout. unfold _bfs_total_distance, bfs_all.
  rewrite foldM_app.
  destruct (bfs_fold_avoids_2 grid m n before Hgrid before) with
    (dist0 := zeros2 m n) (reach0 := zeros2 m n) (vm0 := zeros2 m n) (visit_id := 1)
    as (dist1 & reach1 & vm1 & -> & _ & _ & Hv1 & _);
    [|apply zeros2_shaped..| |].
  - rewrite Forall_forall in Hbefore. apply Forall_forall. intros h Hh.
    split; [by apply Hbefore|by apply list_elem_of_In].
  - intros c _ Hc. by rewrite cell_zeros2 in Hc.
  - cbn -[bfs_while]. by rewrite (setitem2_out m n).
Qed.

Lemma traversal_engine_raises_on_far_house_witness :
  _bfs_total_distance [[1; 0]; [0; 0]] ([(0, 0)] ++ (0, 2) :: []) 2 2 2 = None.
Proof.
  apply (traversal_engine_raises_on_far_house _ [(0, 0)] [] 2 2 2 0 2).
  - split; [reflexivity|]. repeat constructor.
  - repeat constructor; simpl; lia.
  - simpl. lia.
Defined.

(** ** The guards at concrete grids *)

Lemma fast_path_sentinel_witness :
  ∃ r, min_total_distance [[1; 1]; [1; 1]] = Some r
       ∧ (r = -1 ↔ (¬ ∃ c, inb 2 2 c ∧ cell [[1; 1]; [1; 1]] c = 1)
                   ∨ (¬ ∃ c, inb 2 2 c ∧ cell [[1; 1]; [1; 1]] c = 0))
       ∧ (r ≠ -1 → 0 ≤ r).
Proof.
  apply (fast_path_sentinel [[1; 1]; [1; 1]] 2 2).
  - split; [reflexivity|]. repeat constructor.
  - lia.
  - lia.
  - reflexivity.
Defined.

Lemma degenerate_grid_leaves_store_witness :
  Imp.min_total_distance 1 [Imp.ORow []; Imp.OList [0%nat; 0%nat]]
  = (Some (-1), [Imp.ORow []; Imp.OList [0%nat; 0%nat]]).
Proof.
  apply (degenerate_grid_leaves_store [Imp.ORow []; Imp.OList [0%nat; 0%nat]] 1).
  right. exists 0%nat, [0%nat]. split; reflexivity.
Defined.

(** ** The engines on a grid without marker 2 *)

(** X19. On a rectangular grid on which no cell has marker 2, whatever
    other markers it has, with houses inside the grid that are not on empty
    cells and with their number, the traversal engine returns what the
    separable engine returns: cells with markers other than 0, 1 and 2 are
    walked through like houses and are no meeting points. *)
Theorem engines_agree_without_marker_2 (grid : list (list Z)) (m n : nat)
    (houses : list (Z * Z)) :
  shaped m n grid → (0 < m)%nat → (0 < n)%nat →
  (∀ c, inb m n c → cell grid c ≠ 2) →
  Forall (λ h, inb m n h ∧ cell grid h ≠ 0) houses →
  ∃ r, _fast_total_distance grid houses m n (Z.of_nat (length houses)) = Some r
    ∧ _bfs_total_distance grid houses m n (Z.of_nat (length houses)) = Some r.
Proof.
  intros Hgrid Hm Hn Hno2 Hhs.
  assert (Hin : Forall (inb m n) houses).
  { eapply Forall_impl; [|exact Hhs]. intros h [H _]. exact H. }
  eexists. split.
  - by apply fast_total_distance_spec.
  - by apply bfs_total_distance_no_obstacle.
Qed.

Lemma engines_agree_without_marker_2_witness :
  ∃ r, _fast_total_distance [[1; 3; 0]; [0; -1; 1]] [(0, 0); (1, 2)] 2 3
         (Z.of_nat (length [(0, 0); (1, 2)])) = Some r
    ∧ _bfs_total_distance [[1; 3; 0]; [0; -1; 1]] [(0, 0); (1, 2)] 2 3
        (Z.of_nat (length [(0, 0); (1, 2)])) = Some r.
Proof.
  apply (engines_agree_without_marker_2 [[1; 3; 0]; [0; -1; 1]] 2 3 [(0, 0); (1, 2)]).
  - split; [reflexivity|]. repeat constructor.
  - lia.
  - lia.
  - intros [i j] [Hi Hj]. simpl in Hi, Hj.
    assert (Hc : (i = 0 ∨ i = 1) ∧ (j = 0 ∨ j = 1 ∨ j = 2)) by lia.
    destruct Hc as [[-> | ->] [-> | [-> | ->]]]; vm_compute; discriminate.
  - repeat (apply list.Forall_cons; split; [split; [split; simpl; lia|by vm_compute]|]).
    apply Forall_nil_2.
Defined.

(** ** Every house walks at least one step *)

Lemma total_manhattan_ge_length (hs : list (Z * Z)) (c : Z * Z) :
  c ∉ hs → Z.of_nat (length hs) ≤ total_manhattan hs c.
Proof.
  unfold total_manhattan. induction hs as [|h hs IH]; intros Hc; [done|].
  apply not_elem_of_cons in Hc as [Hne Hc].
  rewrite fmap_cons, Zsum_cons. specialize (IH Hc).
  pose proof (manhattan_nonneg h c).
  destruct (decide (manhattan h c = 0)) as [H0|H0].
  - apply manhattan_0 in H0. done.
  - simpl length. lia.
Qed.

(** X20. On a rectangular grid of 0s and 1s, a result of the solver other
    than -1 is at least the number of houses: the meeting point is an empty
    cell, so every house is at least one step away from it. *)
Theorem solver_cost_at_least_house_count (grid : list (list Z)) (m n : nat) (r : Z) :
  shaped m n grid → has_only_01 grid = true →
  min_total_distance grid = Some r → r ≠ -1 →
  Z.of_nat (length (house_cells grid m n)) ≤ r.
Proof.
  intros Hgrid H01 Hrun Hr.
  destruct (decide (m = 0%nat ∨ n = 0%nat)) as [Hmn|Hmn].
  { rewrite (min_total_distance_degenerate grid m n) in Hrun by done. congruence. }
  assert (Hm : (0 < m)%nat) by lia. assert (Hn : (0 < n)%nat) by lia.
  rewrite (min_total_distance_shaped grid m n) in Hrun by done.
  case_bool_decide as Htot; [congruence|].
  rewrite (houses_of_spec m n) in Hrun by done. rewrite H01 in Hrun. simpl in Hrun.
  rewrite (total_of_01 m n) in Hrun by done.
  rewrite (fast_total_distance_spec grid m n) in Hrun by (done || apply house_cells_inb).
  injection Hrun as <-.
  destruct (guarded_min_cases (λ c, cell grid c = 0)
              (total_manhattan (house_cells grid m n)) m n)
    as [[_ Hr']|[(c & Hc & H0 & Hat) _]]; simpl in *; [done|].
  rewrite Hat. apply total_manhattan_ge_length.
  intros Hin. apply elem_of_house_cells in Hin as [_ H1]. congruence.
Qed.

Lemma solver_cost_at_least_house_count_witness :
  Z.of_nat (length (house_cells [[1; 0; 1]; [0; 0; 1]] 2 3)) ≤ 4.
Proof.
  apply (solver_cost_at_least_house_count [[1; 0; 1]; [0; 0; 1]] 2 3 4).
  - split; [reflexivity|]. repeat constructor.
  - reflexivity.
  - reflexivity.
  - discriminate.
Defined.

(** ** Negative house coordinates *)

Lemma index_wrap (len : nat) (i : Z) :
  - Z.of_nat len ≤ i < Z.of_nat len →
  index len (i `mod` Z.of_nat len) = index len i.
Proof.
  intros Hi. destruct (decide (0 ≤ i)) as [Hpos|Hneg].
  - by rewrite Z.mod_small by lia.
  - assert (Hw : i `mod` Z.of_nat len = Z.of_nat len + i).
    { rewrite <- (Z_mod_plus_full i 1 (Z.of_nat len)).
      rewrite Z.mod_small by lia. lia. }
    rewrite Hw. unfold index.
    rewrite (bool_decide_eq_true_2 (0 ≤ Z.of_nat len + i < Z.of_nat len)) by lia.
    rewrite (bool_decide_eq_false_2 (0 ≤ i < Z.of_nat len)) by lia.
    rewrite (bool_decide_eq_true_2 (- Z.of_nat len ≤ i < 0)) by lia. done.
Qed.

Lemma foldM_fmap {A B S} (f : S → B → option S) (g : A → B) (l : list A) (s : S) :
  foldM f (g <$> l) s = foldM (λ s x, f s (g x)) l s.
Proof.
  revert s. induction l as [|x l IH]; intros s; [done|]. simpl.
  destruct (f s (g x)); simpl; [apply IH|done].
Qed.

Lemma foldM_ext_inv {A S} (P : S → Prop) (f f' : S → A → option S)
    (l : list A) (s : S) :
  P s →
  (∀ s y s', P s → f s y = Some s' → P s') →
  (∀ s x, x ∈ l → P s → f s x = f' s x) →
  foldM f l s = foldM f' l s.
Proof.
  intros HP Hstep Hext. revert s HP. induction l as [|x l IH]; intros s HP; [done|].
  simpl. rewrite <- (Hext s x) by (done || by left).
  destruct (f s x) as [s'|] eqn:Hs; simpl; [|done].
  apply IH; [intros; apply Hext; [by right|done]|].
  by apply (Hstep s x).
Qed.

(** X21. A house given with a negative row in [-m .. -1] or a negative
    column in [-n .. -1] does not make the separable engine raise: it is
    counted at the row and the column that Python's negative indices
    address, so the engine returns (or raises) as on the house list with
    those coordinates taken modulo [m] and [n]. *)
Theorem separable_engine_wraps_negative_house (grid : list (list Z))
    (houses : list (Z * Z)) (m n : nat) (total_houses : Z) :
  Forall (λ h, - Z.of_nat m ≤ h.1 < Z.of_nat m ∧ - Z.of_nat n ≤ h.2 < Z.of_nat n)
    houses →
  _fast_total_distance grid houses m n total_houses
  = _fast_total_distance grid
      ((λ h, (h.1 `mod` Z.of_nat m, h.2 `mod` Z.of_nat n)) <$> houses)
      m n total_houses.
Proof.
  intros Hhs. unfold _fast_total_distance, cost_arrays.
  assert (Hc : count_houses houses m n
               = count_houses
                   ((λ h, (h.1 `mod` Z.of_nat m, h.2 `mod` Z.of_nat n)) <$> houses)
                   m n); [|by rewrite Hc].
  unfold count_houses. rewrite foldM_fmap.
  apply (foldM_ext_inv (λ s, length s.1 = m ∧ length s.2 = n)).
  - simpl. unfold zeros. by rewrite !length_replicate.
  - intros [rc cc] [i' j'] [rc' cc'] [Hrc Hcc] Hstep. simpl in *.
    apply bind_Some in Hstep as (ri & _ & Hstep).
    apply bind_Some in Hstep as (rc1 & Hrc1 & Hstep).
    apply bind_Some in Hstep as (cj & _ & Hstep).
    apply bind_Some in Hstep as (cc1 & Hcc1 & Hstep).
    injection Hstep as <- <-.
    apply setitem_length in Hrc1, Hcc1. split; congruence.
  - intros [rc cc] [i j] Hin [Hrc Hcc]. simpl in *.
    rewrite Forall_forall in Hhs. apply list_elem_of_In in Hin.
    destruct (Hhs _ Hin) as [Hi Hj]. simpl in Hi, Hj.
    assert (Hgi : getitem rc (i `mod` Z.of_nat m) = getitem rc i).
    { unfold getitem. rewrite Hrc. by rewrite index_wrap. }
    assert (Hsi : ∀ v, setitem rc (i `mod` Z.of_nat m) v = setitem rc i v).
    { intros v. unfold setitem. rewrite Hrc. by rewrite index_wrap. }
    rewrite Hgi. destruct (getitem rc i) as [ri|]; [|done]. simpl.
    rewrite Hsi. destruct (setitem rc i (ri + 1)) as [rc1|] eqn:Hrc1; [|done]. simpl.
    assert (Hgj : getitem cc (j `mod` Z.of_nat n) = getitem cc j).
    { unfold getitem. rewrite Hcc. by rewrite index_wrap. }
    assert (Hsj : ∀ v, setitem cc (j `mod` Z.of_nat n) v = setitem cc j v).
    { intros v. unfold setitem. rewrite Hcc. by rewrite index_wrap. }
    rewrite Hgj. destruct (getitem cc j) as [cj|]; [|done]. simpl.
    by rewrite Hsj.
Qed.

Lemma separable_engine_wraps_negative_house_witness :
  _fast_total_distance [[1; 0]; [0; 1]] [(0, 0); (-1, -1)] 2 2 2
  = _fast_total_distance [[1; 0]; [0; 1]]
      ((λ h, (h.1 `mod` Z.of_nat 2, h.2 `mod` Z.of_nat 2)) <$> [(0, 0); (-1, -1)])
      2 2 2.
Proof.
  apply (separable_engine_wraps_negative_house [[1; 0]; [0; 1]] [(0, 0); (-1, -1)] 2 2 2).
  repeat constructor; simpl; lia.
Defined.

